(** * air-rag-backend: the document ingestion pipeline

    A shallow embedding of the ingestion code of the backend
    ([documents.service.ts], [pinecone.service.ts],
    [utils/text-cleaner.util.ts]) and the properties of its specification.

    Layout: the first part holds the definitions, module by module, in the
    order of the source; the second part holds the lemmas and theorems. *)

From Stdlib Require Import List NArith ZArith QArith Lia Bool String Ascii.
From Stdlib Require Import SpecFloat.
Import ListNotations.

Local Open Scope nat_scope.
Local Open Scope list_scope.

(* ================================================================== *)
(** * Part I: definitions *)
(* ================================================================== *)

(** ** JavaScript strings

    A JavaScript string is a sequence of UTF-16 code units; [length],
    [slice], [trim], [split] and the regular expressions of the source all
    work on code units.  A code unit is a number. *)

Module Js.

Definition char := N.
Definition jsstring := list char.

(** A literal of the source, written as a Rocq string (one code unit per
    character: the literals of the source are ASCII). *)
Definition str (s : string) : jsstring :=
  List.map N_of_ascii (list_ascii_of_string s).

(** [a === b] on strings. *)
Fixpoint eqb (a b : jsstring) : bool :=
  match a, b with
  | [], [] => true
  | x :: a', y :: b' => N.eqb x y && eqb a' b'
  | _, _ => false
  end.

(** [s.length], as a JavaScript number. *)
Definition len (s : jsstring) : Z := Z.of_nat (List.length s).

Definition NL : char := 10%N.
Definition SP : char := 32%N.

(** ECMAScript [LineTerminator]: what [.] of a regular expression refuses. *)
Definition isLineTerminator (c : char) : bool :=
  (N.eqb c 10 || N.eqb c 13 || N.eqb c 8232 || N.eqb c 8233)%N.

(** ECMAScript [WhiteSpace] or [LineTerminator]: the class [\s] of a regular
    expression, and what [String.prototype.trim] strips. *)
Definition isSpace (c : char) : bool :=
  ((N.leb 9 c && N.leb c 13) || N.eqb c 32 || N.eqb c 160 || N.eqb c 5760
   || (N.leb 8192 c && N.leb c 8202) || N.eqb c 8232 || N.eqb c 8233
   || N.eqb c 8239 || N.eqb c 8287 || N.eqb c 12288 || N.eqb c 65279)%N.

(** The class [[.!?]]. *)
Definition isTerminator (c : char) : bool :=
  (N.eqb c 46 || N.eqb c 33 || N.eqb c 63)%N.

Fixpoint dropWhile (p : char -> bool) (s : jsstring) : jsstring :=
  match s with
  | [] => []
  | c :: r => if p c then dropWhile p r else s
  end.

Definition trimStart (s : jsstring) : jsstring := dropWhile isSpace s.
Definition trimEnd (s : jsstring) : jsstring :=
  rev (dropWhile isSpace (rev s)).
(** [s.trim()] *)
Definition trim (s : jsstring) : jsstring := trimStart (trimEnd s).

(** [s.slice(start)] with one argument: a negative [start] counts from the
    end, and both ends are clamped to the string. *)
Definition slice_from (start : Z) (s : jsstring) : jsstring :=
  let n := len s in
  let from := if (start <? 0)%Z then Z.max (n + start) 0 else Z.min start n in
  skipn (Z.to_nat from) s.

(** *** Numbers

    A JavaScript number is a binary64 floating point number. [SpecFloat] of
    the Standard Library gives the numbers ([spec_float]: the zeros, the
    infinities, NaN and the finite numbers [m * 2^e]) and their arithmetic,
    rounded to the nearest number, to the even one at a tie. *)
Definition binary64 := spec_float.

(** The number that an integer is: the integer itself when binary64 holds
    it, as it does every integer up to [2^53] in size. *)
Definition of_int (z : Z) : binary64 := binary_normalize 53 1024 z 0 false.

(** [a * b] *)
Definition times (a b : binary64) : binary64 := SFmul 53 1024 a b.

(** The number that the literal of a decimal fraction [n / d] denotes, such
    as [0.1], which is [1 / 10]: the number nearest to the quotient. *)
Definition fraction (n d : Z) : binary64 :=
  SFdiv 53 1024 (of_int n) (of_int d).

(** What [Math.floor] returns: an integer, an infinity or NaN. Minus zero
    is read as zero: [<=], [>] and [slice] do not tell them apart. *)
Inductive number := Int (z : Z) | Infinity | NegInfinity | NaN.

Coercion Int : Z >-> number.
Bind Scope Z_scope with number.

(** [Math.floor(x)] *)
Definition Math_floor (x : binary64) : number :=
  match x with
  | S754_zero _ => Int 0
  | S754_infinity false => Infinity
  | S754_infinity true => NegInfinity
  | S754_nan => NaN
  | S754_finite s m e =>
      let z := if s then Z.neg m else Z.pos m in
      match e with
      | Zneg k => Int (z / 2 ^ Z.pos k)
      | _ => Int (z * 2 ^ e)
      end
  end.

(** [n <= x] and [n > x] for an integer [n]: both are false when [x] is
    NaN. *)
Definition le_number (n : Z) (x : number) : bool :=
  match x with
  | Int z => (n <=? z)%Z
  | Infinity => true
  | NegInfinity | NaN => false
  end.

Definition gt_number (n : Z) (x : number) : bool :=
  match x with
  | Int z => (n >? z)%Z
  | NegInfinity => true
  | Infinity | NaN => false
  end.

(** [-x] *)
Definition negate (x : number) : number :=
  match x with
  | Int z => Int (- z)
  | Infinity => NegInfinity
  | NegInfinity => Infinity
  | NaN => NaN
  end.

(** [s.slice(start)] for any number: [slice] reads NaN as zero, and clamps
    an infinity as it clamps an integer. *)
Definition slice (start : number) (s : jsstring) : jsstring :=
  match start with
  | Int z => slice_from z s
  | Infinity => []
  | NegInfinity | NaN => s
  end.

(** Truthiness of a string: the empty string is falsy. *)
Definition truthy (s : jsstring) : bool :=
  match s with [] => false | _ => true end.

(** [a || b] on strings. *)
Definition or_else (a b : jsstring) : jsstring :=
  if truthy a then a else b.

(** [x || null] on an optional string ([undefined] and [''] give [null]). *)
Definition or_null (x : option jsstring) : option jsstring :=
  match x with
  | Some s => if truthy s then Some s else None
  | None => None
  end.

Definition starts_with_space (s : jsstring) : bool :=
  match s with c :: _ => isSpace c | [] => false end.

(** [s.split(/\s+/)]: the fields between the maximal runs of white space.
    A run at either end leaves an empty field there, and the empty string
    has the one empty field. *)
Fixpoint split_ws (s : jsstring) : list jsstring :=
  match s with
  | [] => [[]]
  | c :: r =>
      if isSpace c then
        if starts_with_space r then split_ws r else [] :: split_ws r
      else
        match split_ws r with
        | f :: fs => (c :: f) :: fs
        | [] => [[c]]
        end
  end.

(** The words of a string: the fields of [split_ws] that are not empty. *)
Definition words (s : jsstring) : list jsstring :=
  filter truthy (split_ws s).

(** A string of white space only (the empty string is one). *)
Definition all_space (s : jsstring) : bool := forallb isSpace s.

(** A string that starts, or ends, with a code unit that is no white
    space. *)
Definition starts_nonspace (s : jsstring) : bool :=
  match s with c :: _ => negb (isSpace c) | [] => false end.

Definition ends_nonspace (s : jsstring) : bool := starts_nonspace (rev s).


(** [ps.join(sep)] *)
Fixpoint join (sep : jsstring) (ps : list jsstring) : jsstring :=
  match ps with
  | [] => []
  | [p] => p
  | p :: rest => p ++ sep ++ join sep rest
  end.

(** Decimal digits of a number, as [String(n)] and a template literal
    print a non-negative integer below [10^21]. *)
Definition digit (d : N) : char := (48 + d)%N.

Fixpoint decimal_fuel (fuel : nat) (n : N) (acc : jsstring) : jsstring :=
  match fuel with
  | O => acc
  | S f =>
      let acc' := digit (n mod 10) :: acc in
      if (n <? 10)%N then acc' else decimal_fuel f (n / 10)%N acc'
  end.

Definition decimal (n : N) : jsstring :=
  decimal_fuel (S (N.to_nat (N.log2 n))) n [].

End Js.

(** ** utils/text-cleaner.util.ts *)

Module TextCleaner.
Import Js.

(** [text.replace(/\n{3,}/g, '\n\n')], as the scanner runs: at a line feed
    followed by two more the pattern matches, the replacement is written and
    the greedy quantifier takes the rest of the run ([inmatch]); anywhere
    else the code unit is copied. *)
Fixpoint replace_nl3 (inmatch : bool) (s : jsstring) : jsstring :=
  match s with
  | [] => []
  | c :: r =>
      if N.eqb c NL then
        if inmatch then replace_nl3 true r
        else
          match r with
          | c2 :: c3 :: _ =>
              if N.eqb c2 NL && N.eqb c3 NL
              then NL :: NL :: replace_nl3 true r
              else c :: replace_nl3 false r
          | _ => c :: replace_nl3 false r
          end
      else c :: replace_nl3 false r
  end.

(** [cleanTextLineBreaks]: the guard [if (!text) return text] returns the
    empty string as it is. *)
Definition cleanTextLineBreaks (text : jsstring) : jsstring :=
  if negb (truthy text) then text else replace_nl3 false text.

(** The number of line feeds a string starts with. *)
Fixpoint nl_run (s : jsstring) : nat :=
  match s with
  | c :: r => if N.eqb c NL then S (nl_run r) else O
  | [] => O
  end.



(** No three consecutive line feeds. *)
Fixpoint no_triple_nl (s : jsstring) : bool :=
  match s with
  | c1 :: ((c2 :: c3 :: _) as r) =>
      negb (N.eqb c1 NL && N.eqb c2 NL && N.eqb c3 NL) && no_triple_nl r
  | _ => true
  end.

End TextCleaner.

(** ** documents.service.ts: the fallback chunker *)

Module Chunker.
Import Js.

(** *** Regular expressions of the chunker *)

(** For [/\n\s*\n/] at a line feed: [last_nl r] is how many code units
    after that line feed the match takes, [r] being what follows it. The
    greedy [\s*] takes the whole run of white space and gives back up to the
    last line feed of the run; with no line feed in the run there is no
    match. *)
Fixpoint last_nl (r : jsstring) : option nat :=
  match r with
  | [] => None
  | c :: r' =>
      if isSpace c then
        match last_nl r' with
        | Some k => Some (S k)
        | None => if N.eqb c NL then Some 1 else None
        end
      else None
  end.

(** [text.split(/\n\s*\n/)]: [skip] counts the code units of the current
    separator still to pass, [cur] is the current piece, reversed. *)
Fixpoint split_para_go (skip : nat) (cur : jsstring) (s : jsstring)
  : list jsstring :=
  match s with
  | [] => [rev cur]
  | c :: r =>
      match skip with
      | S k => split_para_go k cur r
      | O =>
          if N.eqb c NL then
            match last_nl r with
            | Some k => rev cur :: split_para_go k [] r
            | None => split_para_go O (c :: cur) r
            end
          else split_para_go O (c :: cur) r
      end
  end.

Definition split_para (text : jsstring) : list jsstring :=
  split_para_go O [] text.

(** [text.match(/[^.!?]+[.!?]+/g)]: the matches from left to right. A match
    is a maximal run of other code units followed by a maximal run of
    terminators; terminators before the first run are passed over, and a run
    that reaches the end of the text with no terminator is no match. *)
Inductive phase := Skip | Body | Term.

Fixpoint match_sentences_go (ph : phase) (acc : jsstring) (s : jsstring)
  : list jsstring :=
  match s with
  | [] => match ph with Term => [rev acc] | _ => [] end
  | c :: r =>
      match ph with
      | Skip =>
          if isTerminator c then match_sentences_go Skip [] r
          else match_sentences_go Body [c] r
      | Body =>
          if isTerminator c then match_sentences_go Term (c :: acc) r
          else match_sentences_go Body (c :: acc) r
      | Term =>
          if isTerminator c then match_sentences_go Term (c :: acc) r
          else rev acc :: match_sentences_go Body [c] r
      end
  end.

(** [text.match(...) || [text]]: [match] gives [null] when nothing matches. *)
Definition sentences_of (text : jsstring) : list jsstring :=
  match match_sentences_go Skip [] text with
  | [] => [text]
  | ms => ms
  end.

(** [(.+)$] on [s]: the whole of [s], when it is not empty and holds no line
    terminator. *)
Definition dot_plus_to_end (s : jsstring) : bool :=
  truthy s && forallb (fun c => negb (isLineTerminator c)) s.

(** [\s+(.+)$] on [r] with [\s+] taking [k] code units, [k] counting down
    from the length of the run of white space (greedy, then backtracking). *)
Fixpoint group_after (k : nat) (r : jsstring) : option jsstring :=
  match k with
  | O => None
  | S k' =>
      let g := skipn k r in
      if dot_plus_to_end g then Some g else group_after k' r
  end.

Fixpoint space_run (r : jsstring) : nat :=
  match r with
  | c :: r' => if isSpace c then S (space_run r') else O
  | [] => O
  end.

(** [s.match(/[.!?]\s+(.+)$/)]: group 1 of the leftmost match. *)
Fixpoint sentence_match (s : jsstring) : option jsstring :=
  match s with
  | [] => None
  | c :: r =>
      if isTerminator c then
        match group_after (space_run r) r with
        | Some g => Some g
        | None => sentence_match r
        end
      else sentence_match r
  end.

(** *** getLastWords *)

(** The loop over the words from the last to the first; [ws] is the list of
    words reversed. *)
Fixpoint collect_words (ws : list jsstring) (result : jsstring)
  (maxLength : number) : jsstring :=
  match ws with
  | [] => result
  | w :: rest =>
      let newResult := w ++ SP :: result in
      if gt_number (len newResult) maxLength then result
      else collect_words rest newResult maxLength
  end.

Definition getLastWords (text : jsstring) (maxLength : number) : jsstring :=
  if le_number (len text) maxLength then text
  else
    let lastPart := slice (negate maxLength) text in
    match sentence_match lastPart with
    | Some g => g ++ [SP]
    | None =>
        let words := split_ws text in
        trim (collect_words (rev words) [] maxLength) ++ [SP]
    end.

(** *** sentenceBasedChunking *)

(** The state of both loops: the chunks pushed so far (in order), the
    buffer [currentChunk] and the overlap [previousContext]. *)
Record loop_state := mkLoop {
  chunks : list jsstring;
  currentChunk : jsstring;
  previousContext : jsstring
}.

Definition sentence_step (chunkSize : Z) (overlapSize : number)
  (st : loop_state)
  (sentence : jsstring) : loop_state :=
  let trimmedSentence := trim sentence in
  if (len (currentChunk st ++ trimmedSentence) >? chunkSize)%Z
     && truthy (currentChunk st)
  then
    mkLoop (chunks st ++ [trim (previousContext st ++ currentChunk st)])
           (trimmedSentence ++ [SP])
           (getLastWords (currentChunk st) overlapSize)
  else
    mkLoop (chunks st) (currentChunk st ++ trimmedSentence ++ [SP])
           (previousContext st).

Definition sentenceBasedChunking (text : jsstring) (chunkSize : Z)
  (overlapSize : number) : list jsstring :=
  let st := fold_left (sentence_step chunkSize overlapSize)
                      (sentences_of text) (mkLoop [] [] []) in
  if truthy (trim (currentChunk st))
  then chunks st ++ [trim (previousContext st ++ currentChunk st)]
  else chunks st.

(** *** semanticChunking *)

Definition paragraphs_of (text : jsstring) : list jsstring :=
  filter (fun p => (len p >? 0)%Z) (List.map trim (split_para text)).

(** One turn of the loop over the paragraphs; [last] is the test
    [i === paragraphs.length - 1]. *)
Definition paragraph_step (chunkSize : Z) (overlapSize : number)
  (st : loop_state) (paragraph : jsstring) (last : bool) : loop_state :=
  let st1 :=
    if (len (currentChunk st ++ paragraph) >? chunkSize)%Z
       && (len (currentChunk st) >? 0)%Z
    then
      mkLoop (chunks st ++ [trim (previousContext st ++ currentChunk st)])
             (paragraph ++ [NL; NL])
             (getLastWords (currentChunk st) overlapSize)
    else
      mkLoop (chunks st) (currentChunk st ++ paragraph ++ [NL; NL])
             (previousContext st) in
  if last && (len (trim (currentChunk st1)) >? 0)%Z
  then mkLoop (chunks st1 ++ [trim (previousContext st1 ++ currentChunk st1)])
              (currentChunk st1) (previousContext st1)
  else st1.

Fixpoint paragraph_loop (chunkSize : Z) (overlapSize : number)
  (st : loop_state) (paragraphs : list jsstring) : loop_state :=
  match paragraphs with
  | [] => st
  | p :: rest =>
      paragraph_loop chunkSize overlapSize
        (paragraph_step chunkSize overlapSize st p
           (match rest with [] => true | _ => false end))
        rest
  end.

(** [Math.floor(chunkSize * overlapRatio)]: the product of two numbers,
    rounded as binary64 rounds it, and its floor. [chunkSize] is an
    integer, as at the one call of the source. *)
Definition overlap_size (chunkSize : Z) (overlapRatio : binary64) : number :=
  Math_floor (times (of_int chunkSize) overlapRatio).

Definition semanticChunking (text : jsstring) (chunkSize : Z)
  (overlapRatio : binary64) : list jsstring :=
  let overlapSize := overlap_size chunkSize overlapRatio in
  let st := paragraph_loop chunkSize overlapSize (mkLoop [] [] [])
                           (paragraphs_of text) in
  if (Z.of_nat (List.length (chunks st)) =? 0)%Z && (len text >? 0)%Z
  then sentenceBasedChunking text chunkSize overlapSize
  else chunks st.

(** *** The loop with its pushes recorded

    The same loop, keeping for each chunk pushed the overlap and the buffer
    it is made of: the chunk is [trim (overlap ++ buffer)]. *)

Record push := mkPush { push_context : jsstring; push_buffer : jsstring }.

Definition emitted (p : push) : jsstring :=
  trim (push_context p ++ push_buffer p).

Record traced_state := mkTraced {
  pushes : list push;
  t_currentChunk : jsstring;
  t_previousContext : jsstring
}.

Definition paragraph_step_traced (chunkSize : Z) (overlapSize : number)
  (st : traced_state) (paragraph : jsstring) (last : bool) : traced_state :=
  let st1 :=
    if (len (t_currentChunk st ++ paragraph) >? chunkSize)%Z
       && (len (t_currentChunk st) >? 0)%Z
    then
      mkTraced
        (pushes st ++ [mkPush (t_previousContext st) (t_currentChunk st)])
        (paragraph ++ [NL; NL])
        (getLastWords (t_currentChunk st) overlapSize)
    else
      mkTraced (pushes st) (t_currentChunk st ++ paragraph ++ [NL; NL])
               (t_previousContext st) in
  if last && (len (trim (t_currentChunk st1)) >? 0)%Z
  then mkTraced
         (pushes st1 ++ [mkPush (t_previousContext st1) (t_currentChunk st1)])
         (t_currentChunk st1) (t_previousContext st1)
  else st1.

Fixpoint paragraph_loop_traced (chunkSize : Z) (overlapSize : number)
  (st : traced_state) (paragraphs : list jsstring) : traced_state :=
  match paragraphs with
  | [] => st
  | p :: rest =>
      paragraph_loop_traced chunkSize overlapSize
        (paragraph_step_traced chunkSize overlapSize st p
           (match rest with [] => true | _ => false end))
        rest
  end.

Definition semantic_pushes (text : jsstring) (chunkSize : Z)
  (overlapRatio : binary64) : list push :=
  pushes (paragraph_loop_traced chunkSize
            (overlap_size chunkSize overlapRatio)
            (mkTraced [] [] []) (paragraphs_of text)).

(** The state of the source loop that a traced state stands for. *)
Definition erase (st : traced_state) : loop_state :=
  mkLoop (List.map emitted (pushes st)) (t_currentChunk st)
         (t_previousContext st).

(** The words of a list, each followed by a space: what the loop of
    [getLastWords] builds. *)
Definition sp_concat (ws : list jsstring) : jsstring :=
  List.concat (List.map (fun w => w ++ [SP]) ws).

(** A buffer of the paragraph loop: it starts with a code unit of a
    paragraph and ends with the separator written after a paragraph. *)
Definition good_buffer (b : jsstring) : Prop :=
  starts_nonspace b = true /\ exists b', b = b' ++ [NL].

(** A list of pushes in which the first overlap is [c0], each later overlap
    is [getLastWords] of the buffer pushed before it, and [c1] is the
    overlap after the last push. *)
Fixpoint chained (overlapSize : number) (c0 : jsstring) (l : list push)
  (c1 : jsstring) : Prop :=
  match l with
  | [] => c0 = c1
  | pu :: rest =>
      push_context pu = c0 /\ good_buffer (push_buffer pu)
      /\ chained overlapSize (getLastWords (push_buffer pu) overlapSize)
                  rest c1
  end.

(** The invariant of the recorded loop before a turn. *)
Definition loop_inv (overlapSize : number) (st : traced_state) : Prop :=
  chained overlapSize [] (pushes st) (t_previousContext st)
  /\ (t_currentChunk st = [] \/ good_buffer (t_currentChunk st)).

(** The size of a list of pieces, counting two code units of separator
    for each. *)
Definition total (ps : list jsstring) : nat :=
  list_sum (List.map (fun p => List.length p + 2) ps).

(** The paragraphs, each followed by the separator the loop writes. *)
Definition buffer_of (ps : list jsstring) : jsstring :=
  List.concat (List.map (fun p => p ++ [NL; NL]) ps).

(** [b] is the end of [a]. *)
Definition is_suffix {A : Type} (b a : list A) : Prop :=
  exists pre, a = pre ++ b.



(** *** Texts of the examples *)

(** [a\n \nb]: two paragraphs with a blank line of one space between. *)
Definition two_paragraphs : jsstring := str "a" ++ [NL; SP; NL] ++ str "b".

(** [y], a paragraph of ten code units and [z], for a target size of 10 and
    a ratio of [0.3]. *)
Definition ten_in_the_middle : jsstring :=
  str "y" ++ [NL; NL] ++ str "abcdefghij" ++ [NL; NL] ++ str "z".

End Chunker.

(** ** JSON: [JSON.stringify] and [JSON.parse] *)

Module Json.
Import Js.

(** A JSON value. A number is [mantissa * 10 ^ exponent], exact; the source
    holds the nearest binary64 number, which is the same number for the
    integers below 2^53. An object keeps its members in the order they were
    first written; JavaScript puts the keys that are array indexes first,
    and the metadata have none. *)
#[warnings="-register-all"]
Inductive value :=
| JNull
| JBool (b : bool)
| JNumber (mantissa exponent : Z)
| JString (s : jsstring)
| JArray (elems : list value)
| JObject (members : list (jsstring * value)).

(** [obj[k] = v]: a member that is there keeps its place. *)
Fixpoint obj_set (members : list (jsstring * value)) (k : jsstring)
  (v : value) : list (jsstring * value) :=
  match members with
  | [] => [(k, v)]
  | (k', v') :: rest =>
      if eqb k' k then (k', v) :: rest else (k', v') :: obj_set rest k v
  end.

(** [obj[k]] *)
Fixpoint obj_get (members : list (jsstring * value)) (k : jsstring)
  : option value :=
  match members with
  | [] => None
  | (k', v') :: rest => if eqb k' k then Some v' else obj_get rest k
  end.

Definition get (v : value) (k : jsstring) : option value :=
  match v with JObject ms => obj_get ms k | _ => None end.

(** *** Writing *)

Definition QUOTE : char := 34%N.
Definition BACKSLASH : char := 92%N.
Definition COMMA : char := 44%N.
Definition COLON : char := 58%N.
Definition LBRACE : char := 123%N.
Definition RBRACE : char := 125%N.
Definition LBRACKET : char := 91%N.
Definition RBRACKET : char := 93%N.

(** A hexadecimal digit, in lower case. *)
Definition hexdigit (d : N) : char :=
  (if d <? 10 then 48 + d else 87 + d)%N.

Definition hex4 (c : N) : jsstring :=
  [hexdigit ((c / 4096) mod 16); hexdigit ((c / 256) mod 16);
   hexdigit ((c / 16) mod 16); hexdigit (c mod 16)]%N.

(** [\uXXXX] *)
Definition escape_u (c : char) : jsstring :=
  BACKSLASH :: 117%N :: hex4 c.

(** The two halves of a surrogate pair. *)
Definition is_high (c : char) : bool := (N.leb 55296 c && N.leb c 56319)%N.
Definition is_low (c : char) : bool := (N.leb 56320 c && N.leb c 57343)%N.

(** [QuoteJSONString] on one code unit that is no surrogate. *)
Definition quote_unit (c : char) : jsstring :=
  if N.eqb c 8 then [BACKSLASH; 98%N]
  else if N.eqb c 9 then [BACKSLASH; 116%N]
  else if N.eqb c 10 then [BACKSLASH; 110%N]
  else if N.eqb c 12 then [BACKSLASH; 102%N]
  else if N.eqb c 13 then [BACKSLASH; 114%N]
  else if N.eqb c 34 then [BACKSLASH; QUOTE]
  else if N.eqb c 92 then [BACKSLASH; BACKSLASH]
  else if N.ltb c 32 then escape_u c
  else [c].

(** [QuoteJSONString] between the quotes: a surrogate pair is copied, a lone
    surrogate is written [\uXXXX]. *)
Fixpoint quote_body (s : jsstring) : jsstring :=
  match s with
  | [] => []
  | c :: r =>
      if is_high c then
        match r with
        | d :: r' =>
            if is_low d then c :: d :: quote_body r'
            else escape_u c ++ quote_body r
        | [] => escape_u c
        end
      else if is_low c then escape_u c ++ quote_body r
      else quote_unit c ++ quote_body r
  end.

Definition quote (s : jsstring) : jsstring :=
  QUOTE :: quote_body s ++ [QUOTE].

(** *** Reading *)

Definition is_json_ws (c : char) : bool :=
  (N.eqb c 32 || N.eqb c 9 || N.eqb c 10 || N.eqb c 13)%N.

Definition skip_ws (s : jsstring) : jsstring := dropWhile is_json_ws s.

Definition unhex (c : char) : option N :=
  (if N.leb 48 c && N.leb c 57 then Some (c - 48)
   else if N.leb 97 c && N.leb c 102 then Some (c - 87)
   else if N.leb 65 c && N.leb c 70 then Some (c - 55)
   else None)%N.

(** The code unit of a one-letter escape. *)
Definition unescape (e : char) : option char :=
  if N.eqb e 34 then Some 34%N
  else if N.eqb e 92 then Some 92%N
  else if N.eqb e 47 then Some 47%N
  else if N.eqb e 98 then Some 8%N
  else if N.eqb e 102 then Some 12%N
  else if N.eqb e 110 then Some 10%N
  else if N.eqb e 114 then Some 13%N
  else if N.eqb e 116 then Some 9%N
  else None.

Definition cons_result (c : char) (r : option (jsstring * jsstring))
  : option (jsstring * jsstring) :=
  match r with
  | Some (s, rest) => Some (c :: s, rest)
  | None => None
  end.

(** A string after its opening quote: the string and what follows the
    closing quote. *)
Fixpoint parse_string_body (s : jsstring) : option (jsstring * jsstring) :=
  match s with
  | [] => None
  | c :: r =>
      if N.eqb c QUOTE then Some ([], r)
      else if N.eqb c BACKSLASH then
        match r with
        | [] => None
        | e :: r2 =>
            if N.eqb e 117 then
              match r2 with
              | h1 :: h2 :: h3 :: h4 :: r3 =>
                  match unhex h1, unhex h2, unhex h3, unhex h4 with
                  | Some a, Some b, Some c', Some d =>
                      cons_result (((a * 16 + b) * 16 + c') * 16 + d)%N
                                  (parse_string_body r3)
                  | _, _, _, _ => None
                  end
              | _ => None
              end
            else
              match unescape e with
              | Some x => cons_result x (parse_string_body r2)
              | None => None
              end
        end
      else if N.ltb c 32 then None
      else cons_result c (parse_string_body r)
  end.

Definition is_digit (c : char) : bool := (N.leb 48 c && N.leb c 57)%N.

Fixpoint span_digits (s : jsstring) : jsstring * jsstring :=
  match s with
  | c :: r =>
      if is_digit c then
        let (ds, rest) := span_digits r in (c :: ds, rest)
      else ([], s)
  | [] => ([], [])
  end.

Definition digits_value (ds : jsstring) : N :=
  fold_left (fun a c => (10 * a + (c - 48))%N) ds 0%N.

(** A number: [-? int frac? exp?], with no zero in front of another digit. *)
Definition parse_number (s : jsstring) : option (value * jsstring) :=
  let (neg, s1) :=
    match s with
    | c :: r => if N.eqb c 45 then (true, r) else (false, s)
    | [] => (false, s)
    end in
  let (ip, s2) := span_digits s1 in
  match ip with
  | [] => None
  | d :: more =>
      if N.eqb d 48 && truthy more then None
      else
        let frac :=
          match s2 with
          | c :: r =>
              if N.eqb c 46 then
                let (fd, s3) := span_digits r in
                if truthy fd then Some (fd, s3) else None
              else Some ([], s2)
          | [] => Some ([], s2)
          end in
        match frac with
        | None => None
        | Some (fd, s3) =>
            let ex :=
              match s3 with
              | c :: r =>
                  if N.eqb c 101 || N.eqb c 69 then
                    let (eneg, r1) :=
                      match r with
                      | x :: r' =>
                          if N.eqb x 45 then (true, r')
                          else if N.eqb x 43 then (false, r')
                          else (false, r)
                      | [] => (false, r)
                      end in
                    let (ed, s4) := span_digits r1 in
                    if truthy ed then
                      Some (if eneg then (- Z.of_N (digits_value ed))%Z
                            else Z.of_N (digits_value ed), s4)
                    else None
                  else Some (0%Z, s3)
              | [] => Some (0%Z, s3)
              end in
            match ex with
            | None => None
            | Some (e, s4) =>
                let m := Z.of_N (digits_value (ip ++ fd)) in
                Some (JNumber (if neg then (- m)%Z else m)
                              (e - Z.of_nat (List.length fd))%Z, s4)
            end
        end
  end.

(** [s] starts with the literal [lit]: what follows it. *)
Fixpoint strip_prefix (lit s : jsstring) : option jsstring :=
  match lit, s with
  | [], _ => Some s
  | x :: lit', y :: s' => if N.eqb x y then strip_prefix lit' s' else None
  | _ :: _, [] => None
  end.

(** A value, the members of an object after its brace and the elements of
    an array after its bracket. Every call takes a code unit or more of the
    text before it calls again, so the length of the text, and one more, is
    fuel enough. *)
Fixpoint parse_value (fuel : nat) (s : jsstring)
  : option (value * jsstring) :=
  match fuel with
  | O => None
  | S f =>
      match skip_ws s with
      | [] => None
      | c :: r =>
          if N.eqb c LBRACE then
            match skip_ws r with
            | c2 :: r2 =>
                if N.eqb c2 RBRACE then Some (JObject [], r2)
                else parse_members f r []
            | [] => None
            end
          else if N.eqb c LBRACKET then
            match skip_ws r with
            | c2 :: r2 =>
                if N.eqb c2 RBRACKET then Some (JArray [], r2)
                else parse_elements f r []
            | [] => None
            end
          else if N.eqb c QUOTE then
            match parse_string_body r with
            | Some (str, rest) => Some (JString str, rest)
            | None => None
            end
          else if N.eqb c 116 then
            match strip_prefix (str "rue") r with
            | Some rest => Some (JBool true, rest)
            | None => None
            end
          else if N.eqb c 102 then
            match strip_prefix (str "alse") r with
            | Some rest => Some (JBool false, rest)
            | None => None
            end
          else if N.eqb c 110 then
            match strip_prefix (str "ull") r with
            | Some rest => Some (JNull, rest)
            | None => None
            end
          else parse_number (c :: r)
      end
  end

with parse_members (fuel : nat) (s : jsstring)
  (acc : list (jsstring * value)) : option (value * jsstring) :=
  match fuel with
  | O => None
  | S f =>
      match skip_ws s with
      | c :: r =>
          if N.eqb c QUOTE then
            match parse_string_body r with
            | Some (k, r1) =>
                match skip_ws r1 with
                | c1 :: r2 =>
                    if N.eqb c1 COLON then
                      match parse_value f r2 with
                      | Some (v, r3) =>
                          match skip_ws r3 with
                          | c3 :: r4 =>
                              if N.eqb c3 COMMA
                              then parse_members f r4 (obj_set acc k v)
                              else if N.eqb c3 RBRACE
                              then Some (JObject (obj_set acc k v), r4)
                              else None
                          | [] => None
                          end
                      | None => None
                      end
                    else None
                | [] => None
                end
            | None => None
            end
          else None
      | [] => None
      end
  end

with parse_elements (fuel : nat) (s : jsstring) (acc : list value)
  : option (value * jsstring) :=
  match fuel with
  | O => None
  | S f =>
      match parse_value f s with
      | Some (v, r1) =>
          match skip_ws r1 with
          | c :: r2 =>
              if N.eqb c COMMA then parse_elements f r2 (acc ++ [v])
              else if N.eqb c RBRACKET then Some (JArray (acc ++ [v]), r2)
              else None
          | [] => None
          end
      | None => None
      end
  end.

(** [JSON.parse(text)]: [None] stands for the [SyntaxError] it throws. *)
Definition JSON_parse (text : jsstring) : option value :=
  match parse_value (S (List.length text)) text with
  | Some (v, rest) =>
      match skip_ws rest with
      | [] => Some v
      | _ => None
      end
  | None => None
  end.

(** *** The metadata of a chunk *)

(** The object that [processDocument] builds for each chunk. *)
Record Metadata := mkMetadata {
  documentId : jsstring;
  userId : jsstring;
  fileName : jsstring;
  fileType : jsstring;
  chunkIndex : N;
  totalChunks : N;
  createdAt : jsstring
}.

(** [JSON.stringify(metadata)]: the members in the order of the object
    literal, with no white space. *)
Definition stringify_metadata (m : Metadata) : jsstring :=
  LBRACE ::
  quote (str "documentId") ++ COLON :: quote (documentId m) ++ COMMA ::
  quote (str "userId") ++ COLON :: quote (userId m) ++ COMMA ::
  quote (str "fileName") ++ COLON :: quote (fileName m) ++ COMMA ::
  quote (str "fileType") ++ COLON :: quote (fileType m) ++ COMMA ::
  quote (str "chunkIndex") ++ COLON :: decimal (chunkIndex m) ++ COMMA ::
  quote (str "totalChunks") ++ COLON :: decimal (totalChunks m) ++ COMMA ::
  quote (str "createdAt") ++ COLON :: quote (createdAt m) ++ [RBRACE].

(** The same object as a JSON value. *)
Definition metadata_value (m : Metadata) : value :=
  JObject
    [(str "documentId", JString (documentId m));
     (str "userId", JString (userId m));
     (str "fileName", JString (fileName m));
     (str "fileType", JString (fileType m));
     (str "chunkIndex", JNumber (Z.of_N (chunkIndex m)) 0);
     (str "totalChunks", JNumber (Z.of_N (totalChunks m)) 0);
     (str "createdAt", JString (createdAt m))].

End Json.

(** ** Entities, errors and the world of the services *)

Module Model.
Import Js Json.

(** *** entities/document.entity.ts, entities/chunk.entity.ts

    The columns of the tables; the timestamps [createdAt] and [updatedAt],
    which the data base writes by itself, are left out. *)

Inductive Status := uploading | processing | ready | error.

Record User := mkUser {
  user_id : jsstring;
  email : jsstring;
  name : jsstring
}.

Record Document := mkDocument {
  id : jsstring;
  doc_name : jsstring;
  type : jsstring;
  size : N;
  path : jsstring;
  textFilePath : option jsstring;
  assistantFileId : option jsstring;
  fileHash : option jsstring;
  status : Status;
  errorMessage : option jsstring;
  doc_userId : jsstring;
  categoryId : option jsstring
}.

Record Chunk := mkChunk {
  chunk_id : jsstring;
  chunk_documentId : jsstring;
  content : jsstring;
  chunk_chunkIndex : N;
  pineconeId : jsstring
}.

(** A document without its [user] relation and with [uploadedBy] in its
    place: what [uploadDocument] returns and what the conflict carries. *)
Record DocumentView := mkView {
  view_document : Document;
  uploadedBy_email : option jsstring;
  uploadedBy_name : option jsstring
}.

(** *** Errors *)

Inductive exn :=
| Error (message : jsstring)
| NotFoundException (message : jsstring)
| ConflictException (message : jsstring) (existingDocument : DocumentView).

(** [error.message] *)
Definition message_of (e : exn) : jsstring :=
  match e with
  | Error m => m
  | NotFoundException m => m
  | ConflictException m _ => m
  end.

Inductive result (A : Type) :=
| Ok (a : A)
| Throw (e : exn).
Arguments Ok {A} a.
Arguments Throw {A} e.

(** *** The remote side *)

(** A configured index: a name and the address of its host. *)
Record Index := mkIndex { index_name : jsstring; index_url : jsstring }.

(** A record sent to [upsertRecords]. *)
Record VectorRecord := mkRecord {
  record_id : jsstring;
  record_text : jsstring;
  record_category : jsstring
}.

(** The fields of a hit of [searchRecords], and of a hit that
    [queryVectors] returns. *)
Record HitFields := mkFields {
  category : option jsstring;
  text : option jsstring;
  metadata : option value
}.

Record Hit := mkHit { hit_id : jsstring; hit_score : Q; fields : HitFields }.

(** The calls made to the collaborators, in the order they are made. *)
Inductive Call :=
| ParseFile (path type : jsstring)
| AssistantUpload (textFilePath : jsstring)
| AssistantDelete (fileId : jsstring)
| GeminiChunking (text : jsstring) (chunkSize : Z)
| UpsertRecords (index : Index) (records : list VectorRecord)
| DeleteMany (index : Index) (ids : list jsstring)
| DeleteOne (index : Index) (id : jsstring)
| SearchRecords (index : Index) (text : jsstring)
| SearchRecordsByName (name : option jsstring) (text : jsstring).

(** *** Configuration and collaborators

    The environment variables read through [ConfigService], the library
    functions and the answers of the collaborators, which the code takes as
    they come. [decodeFilename] stands for [utils/filename-decoder.util.ts],
    which only shapes the display name. [searchRecords_by_name] is the
    search on [pc.index(name, undefined)], an index given by a name that
    may be [undefined] and no address: the client looks the address up. *)
Record Env := mkEnv {
  UPLOAD_PATH : option jsstring;
  PINECONE_INDEX_NAME : option jsstring;
  PINECONE_INDEX_URL : option jsstring;
  PINECONE_INDEX_NAME_AIR : option jsstring;
  PINECONE_INDEX_URL_AIR : option jsstring;
  sha256_hex : list N -> jsstring;
  path_join : jsstring -> jsstring -> jsstring;
  decodeFilename : jsstring -> jsstring;
  Date_now : N;
  toISOString : N -> jsstring;
  uuid : nat -> jsstring;
  parseFile : jsstring -> jsstring -> result jsstring;
  assistant_uploadFile : jsstring -> result jsstring;
  assistant_deleteFile : jsstring -> result unit;
  gemini_semanticChunking : jsstring -> Z -> result (list jsstring);
  upsertRecords : Index -> list VectorRecord -> result unit;
  deleteMany : Index -> list jsstring -> result unit;
  deleteOne : Index -> jsstring -> result unit;
  searchRecords : Index -> jsstring -> result (list Hit);
  searchRecords_by_name : option jsstring -> jsstring -> result (list Hit);
  PINECONE_API_KEY : option jsstring
}.

(** [configService.get(key, default)] *)
Definition config_get (v : option jsstring) (default : jsstring) : jsstring :=
  match v with Some s => s | None => default end.

(** *** The world: tables, files, calls made and tasks set off *)

(** [this.processDocument(id).catch(...)], not awaited. *)
Inductive Task := ProcessTask (documentId : jsstring).

Record World := mkWorld {
  documents : list Document;
  chunks : list Chunk;
  users : list User;
  dirs : list jsstring;
  files : list (jsstring * list N);
  calls : list Call;
  tasks : list Task;
  fresh : nat
}.

(** A computation on the world that returns or throws; what was done
    before a throw stays done. *)
Definition M (A : Type) : Type := World -> World * result A.

Definition ret {A : Type} (a : A) : M A := fun w => (w, Ok a).
Definition throw {A : Type} (e : exn) : M A := fun w => (w, Throw e).
Definition bind {A B : Type} (m : M A) (k : A -> M B) : M B :=
  fun w => match m w with
           | (w', Ok a) => k a w'
           | (w', Throw e) => (w', Throw e)
           end.
(** [try { m } catch (error) { h error }] *)
Definition try_catch {A : Type} (m : M A) (h : exn -> M A) : M A :=
  fun w => match m w with
           | (w', Ok a) => (w', Ok a)
           | (w', Throw e) => h e w'
           end.
Definition get_world : M World := fun w => (w, Ok w).
Definition modify (f : World -> World) : M unit := fun w => (f w, Ok tt).
(** The answer of a collaborator. *)
Definition lift {A : Type} (r : result A) : M A := fun w => (w, r).

Definition log_call (c : Call) : M unit :=
  modify (fun w => mkWorld (documents w) (chunks w) (users w) (dirs w)
                           (files w) (calls w ++ [c]) (tasks w) (fresh w)).

Definition set_documents (ds : list Document) (w : World) : World :=
  mkWorld ds (chunks w) (users w) (dirs w) (files w) (calls w) (tasks w)
          (fresh w).

Definition set_chunks (cs : list Chunk) (w : World) : World :=
  mkWorld (documents w) cs (users w) (dirs w) (files w) (calls w) (tasks w)
          (fresh w).

Definition set_files (fs : list (jsstring * list N)) (w : World) : World :=
  mkWorld (documents w) (chunks w) (users w) (dirs w) fs (calls w) (tasks w)
          (fresh w).

(** An identifier made by the data base for a new row. *)
Definition fresh_id (env : Env) : M jsstring :=
  fun w => (mkWorld (documents w) (chunks w) (users w) (dirs w) (files w)
                    (calls w) (tasks w) (S (fresh w)),
            Ok (uuid env (fresh w))).

(** *** The file system *)

Definition existsSync (p : jsstring) (w : World) : bool :=
  existsb (fun f => eqb (fst f) p) (files w).

Definition writeFileSync (p : jsstring) (data : list N) : M unit :=
  modify (fun w =>
    set_files (filter (fun f => negb (eqb (fst f) p)) (files w)
               ++ [(p, data)]) w).

Definition unlinkSync (p : jsstring) : M unit :=
  modify (fun w =>
    set_files (filter (fun f => negb (eqb (fst f) p)) (files w)) w).

Definition dir_exists (p : jsstring) (w : World) : bool :=
  existsb (eqb p) (dirs w).

Definition mkdirSync (p : jsstring) : M unit :=
  modify (fun w => mkWorld (documents w) (chunks w) (users w) (dirs w ++ [p])
                           (files w) (calls w) (tasks w) (fresh w)).

(** *** The repositories *)

Definition opt_eqb (a : option jsstring) (b : jsstring) : bool :=
  match a with Some x => eqb x b | None => false end.

(** [documentRepository.findOne({ where: { fileHash } })] *)
Definition findOne_by_hash (h : jsstring) (w : World) : option Document :=
  find (fun d => opt_eqb (fileHash d) h) (documents w).

(** [documentRepository.findOne({ where: { id } })] *)
Definition findOne_by_id (i : jsstring) (w : World) : option Document :=
  find (fun d => eqb (id d) i) (documents w).

(** [documentRepository.findOne({ where: { id, userId } })] *)
Definition findOne_by_id_user (i u : jsstring) (w : World)
  : option Document :=
  find (fun d => eqb (id d) i && eqb (doc_userId d) u) (documents w).

(** The relation [user] of a document. *)
Definition user_of (d : Document) (w : World) : option User :=
  find (fun u => eqb (user_id u) (doc_userId d)) (users w).

(** [{ ...documentWithoutUser, uploadedBy: { email: user?.email || null,
    name: user?.name || null } }] *)
Definition with_uploader (d : Document) (w : World) : DocumentView :=
  mkView d (or_null (option_map email (user_of d w)))
           (or_null (option_map name (user_of d w))).

(** [documentRepository.update(id, fields)]: the rows of that [id] get the
    fields given; a field that is [undefined] is left as it is. *)
Definition update_document (i : jsstring) (f : Document -> Document)
  : M unit :=
  modify (fun w =>
    set_documents (List.map (fun d => if eqb (id d) i then f d else d)
                            (documents w)) w).

(** [documentRepository.delete(id)], with the cascade to the chunks. *)
Definition delete_document (i : jsstring) : M unit :=
  modify (fun w =>
    set_chunks (filter (fun c => negb (eqb (chunk_documentId c) i))
                       (chunks w))
      (set_documents (filter (fun d => negb (eqb (id d) i)) (documents w))
                     w)).

(** [chunkRepository.find({ where: { documentId } })] *)
Definition find_chunks (i : jsstring) (w : World) : list Chunk :=
  filter (fun c => eqb (chunk_documentId c) i) (chunks w).

Definition set_status (s : Status) (msg : option jsstring) (d : Document)
  : Document :=
  mkDocument (id d) (doc_name d) (type d) (size d) (path d) (textFilePath d)
    (assistantFileId d) (fileHash d) s
    (match msg with Some m => Some m | None => errorMessage d end)
    (doc_userId d) (categoryId d).

Definition set_text_file (p : jsstring) (a : option jsstring) (d : Document)
  : Document :=
  mkDocument (id d) (doc_name d) (type d) (size d) (path d) (Some p) a
    (fileHash d) (status d) (errorMessage d) (doc_userId d) (categoryId d).

End Model.

Declare Scope world_scope.
Delimit Scope world_scope with world.
Notation "x <- m ;; k" := (Model.bind m (fun x => k))
  (at level 61, m at next level, right associativity) : world_scope.
Notation "m ;;; k" := (Model.bind m (fun _ => k))
  (at level 61, right associativity) : world_scope.

(** ** documents/pinecone.service.ts *)

Module PineconeService.
Import Js Json Model.
Local Open Scope world_scope.

(** *** The table of indexes

    [indexes] is an object used as a map from the name of an index to its
    configuration. Its own keys come in the order of JavaScript: the keys
    that are array indexes first, in numeric order, then the others in the
    order they were written. Reading a key that is not its own gives the
    member of [Object.prototype] of that name, when there is one. The
    assignment to the key [__proto__], which is no name of an index, is not
    modelled. *)

(** The number that a key is, when the key is an array index: a canonical
    decimal numeral below [2^32 - 1]. *)
Definition array_index (k : jsstring) : option N :=
  match k with
  | [] => None
  | d :: more =>
      if forallb is_digit k
         && negb (N.eqb d 48 && truthy more)
         && (List.length k <=? 10)%nat
         && (digits_value k <? 4294967295)%N
      then Some (digits_value k)
      else None
  end.

(** Where a new key goes. *)
Fixpoint insert_key (r : list (jsstring * Index)) (k : jsstring) (v : Index)
  : list (jsstring * Index) :=
  match r with
  | [] => [(k, v)]
  | (k', v') :: rest =>
      match array_index k, array_index k' with
      | Some n, Some n' =>
          if (n <? n')%N then (k, v) :: r else (k', v') :: insert_key rest k v
      | Some _, None => (k, v) :: r
      | None, _ => (k', v') :: insert_key rest k v
      end
  end.

(** [indexes[k] = v] *)
Definition record_set (r : list (jsstring * Index)) (k : jsstring)
  (v : Index) : list (jsstring * Index) :=
  if existsb (fun e => eqb (fst e) k) r
  then List.map (fun e => if eqb (fst e) k then (fst e, v) else e) r
  else insert_key r k v.

(** The members of [Object.prototype], which an object made by a literal
    inherits. *)
Definition prototype_members : list jsstring :=
  List.map str
    ["constructor"; "__defineGetter__"; "__defineSetter__";
     "hasOwnProperty"; "__lookupGetter__"; "__lookupSetter__";
     "isPrototypeOf"; "propertyIsEnumerable"; "toString"; "valueOf";
     "__proto__"; "toLocaleString"]%string.

(** What [indexes[k]] reads: an entry of the table, or a member of
    [Object.prototype] under its key. *)
Inductive property :=
| Own (i : Index)
| Inherited (key : jsstring).

(** [indexes[k]]: [None] is [undefined]. *)
Definition record_get (r : list (jsstring * Index)) (k : jsstring)
  : option property :=
  match find (fun e => eqb (fst e) k) r with
  | Some e => Some (Own (snd e))
  | None =>
      if existsb (eqb k) prototype_members then Some (Inherited k)
      else None
  end.

(** [m.name] for a member of [Object.prototype]: the members are functions
    that carry their key as name, but [constructor], which is the function
    [Object], and [__proto__], which is [Object.prototype] itself and has
    no name. None of them has a property [url]. *)
Definition member_name (key : jsstring) : option jsstring :=
  if eqb key (str "constructor") then Some (str "Object")
  else if eqb key (str "__proto__") then None
  else Some key.

Definition defaultIndexName (env : Env) : jsstring :=
  config_get (PINECONE_INDEX_NAME env) (str "air-multy").

Definition airIndexName (env : Env) : jsstring :=
  config_get (PINECONE_INDEX_NAME_AIR env) (str "air").

(** A configuration value that is set and not empty. *)
Definition configured (v : option jsstring) : option jsstring :=
  match v with
  | Some s => if truthy s then Some s else None
  | None => None
  end.

(** The table that each method builds: the default index when its address
    is configured, then the index [air] when its address is configured. *)
Definition indexes (env : Env) : list (jsstring * Index) :=
  let r0 : list (jsstring * Index) := [] in
  let r1 :=
    match configured (PINECONE_INDEX_URL env) with
    | Some url =>
        record_set r0 (defaultIndexName env)
                   (mkIndex (defaultIndexName env) url)
    | None => r0
    end in
  match configured (PINECONE_INDEX_URL_AIR env) with
  | Some url =>
      record_set r1 (airIndexName env) (mkIndex (airIndexName env) url)
  | None => r1
  end.

(** *** upsertVector *)

(** [for (const index in indexes) await namespace.upsertRecords(vector)] *)
Fixpoint upsert_all (env : Env) (idxs : list (jsstring * Index))
  (vector : list VectorRecord) : M unit :=
  match idxs with
  | [] => ret tt
  | (_, i) :: rest =>
      log_call (UpsertRecords i vector) ;;;
      lift (upsertRecords env i vector) ;;;
      upsert_all env rest vector
  end.

(** [upsertVector(vector)] on an array; the [catch] logs and throws again. *)
Definition upsertVector (env : Env) (vector : list VectorRecord)
  : M (list jsstring) :=
  let chunkIds := filter truthy (List.map record_id vector) in
  if (Z.of_nat (List.length (indexes env)) =? 0)%Z
  then throw (Error (str "At least one Pinecone index URL must be configured"))
  else
    upsert_all env (indexes env) vector ;;;
    ret chunkIds.

(** *** deleteVector *)

Fixpoint delete_one_all (env : Env) (idxs : list (jsstring * Index))
  (i : jsstring) : M unit :=
  match idxs with
  | [] => ret tt
  | (_, x) :: rest =>
      log_call (DeleteOne x i) ;;;
      lift (deleteOne env x i) ;;;
      delete_one_all env rest i
  end.

Definition deleteVector (env : Env) (i : jsstring) : M unit :=
  delete_one_all env (indexes env) i.

(** *** deleteVectors *)

Fixpoint delete_all (env : Env) (idxs : list (jsstring * Index))
  (ids : list jsstring) : M unit :=
  match idxs with
  | [] => ret tt
  | (_, i) :: rest =>
      log_call (DeleteMany i ids) ;;;
      lift (deleteMany env i ids) ;;;
      delete_all env rest ids
  end.

Definition deleteVectors (env : Env) (ids : list jsstring) : M unit :=
  if (Z.of_nat (List.length ids) =? 0)%Z then ret tt
  else delete_all env (indexes env) ids.

(** *** queryVectors *)

(** [hit.fields.category || hit.fields.text || ''] *)
Definition categoryValue (h : Hit) : jsstring :=
  or_else (or_else (config_get (category (fields h)) [])
                   (config_get (text (fields h)) []))
          [].

(** The function mapped over the hits: the metadata parsed from the
    category, or, when [JSON.parse] throws, made of the category alone. *)
Definition parse_hit (h : Hit) : Hit :=
  let cv := categoryValue h in
  let text' := Some (or_else (config_get (text (fields h)) []) cv) in
  match JSON_parse cv with
  | Some parsedMetadata =>
      mkHit (hit_id h) (hit_score h)
            (mkFields (Some cv) text' (Some parsedMetadata))
  | None =>
      mkHit (hit_id h) (hit_score h)
            (mkFields (Some cv) text'
                      (Some (JObject [(str "documentId", JString cv)])))
  end.

(** [indexes[validIndexName] || indexes[defaultIndexName]]: an entry and a
    member of [Object.prototype] are both truthy. An [indexName] that is no
    string is [None]. *)
Definition validIndexName (env : Env) (indexName : option jsstring)
  : jsstring :=
  match indexName with Some n => n | None => defaultIndexName env end.

Definition selectedIndex (env : Env) (indexName : option jsstring)
  : option property :=
  match record_get (indexes env) (validIndexName env indexName) with
  | Some p => Some p
  | None => record_get (indexes env) (defaultIndexName env)
  end.

(** [queryVectors(text, indexName)]: the search goes to
    [pc.index(selectedIndex.name, selectedIndex.url)]. *)
Definition queryVectors (env : Env) (query : jsstring)
  (indexName : option jsstring) : M (list Hit) :=
  match selectedIndex env indexName with
  | None =>
      throw (Error (str "Index configuration not found for: "
                    ++ validIndexName env indexName))
  | Some (Own i) =>
      log_call (SearchRecords i query) ;;;
      hits <- lift (searchRecords env i query) ;;
      ret (List.map parse_hit hits)
  | Some (Inherited key) =>
      log_call (SearchRecordsByName (member_name key) query) ;;;
      hits <- lift (searchRecords_by_name env (member_name key) query) ;;
      ret (List.map parse_hit hits)
  end.

(** *** onModuleInit

    The service starts only with a key and the address of the default
    index; the client it makes then is not called here. *)
Definition onModuleInit (env : Env) : M unit :=
  match configured (PINECONE_API_KEY env) with
  | None =>
      throw (Error (str
        "PINECONE_API_KEY is required in environment variables"))
  | Some _ =>
      match configured (PINECONE_INDEX_URL env) with
      | None =>
          throw (Error (str
            "PINECONE_INDEX_URL is required in environment variables"))
      | Some _ => ret tt
      end
  end.

End PineconeService.

(** ** documents/documents.service.ts *)

Module DocumentsService.
Import Js Json Model PineconeService.
Local Open Scope world_scope.

(** An uploaded file, as Multer hands it over. *)
Record MulterFile := mkFile {
  originalname : jsstring;
  mimetype : jsstring;
  file_size : N;
  buffer : list N
}.

Definition uploadPath (env : Env) : jsstring :=
  config_get (UPLOAD_PATH env) (str "./uploads").

Definition updateDocumentStatus (documentId : jsstring) (s : Status)
  (errorMessage : option jsstring) : M unit :=
  update_document documentId (set_status s errorMessage).

(** The detached call [this.processDocument(id).catch(...)] is set off:
    it runs later, as a task. *)
Definition set_off (t : Task) : M unit :=
  modify (fun w => mkWorld (documents w) (chunks w) (users w) (dirs w)
                           (files w) (calls w) (tasks w ++ [t]) (fresh w)).

(** *** uploadDocument *)

Definition duplicate_message : jsstring :=
  str "Document with the same content already exists".

Definition uploadDocument (env : Env) (file : MulterFile)
  (userId : jsstring) : M DocumentView :=
  w0 <- get_world ;;
  (if dir_exists (uploadPath env) w0 then ret tt
   else mkdirSync (uploadPath env)) ;;;
  let decodedFilename := decodeFilename env (originalname file) in
  let fileHash := sha256_hex env (buffer file) in
  w1 <- get_world ;;
  match findOne_by_hash fileHash w1 with
  | Some existingDocument =>
      throw (ConflictException duplicate_message
               (with_uploader existingDocument w1))
  | None =>
      let filePath :=
        path_join env (uploadPath env)
          (decimal (Date_now env) ++ str "-" ++ decodedFilename) in
      writeFileSync filePath (buffer file) ;;;
      newId <- fresh_id env ;;
      let document :=
        mkDocument newId decodedFilename (mimetype file) (file_size file)
          filePath None None (Some fileHash) processing None userId None in
      modify (fun w => set_documents (documents w ++ [document]) w) ;;;
      set_off (ProcessTask newId) ;;;
      w2 <- get_world ;;
      match findOne_by_id newId w2 with
      | Some documentWithUser => ret (with_uploader documentWithUser w2)
      | None => ret (mkView document None None)
      end
  end.

(** *** splitIntoChunks *)

Definition splitIntoChunks (env : Env) (text : jsstring) (chunkSize : Z)
  : M (list jsstring) :=
  try_catch
    (log_call (GeminiChunking text chunkSize) ;;;
     lift (gemini_semanticChunking env text chunkSize))
    (fun _ => ret (Chunker.semanticChunking text chunkSize (fraction 1 10))).

(** *** processDocument *)

(** [`${documentId}_chunk_${i}`] *)
Definition pinecone_id (documentId : jsstring) (i : N) : jsstring :=
  documentId ++ str "_chunk_" ++ decimal i.

(** The metadata of the chunk [i] of a document in [n] chunks. *)
Definition chunk_metadata (env : Env) (d : Document) (i n : N) : Metadata :=
  mkMetadata (id d) (doc_userId d) (doc_name d) (type d) i n
             (toISOString env i).

(** The loop that fills [data]. *)
Fixpoint build_data (env : Env) (d : Document) (documentId : jsstring)
  (n : N) (i : N) (chunks : list jsstring) : list VectorRecord :=
  match chunks with
  | [] => []
  | chunkContent :: rest =>
      mkRecord (pinecone_id documentId i) chunkContent
               (stringify_metadata (chunk_metadata env d i n))
      :: build_data env d documentId n (i + 1) rest
  end.

(** The loop that fills [chunkEntities], and [chunkRepository.save], which
    gives each new row its identifier. *)
Fixpoint save_chunks (env : Env) (d : Document) (documentId : jsstring)
  (chunkIds : list jsstring) (i : N) (chunks : list jsstring) : M unit :=
  match chunks with
  | [] => ret tt
  | chunkContent :: rest =>
      let pineconeId :=
        or_else (nth (N.to_nat i) chunkIds []) (pinecone_id documentId i) in
      newId <- fresh_id env ;;
      modify (fun w =>
        set_chunks (Model.chunks w
                    ++ [mkChunk newId (id d) chunkContent i pineconeId]) w) ;;;
      save_chunks env d documentId chunkIds (i + 1) rest
  end.

(** The [try] block of [processDocument] up to the upsert: the text is
    extracted, cleaned and written, the file is registered with the
    assistant (an error there is logged and passed over), the document is
    updated, the text is cut into chunks and the records are upserted. It
    returns [chunks] and [chunkIds]. *)
Definition extract_and_upsert (env : Env) (documentId : jsstring)
  (document : Document) : M (list jsstring * list jsstring) :=
  log_call (ParseFile (path document) (type document)) ;;;
  parsed <- lift (parseFile env (path document) (type document)) ;;
  let content := TextCleaner.cleanTextLineBreaks parsed in
  let textFilePath :=
    path_join env (uploadPath env) (documentId ++ str "-text.txt") in
  writeFileSync textFilePath content ;;;
  assistantFileId <-
    try_catch
      (log_call (AssistantUpload textFilePath) ;;;
       fileId <- lift (assistant_uploadFile env textFilePath) ;;
       ret (Some fileId))
      (fun _ => ret None) ;;
  update_document documentId (set_text_file textFilePath assistantFileId) ;;;
  chunks <- splitIntoChunks env content 1000 ;;
  let data :=
    build_data env document documentId (N.of_nat (List.length chunks)) 0
               chunks in
  chunkIds <- upsertVector env data ;;
  ret (chunks, chunkIds).

(** [processDocument]: the rows of the chunks are saved after the upsert has
    returned, and the status [ready] is written last. The outer [catch]
    throws the error again. *)
Definition processDocument (env : Env) (documentId : jsstring) : M unit :=
  w0 <- get_world ;;
  match findOne_by_id documentId w0 with
  | None => throw (NotFoundException (str "Document not found"))
  | Some document =>
      upserted <- extract_and_upsert env documentId document ;;
      save_chunks env document documentId (snd upserted) 0 (fst upserted) ;;;
      updateDocumentStatus documentId ready None
  end.

(** A task run: the pipeline, and the handler of [.catch], which writes the
    status [error] with the message of the error. *)
Definition run_task (env : Env) (t : Task) : M unit :=
  match t with
  | ProcessTask documentId =>
      try_catch (processDocument env documentId)
        (fun e => updateDocumentStatus documentId error (Some (message_of e)))
  end.

(** *** getDocument *)

Definition getDocument (documentId userId : jsstring) : M Document :=
  w <- get_world ;;
  match findOne_by_id_user documentId userId w with
  | Some document => ret document
  | None => throw (NotFoundException (str "Document not found"))
  end.

(** *** deleteDocument *)

Definition deleteDocument (env : Env) (documentId userId : jsstring)
  : M unit :=
  document <- getDocument documentId userId ;;
  (match or_null (assistantFileId document) with
   | Some fileId =>
       try_catch
         (log_call (AssistantDelete fileId) ;;;
          lift (assistant_deleteFile env fileId))
         (fun _ => ret tt)
   | None => ret tt
   end) ;;;
  w1 <- get_world ;;
  let chunks := find_chunks documentId w1 in
  (if (Z.of_nat (List.length chunks) >? 0)%Z then
     let chunkIds := filter truthy (List.map pineconeId chunks) in
     if (Z.of_nat (List.length chunkIds) >? 0)%Z
     then deleteVectors env chunkIds
     else ret tt
   else ret tt) ;;;
  w2 <- get_world ;;
  (if existsSync (path document) w2 then unlinkSync (path document)
   else ret tt) ;;;
  w3 <- get_world ;;
  (match or_null (textFilePath document) with
   | Some p => if existsSync p w3 then unlinkSync p else ret tt
   | None => ret tt
   end) ;;;
  delete_document documentId.

(** *** reprocessDocument *)

(** [documentRepository.save(document)] of a row that is there: the row of
    that [id] is written again. *)
Definition save_document (d : Document) : M unit :=
  update_document (id d) (fun _ => d).

(** The chunks are read and not used: the loop that deleted them is in a
    comment. *)
Definition reprocessDocument (env : Env) (documentId userId : jsstring)
  : M Document :=
  document <- getDocument documentId userId ;;
  w1 <- get_world ;;
  let chunks := find_chunks documentId w1 in
  let document' := set_status processing None document in
  save_document document' ;;;
  set_off (ProcessTask documentId) ;;;
  ret document'.

End DocumentsService.

(** ** Notions used in the statements about the services *)

Module Frames.
Import Js Json Model PineconeService DocumentsService.

(** Every run of [m] takes a world to a world related by [R]. *)
Definition preserves {A : Type} (R : World -> World -> Prop) (m : M A)
  : Prop :=
  forall w w' r, m w = (w', r) -> R w w'.

(** The table of chunks is as it was. *)
Definition same_chunks (w w' : World) : Prop := chunks w' = chunks w.

(** What names a document and its owner. *)
Definition identity (d : Document) : jsstring * option jsstring * jsstring :=
  (id d, fileHash d, doc_userId d).

(** The documents are the same rows, with the same identifier, fingerprint
    and owner each; the users and the directories are as they were. *)
Definition same_registry (w w' : World) : Prop :=
  List.map identity (documents w') = List.map identity (documents w)
  /\ users w' = users w /\ dirs w' = dirs w.

(** Calls were added, each of them with the property [P]. *)
Definition calls_grow (P : Call -> Prop) (w w' : World) : Prop :=
  exists new, calls w' = calls w ++ new /\ Forall P new.

(** Rows of chunks were added and none was taken away or changed. *)
Definition chunks_grow (w w' : World) : Prop :=
  exists new, chunks w' = chunks w ++ new.


(** A call that deletes vectors. *)
Definition is_delete (c : Call) : bool :=
  match c with
  | DeleteMany _ _ | DeleteOne _ _ => true
  | _ => false
  end.

(** The text handed to the chunker holds no three line feeds in a row. *)
Definition chunker_text_clean (c : Call) : Prop :=
  match c with
  | GeminiChunking t _ => TextCleaner.no_triple_nl t = true
  | _ => True
  end.

(** The tasks run one after the other. *)
Fixpoint run_tasks (env : Env) (ts : list Task) (w : World) : World :=
  match ts with
  | [] => w
  | t :: rest => run_tasks env rest (fst (run_task env t w))
  end.

(** The world with calls added. *)
Definition add_calls (cs : list Call) (w : World) : World :=
  mkWorld (documents w) (chunks w) (users w) (dirs w) (files w)
          (calls w ++ cs) (tasks w) (fresh w).

(** An index of the table that refuses every upsert. *)
Definition refusing_index (env : Env) : Prop :=
  exists e, In e (indexes env)
            /\ forall data, exists err,
                 upsertRecords env (snd e) data = Throw err.

End Frames.

(** ** Worlds and environments of the examples *)

Module Examples.
Import Js Json Model PineconeService DocumentsService Frames.

(** Collaborators that answer: the text extracted is [Hello world.], the
    assistant and the indexes accept, the semantic chunker of Gemini is
    down, so the fallback chunker runs. Two indexes are configured under
    their default names. *)
Definition example_env : Env :=
  mkEnv None None (Some (str "https://default.example")) None
        (Some (str "https://air.example"))
        (fun bytes => bytes)
        (fun a b => a ++ str "/" ++ b)
        (fun n => n)
        1700000000000%N
        (fun _ => str "2024-01-01T00:00:00.000Z")
        (fun n => str "row-" ++ decimal (N.of_nat n))
        (fun _ _ => Ok (str "Hello world."))
        (fun _ => Ok (str "file-1"))
        (fun _ => Ok tt)
        (fun _ _ => Throw (Error (str "gemini is down")))
        (fun _ _ => Ok tt)
        (fun _ _ => Ok tt)
        (fun _ _ => Ok tt)
        (fun _ _ => Ok [])
        (fun _ _ => Throw (Error (str "index not found")))
        (Some (str "key")).

(** The same, with the default index named [air], as the other index is. *)
Definition same_name_env : Env :=
  mkEnv None (Some (str "air")) (Some (str "https://default.example")) None
        (Some (str "https://air.example"))
        (sha256_hex example_env) (path_join example_env)
        (decodeFilename example_env) (Date_now example_env)
        (toISOString example_env) (uuid example_env)
        (parseFile example_env) (assistant_uploadFile example_env)
        (assistant_deleteFile example_env)
        (gemini_semanticChunking example_env)
        (upsertRecords example_env) (deleteMany example_env)
        (deleteOne example_env) (searchRecords example_env)
        (searchRecords_by_name example_env) (PINECONE_API_KEY example_env).

(** The same as [example_env], with the index [air] refusing the upserts. *)
Definition air_down_env : Env :=
  mkEnv None None (Some (str "https://default.example")) None
        (Some (str "https://air.example"))
        (sha256_hex example_env) (path_join example_env)
        (decodeFilename example_env) (Date_now example_env)
        (toISOString example_env) (uuid example_env)
        (parseFile example_env) (assistant_uploadFile example_env)
        (assistant_deleteFile example_env)
        (gemini_semanticChunking example_env)
        (fun i _ => if eqb (index_name i) (str "air")
                    then Throw (Error (str "air is down")) else Ok tt)
        (deleteMany example_env)
        (deleteOne example_env) (searchRecords example_env)
        (searchRecords_by_name example_env) (PINECONE_API_KEY example_env).

Definition ann : User := mkUser (str "u1") (str "ann@example.org") (str "Ann").

(** One user and nothing else. *)
Definition empty_world : World := mkWorld [] [] [ann] [] [] [] [] 0.

Definition notes_file : MulterFile :=
  mkFile (str "notes.txt") (str "text/plain") 3 [104; 105; 33]%N.

Definition one_record : list VectorRecord :=
  [mkRecord (str "d1_chunk_0") (str "Hello world.") (str "{}")].

(** A document that is ready, with the two chunks of an earlier run. *)
Definition ready_document : Document :=
  mkDocument (str "d1") (str "notes.txt") (str "text/plain") 3
             (str "./uploads/1-notes.txt") (Some (str "./uploads/d1-text.txt"))
             None (Some [104; 105; 33]%N) ready None (str "u1") None.

Definition ready_world : World :=
  mkWorld [ready_document]
          [mkChunk (str "c1") (str "d1") (str "Hello") 0 (str "d1_chunk_0");
           mkChunk (str "c2") (str "d1") (str "world.") 1 (str "d1_chunk_1")]
          [ann] [str "./uploads"]
          [(str "./uploads/1-notes.txt", [104; 105; 33]%N);
           (str "./uploads/d1-text.txt", str "Hello world.")]
          [] [] 7.

(** The world after [notes_file] was uploaded, its task not yet run. *)
Definition processing_world : World :=
  fst (uploadDocument air_down_env notes_file (str "u1") empty_world).

(** A hit with an empty category and a text that is JSON. *)
Definition numeric_text_hit : Hit :=
  mkHit (str "r1") 1 (mkFields (Some []) (Some (str "42")) None).

(** A hit of a record written before the metadata were JSON. *)
Definition legacy_hit : Hit :=
  mkHit (str "r2") 1 (mkFields (Some (str "d7")) (Some (str "some text")) None).

End Examples.

(** ** Notions used in the statements about the groups of paragraphs *)

Module Groups.
Import Js Chunker.

(** A group of paragraphs that the loop may hold in its buffer for a target
    size [S]: it is not empty, and with more than one paragraph in it its
    buffer is within the target size, the last separator apart. *)
Definition sized (S : Z) (g : list jsstring) : Prop :=
  g <> [] /\ (List.length g = 1 \/ (len (buffer_of g) <= S + 2)%Z).

(** A paragraph longer than the target size, alone in a text. *)
Definition long_paragraph : jsstring := str "aaaa bbbb cccc dddd".

End Groups.

(** ** documents/documents.service.ts: the category and the file of a
    document *)

Module DocumentsServiceMore.
Import Js Json Model PineconeService DocumentsService.
Local Open Scope world_scope.

Definition set_category (c : option jsstring) (d : Document) : Document :=
  mkDocument (id d) (doc_name d) (type d) (size d) (path d) (textFilePath d)
    (assistantFileId d) (fileHash d) (status d) (errorMessage d)
    (doc_userId d) c.

(** [updateDocumentCategory]; [categories] holds the identifiers of the
    rows of the table of categories, which this service reads and does not
    write, and a [categoryId] that is [null] or [undefined] is [None]. The
    query builder and [update] both write the column of the rows of that
    [id]. *)
Definition updateDocumentCategory (categories : list jsstring)
  (documentId userId : jsstring) (categoryId : option jsstring)
  : M Document :=
  document <- getDocument documentId userId ;;
  (match categoryId with
   | Some c =>
       if existsb (eqb c) categories then ret tt
       else throw (NotFoundException (str "Category not found"))
   | None => ret tt
   end) ;;;
  update_document documentId (set_category categoryId) ;;;
  getDocument documentId userId.

(** [streamDocumentFile]: [filePath], [fileName] and [mimeType]. *)
Definition streamDocumentFile (documentId userId : jsstring)
  : M (jsstring * jsstring * jsstring) :=
  document <- getDocument documentId userId ;;
  w <- get_world ;;
  if negb (truthy (path document)) || negb (existsSync (path document) w)
  then throw (NotFoundException (str "Document file not found"))
  else ret (path document, doc_name document, type document).

(** *** The steps of [deleteDocument]

    [deleteDocument] first calls the assistant and the indexes, then takes
    away the files and the rows. *)

(** [if (document.assistantFileId) { try { await deleteFile(...) }
    catch { } }] *)
Definition delete_assistant_file (env : Env) (document : Document)
  : M unit :=
  match or_null (assistantFileId document) with
  | Some fileId =>
      try_catch
        (log_call (AssistantDelete fileId) ;;;
         lift (assistant_deleteFile env fileId))
        (fun _ => ret tt)
  | None => ret tt
  end.

(** The chunks are read and their vectors are deleted. *)
Definition delete_vectors_of (env : Env) (documentId : jsstring) : M unit :=
  w1 <- get_world ;;
  let chunks := find_chunks documentId w1 in
  if (Z.of_nat (List.length chunks) >? 0)%Z then
    let chunkIds := filter truthy (List.map pineconeId chunks) in
    if (Z.of_nat (List.length chunkIds) >? 0)%Z
    then deleteVectors env chunkIds
    else ret tt
  else ret tt.

Definition delete_remote (env : Env) (documentId : jsstring)
  (document : Document) : M unit :=
  delete_assistant_file env document ;;; delete_vectors_of env documentId.

(** The two files are unlinked when they are there, and the row is
    deleted. *)
Definition delete_local (documentId : jsstring) (document : Document)
  : M unit :=
  w2 <- get_world ;;
  (if existsSync (path document) w2 then unlinkSync (path document)
   else ret tt) ;;;
  w3 <- get_world ;;
  (match or_null (textFilePath document) with
   | Some p => if existsSync p w3 then unlinkSync p else ret tt
   | None => ret tt
   end) ;;;
  delete_document documentId.

(** The files that a deletion leaves. *)
Definition files_left (d : Document) (fs : list (jsstring * list N))
  : list (jsstring * list N) :=
  filter (fun f => match or_null (textFilePath d) with
                   | Some p => negb (eqb (fst f) p)
                   | None => true
                   end)
         (filter (fun f => negb (eqb (fst f) (path d))) fs).

End DocumentsServiceMore.

(** ** documents/category.service.ts

    The service works on the table of categories and reads the table of
    documents. Of a category, the columns that the service uses are kept:
    [id], [name] and [description]; its relation [documents] is the
    documents that have its [id] as [categoryId]. *)

Module CategoryService.
Import Js Json Model.

Record Category := mkCategory {
  category_id : jsstring;
  category_name : jsstring;
  category_description : option jsstring
}.

(** The errors of the service. *)
Inductive http_exn :=
| NotFound (message : jsstring)
| BadRequest (message : jsstring)
| Conflict (message : jsstring).

Inductive outcome (A : Type) :=
| Done (a : A)
| Fails (e : http_exn).
Arguments Done {A} a.
Arguments Fails {A} e.

(** A category with [documentCount] and [deletable]. *)
Record CategoryInfo := mkInfo {
  info_category : Category;
  documentCount : N;
  deletable : bool
}.

(** [categoryRepository.findOne({ where: { id } })] *)
Definition findOne_category (i : jsstring) (cats : list Category)
  : option Category :=
  find (fun c => eqb (category_id c) i) cats.

(** [categoryRepository.findOne({ where: { name } })] *)
Definition findOne_by_name (n : jsstring) (cats : list Category)
  : option Category :=
  find (fun c => eqb (category_name c) n) cats.

(** The relation [documents] of the category [i], and the rows that
    [documentRepository.count({ where: { categoryId: id } })] counts. *)
Definition documents_of (i : jsstring) (docs : list Document)
  : list Document :=
  filter (fun d => opt_eqb (categoryId d) i) docs.

Definition getCategoryById (i : jsstring) (cats : list Category)
  : outcome Category :=
  match findOne_category i cats with
  | Some category => Done category
  | None => Fails (NotFound (str "Category not found"))
  end.

(** [createCategory]; [newId] is the identifier that the data base gives
    to the new row. *)
Definition createCategory (newId name : jsstring)
  (description : option jsstring) (cats : list Category)
  : list Category * outcome CategoryInfo :=
  match findOne_by_name name cats with
  | Some existingCategory =>
      (cats, Fails (Conflict (str "Category with this name already exists")))
  | None =>
      let savedCategory := mkCategory newId name description in
      (cats ++ [savedCategory], Done (mkInfo savedCategory 0 true))
  end.

(** [categoryRepository.save(category)] of a row that is there. *)
Definition save_category (c : Category) (cats : list Category)
  : list Category :=
  List.map (fun x => if eqb (category_id x) (category_id c) then c else x)
           cats.

(** [updateCategory]; a [name] or a [description] that is [undefined] is
    [None]. *)
Definition updateCategory (i : jsstring) (name description : option jsstring)
  (cats : list Category) : list Category * outcome Category :=
  match getCategoryById i cats with
  | Fails e => (cats, Fails e)
  | Done category =>
      let renamed :=
        match name with
        | Some n =>
            if truthy n && negb (eqb n (category_name category)) then
              match findOne_by_name n cats with
              | Some existingCategory =>
                  Fails (Conflict
                           (str "Category with this name already exists"))
              | None =>
                  Done (mkCategory (category_id category) n
                                   (category_description category))
              end
            else Done category
        | None => Done category
        end in
      match renamed with
      | Fails e => (cats, Fails e)
      | Done category1 =>
          let category2 :=
            match description with
            | Some d =>
                mkCategory (category_id category1) (category_name category1)
                           (Some d)
            | None => category1
            end in
          (save_category category2 cats, Done category2)
      end
  end.

(** [deleteCategory]; [remove] deletes the rows of the identifier. *)
Definition deleteCategory (i : jsstring) (cats : list Category)
  (docs : list Document) : list Category * outcome unit :=
  match getCategoryById i cats with
  | Fails e => (cats, Fails e)
  | Done category =>
      let documentCount := N.of_nat (List.length (documents_of i docs)) in
      if (0 <? documentCount)%N then
        (cats,
         Fails (BadRequest (str "Cannot delete category. It is used by "
                            ++ decimal documentCount
                            ++ str " document(s).")))
      else
        (filter (fun x => negb (eqb (category_id x) (category_id category)))
                cats,
         Done tt)
  end.

Definition getCategoryWithDeletableInfo (i : jsstring)
  (cats : list Category) (docs : list Document) : outcome CategoryInfo :=
  match getCategoryById i cats with
  | Fails e => Fails e
  | Done category =>
      let documentCount := N.of_nat (List.length (documents_of i docs)) in
      Done (mkInfo category documentCount (N.eqb documentCount 0))
  end.

(** *** Notions used in the statements *)

(** The identifiers and the names of the categories are two by two
    distinct. *)
Definition well_keyed (cats : list Category) : Prop :=
  NoDup (List.map category_id cats) /\ NoDup (List.map category_name cats).

(** The categories that the documents name. *)
Definition used_categories (docs : list Document) : list jsstring :=
  flat_map (fun d => match categoryId d with Some c => [c] | None => [] end)
           docs.

(** Every category that a document names is in the table. *)
Definition references_ok (cats : list Category) (docs : list Document)
  : Prop :=
  incl (used_categories docs) (List.map category_id cats).

(** The documents name no category that they did not name. *)
Definition categories_kept (w w' : World) : Prop :=
  incl (used_categories (documents w')) (used_categories (documents w)).

(** Two categories and a document of the second. *)
Definition two_categories : list Category :=
  [mkCategory (str "c1") (str "Contracts") None;
   mkCategory (str "c2") (str "Manuals") (Some (str "User manuals"))].

Definition manual_document : Document :=
  mkDocument (str "d1") (str "notes.txt") (str "text/plain") 3
             (str "./uploads/1-notes.txt") None None None ready None
             (str "u1") (Some (str "c2")).

(** A world with that document and nothing else. *)
Definition manual_world : World :=
  mkWorld [manual_document] [] [] [] [] [] [] 1.

End CategoryService.

(** ** utils/filename-decoder.util.ts

    The functions of [Buffer] that the file uses are written out: the
    encoding [latin1] keeps the low byte of each code unit; the decoding of
    UTF-8 is the decoder of the Encoding Standard, which writes U+FFFD for
    each ill-formed sequence; the encoding to UTF-8 writes U+FFFD for a
    surrogate that is alone. [decodeURIComponent] is a parameter: [None]
    is the [URIError] it throws. *)

Module FilenameDecoder.
Import Js Json.

Local Open Scope N_scope.

Definition byte := N.

(** [Buffer.from(s, 'latin1')], and [Buffer.from(s, 'binary')], which is
    the same encoding. *)
Definition latin1_bytes (s : jsstring) : list byte :=
  List.map (fun c => (c mod 256)%N) s.

Definition REPLACEMENT : N := 65533%N.

(** The code units of a code point. *)
Definition utf16_units (cp : N) : jsstring :=
  if (cp <? 65536)%N then [cp]
  else [(55296 + (cp - 65536) / 1024)%N; (56320 + (cp - 65536) mod 1024)%N].

(** The state of the decoder: at the start of a sequence, or inside one,
    with the bits read so far, the number of bytes still needed and the
    bounds of the next byte. *)
Inductive decoder_state :=
| Start
| Continue (cp : N) (needed : nat) (lower upper : byte).

(** A byte at the start of a sequence: what is written, and the state
    after it. *)
Definition lead_byte (b : byte) : list N * decoder_state :=
  if (b <=? 127)%N then ([b], Start)
  else if (194 <=? b)%N && (b <=? 223)%N
  then ([], Continue (b mod 32) 1%nat 128 191)
  else if (224 <=? b)%N && (b <=? 239)%N
  then ([], Continue (b mod 16) 2%nat (if (b =? 224)%N then 160 else 128)
                     (if (b =? 237)%N then 159 else 191))
  else if (240 <=? b)%N && (b <=? 244)%N
  then ([], Continue (b mod 8) 3%nat (if (b =? 240)%N then 144 else 128)
                     (if (b =? 244)%N then 143 else 191))
  else ([REPLACEMENT], Start).

(** The code points decoded. A byte that cannot continue a sequence ends
    it with U+FFFD and is read again as the start of a sequence; a sequence
    cut by the end of the bytes gives U+FFFD. *)
Fixpoint utf8_decode (st : decoder_state) (bytes : list byte) : list N :=
  match bytes with
  | [] => match st with Start => [] | Continue _ _ _ _ => [REPLACEMENT] end
  | b :: rest =>
      match st with
      | Start =>
          fst (lead_byte b) ++ utf8_decode (snd (lead_byte b)) rest
      | Continue cp needed lower upper =>
          if (lower <=? b)%N && (b <=? upper)%N then
            let cp' := (cp * 64 + b mod 64)%N in
            match needed with
            | S (S n) => utf8_decode (Continue cp' (S n) 128 191) rest
            | _ => cp' :: utf8_decode Start rest
            end
          else
            REPLACEMENT
            :: fst (lead_byte b) ++ utf8_decode (snd (lead_byte b)) rest
      end
  end.

(** [buffer.toString('utf8')] *)
Definition toString_utf8 (bytes : list byte) : jsstring :=
  List.concat (List.map utf16_units (utf8_decode Start bytes)).

(** The bytes of a code point in UTF-8. *)
Definition encode_code_point (cp : N) : list byte :=
  if (cp <? 128)%N then [cp]
  else if (cp <? 2048)%N then [(192 + cp / 64)%N; (128 + cp mod 64)%N]
  else if (cp <? 65536)%N
  then [(224 + cp / 4096)%N; (128 + (cp / 64) mod 64)%N;
        (128 + cp mod 64)%N]
  else [(240 + cp / 262144)%N; (128 + (cp / 4096) mod 64)%N;
        (128 + (cp / 64) mod 64)%N; (128 + cp mod 64)%N].

(** [Buffer.from(s, 'utf8')] *)
Fixpoint utf8_bytes (s : jsstring) : list byte :=
  match s with
  | [] => []
  | c :: r =>
      if is_high c then
        match r with
        | c2 :: r2 =>
            if is_low c2
            then encode_code_point
                   (65536 + (c - 55296) * 1024 + (c2 - 56320))%N
                 ++ utf8_bytes r2
            else encode_code_point REPLACEMENT ++ utf8_bytes r
        | [] => encode_code_point REPLACEMENT
        end
      else if is_low c then encode_code_point REPLACEMENT ++ utf8_bytes r
      else encode_code_point c ++ utf8_bytes r
  end.

(** [containsCyrillic]: [/[\u0400-\u04FF]/.test(str)] *)
Definition containsCyrillic (s : jsstring) : bool :=
  existsb (fun c => (1024 <=? c)%N && (c <=? 1279)%N) s.

(** [isValidUTF8]: the string is what its bytes in UTF-8 decode to. *)
Definition isValidUTF8 (s : jsstring) : bool :=
  eqb (toString_utf8 (utf8_bytes s)) s.

(** [countInvalidChars]: the number of matches of the pattern, U+00D0
    followed by a code unit from U+00D0 to U+00FF, from left to right. *)
Fixpoint countInvalidChars (s : jsstring) : nat :=
  match s with
  | c :: ((c2 :: r2) as r) =>
      if (c =? 208)%N && (208 <=? c2)%N && (c2 <=? 255)%N
      then S (countInvalidChars r2)
      else countInvalidChars r
  | _ => O
  end.

(** [filename.includes('%')] *)
Definition includes_percent (s : jsstring) : bool := existsb (N.eqb 37) s.

Section Decode.
Variable decodeURIComponent : jsstring -> option jsstring.

(** Step 1: the name decoded as a component of a URI. *)
Definition url_decoded (filename : jsstring) : option jsstring :=
  if includes_percent filename then
    match decodeURIComponent filename with
    | Some decoded =>
        if negb (eqb decoded filename) && isValidUTF8 decoded
        then Some decoded else None
    | None => None
    end
  else None.

(** Step 2: the code units taken as bytes of UTF-8. *)
Definition latin1_decoded (filename : jsstring) : option jsstring :=
  let decoded := toString_utf8 (latin1_bytes filename) in
  if negb (eqb decoded filename) && isValidUTF8 decoded then
    if containsCyrillic decoded && negb (containsCyrillic filename)
    then Some decoded
    else if (countInvalidChars decoded <? countInvalidChars filename)%nat
         then Some decoded
         else None
  else None.

(** Step 3: the same bytes, by the name [binary] of the encoding. *)
Definition binary_decoded (filename : jsstring) : option jsstring :=
  let decoded := toString_utf8 (latin1_bytes filename) in
  if negb (eqb decoded filename) && isValidUTF8 decoded
     && containsCyrillic decoded
  then Some decoded else None.

Definition decodeFilename (filename : jsstring) : jsstring :=
  if negb (truthy filename) then filename
  else
    match url_decoded filename with
    | Some decoded => decoded
    | None =>
        match latin1_decoded filename with
        | Some decoded => decoded
        | None =>
            match binary_decoded filename with
            | Some decoded => decoded
            | None => filename
            end
        end
    end.

End Decode.

(** A string of code units with no surrogate that is alone. *)
Fixpoint well_formed (s : jsstring) : bool :=
  match s with
  | [] => true
  | c :: r =>
      if is_high c then
        match r with
        | c2 :: r2 => is_low c2 && well_formed r2
        | [] => false
        end
      else negb (is_low c) && (c <? 65536)%N && well_formed r
  end.

(** The code units that the bytes of a string in UTF-8 are, read as
    Latin-1. *)
Definition mojibake (s : jsstring) : jsstring := utf8_bytes s.

(** A scalar value: a code point that is no surrogate. *)
Definition scalar (cp : N) : Prop :=
  cp < 1114112 /\ ~ (55296 <= cp <= 57343).

(** The decoder inside a sequence: every way to go on gives a scalar
    value. *)
Fixpoint good (n : nat) (cp : N) (lower upper : byte) : Prop :=
  match n with
  | O => False
  | S m =>
      forall b, lower <= b <= upper ->
        match m with
        | O => scalar (cp * 64 + b mod 64)
        | S _ => good m (cp * 64 + b mod 64) 128 191
        end
  end.

Definition good_state (st : decoder_state) : Prop :=
  match st with
  | Start => True
  | Continue cp n lower upper => good n cp lower upper
  end.

(** A Ukrainian name, and a [decodeURIComponent] that always throws. *)
Definition plan : jsstring := [1055; 1083; 1072; 1085; 46; 116; 120; 116]%N.

Definition no_uri : jsstring -> option jsstring := fun _ => None.

End FilenameDecoder.

(** ** documents/embedding.service.ts *)

Module EmbeddingService.
Import Js.

(** [ToInt32]: the number modulo [2^32], as a signed integer of 32 bits. *)
Definition toInt32 (z : Z) : Z :=
  let m := (z mod 4294967296)%Z in
  if (m <? 2147483648)%Z then m else (m - 4294967296)%Z.

(** One turn of the loop of both hashes:
    [hash = ((hash << 5) - hash) + char; hash = hash & hash]. The shift and
    the conjunction work on integers of 32 bits; the subtraction and the
    addition are those of numbers, exact at this size. *)
Definition hash_step (hash : Z) (char : N) : Z :=
  let hash1 :=
    (toInt32 (Z.shiftl (toInt32 hash) 5) - hash + Z.of_N char)%Z in
  Z.land (toInt32 hash1) (toInt32 hash1).

Definition hash_loop (s : jsstring) : Z := fold_left hash_step s 0%Z.

(** [advancedHash]: [Math.abs(hash)] *)
Definition advancedHash (s : jsstring) : Z := Z.abs (hash_loop s).

(** [simpleHash]: [Math.abs(hash).toString()] *)
Definition simpleHash (s : jsstring) : jsstring :=
  decimal (Z.to_N (Z.abs (hash_loop s))).

(** [embedding[i] = v] on an array, for an index within it. *)
Fixpoint assign (i : nat) (v : Q) (embedding : list Q) : list Q :=
  match embedding, i with
  | [], _ => []
  | _ :: rest, O => v :: rest
  | x :: rest, S j => x :: assign j v rest
  end.

(** [hash.charCodeAt(i)] for an index within the string. *)
Definition charCodeAt (s : jsstring) (i : nat) : Z := Z.of_N (nth i s 0%N).

(** [createSimpleEmbedding]: the array of 1536 zeros, and the loop that
    writes [(hash.charCodeAt(i % hash.length) - 128) / 128] at the indexes
    below [Math.min(hash.length, 1536)]. The quotient by 128 is exact. *)
Definition createSimpleEmbedding (text : jsstring) : list Q :=
  let hash := simpleHash text in
  fold_left
    (fun embedding i =>
       assign i
         (((charCodeAt hash (i mod List.length hash) - 128) # 128))
         embedding)
    (seq 0 (Nat.min (List.length hash) 1536))
    (repeat (0 # 1) 1536).

(** The polynomial [31^(n-1) c_0 + ... + 31 c_(n-2) + c_(n-1)] of the code
    units of a string. *)
Definition poly31 (s : jsstring) : Z :=
  fold_left (fun h c => (31 * h + Z.of_N c)%Z) s 0%Z.

End EmbeddingService.

(** ** Further notions used in the statements about the services *)

Module MoreFrames.
Import Js Json Model PineconeService DocumentsService Frames.

(** The fingerprints of the documents, in the order of the table. *)
Definition fingerprints (w : World) : list jsstring :=
  flat_map (fun d => match fileHash d with Some h => [h] | None => [] end)
           (documents w).

(** No two documents have the same fingerprint. *)
Definition unique_fingerprints (w : World) : Prop := NoDup (fingerprints w).

(** Nothing but the list of calls has changed. *)
Definition same_local (w w' : World) : Prop :=
  documents w' = documents w /\ chunks w' = chunks w /\ files w' = files w
  /\ users w' = users w /\ dirs w' = dirs w /\ tasks w' = tasks w
  /\ fresh w' = fresh w.

(** The documents of another identifier than [i] are as they were. *)
Definition others_same (i : jsstring) (w w' : World) : Prop :=
  filter (fun d => negb (eqb (id d) i)) (documents w')
  = filter (fun d => negb (eqb (id d) i)) (documents w).

(** The documents are documents that were there. *)
Definition documents_kept (w w' : World) : Prop :=
  exists keep, documents w' = filter keep (documents w).

(** The [k]-th natural numbers from [n] on. *)
Definition indices (n : N) (k : nat) : list N :=
  List.map (fun j => (n + N.of_nat j)%N) (seq 0 k).

(** The records upserted for a document cut into [cs]. *)
Definition records_of (env : Env) (d : Document) (i : jsstring)
  (cs : list jsstring) : list VectorRecord :=
  build_data env d i (N.of_nat (List.length cs)) 0 cs.

(** The chunks of a text in the pipeline: those of Gemini, or, when Gemini
    fails, those of the fallback chunker. *)
Definition pipeline_chunks (env : Env) (content : jsstring)
  : list jsstring :=
  match gemini_semanticChunking env content 1000 with
  | Ok cs => cs
  | Throw _ => Chunker.semanticChunking content 1000 (fraction 1 10)
  end.

(** The calls of a run of the pipeline that succeeds, in their order. *)
Definition pipeline_calls (env : Env) (d : Document) (i : jsstring)
  (content : jsstring) : list Call :=
  [ParseFile (path d) (type d);
   AssistantUpload (path_join env (uploadPath env) (i ++ str "-text.txt"));
   GeminiChunking content 1000]
  ++ List.map (fun e => UpsertRecords (snd e)
                          (records_of env d i (pipeline_chunks env content)))
              (indexes env).

End MoreFrames.

(** ** Further worlds and environments of the examples *)

Module MoreExamples.
Import Js Json Model PineconeService DocumentsService Frames Examples.

(** The same as [example_env], with a text of white space extracted. *)
Definition blank_env : Env :=
  mkEnv None None (Some (str "https://default.example")) None
        (Some (str "https://air.example"))
        (sha256_hex example_env) (path_join example_env)
        (decodeFilename example_env) (Date_now example_env)
        (toISOString example_env) (uuid example_env)
        (fun _ _ => Ok [SP; NL; NL; SP]) (assistant_uploadFile example_env)
        (assistant_deleteFile example_env)
        (gemini_semanticChunking example_env)
        (upsertRecords example_env) (deleteMany example_env)
        (deleteOne example_env) (searchRecords example_env)
        (searchRecords_by_name example_env) (PINECONE_API_KEY example_env).

(** The same as [example_env], with the index [air] refusing the
    deletions. *)
Definition air_keeps_env : Env :=
  mkEnv None None (Some (str "https://default.example")) None
        (Some (str "https://air.example"))
        (sha256_hex example_env) (path_join example_env)
        (decodeFilename example_env) (Date_now example_env)
        (toISOString example_env) (uuid example_env)
        (parseFile example_env) (assistant_uploadFile example_env)
        (assistant_deleteFile example_env)
        (gemini_semanticChunking example_env)
        (upsertRecords example_env)
        (fun i _ => if eqb (index_name i) (str "air")
                    then Throw (Error (str "air is down")) else Ok tt)
        (deleteOne example_env) (searchRecords example_env)
        (searchRecords_by_name example_env) (PINECONE_API_KEY example_env).

(** No index is configured. *)
Definition no_index_env : Env :=
  mkEnv None None None None None
        (sha256_hex example_env) (path_join example_env)
        (decodeFilename example_env) (Date_now example_env)
        (toISOString example_env) (uuid example_env)
        (parseFile example_env) (assistant_uploadFile example_env)
        (assistant_deleteFile example_env)
        (gemini_semanticChunking example_env)
        (upsertRecords example_env) (deleteMany example_env)
        (deleteOne example_env) (searchRecords example_env)
        (searchRecords_by_name example_env) (PINECONE_API_KEY example_env).

End MoreExamples.

(* ================================================================== *)
(** * Part II: lemmas and theorems *)
(* ================================================================== *)

(** ** Facts about strings *)

Module JsFacts.
Import Js.

Lemma len_app (a b : jsstring) : len (a ++ b) = (len a + len b)%Z.
Proof. unfold len. rewrite length_app. lia. Qed.

Lemma len_nonneg (a : jsstring) : (0 <= len a)%Z.
Proof. unfold len. lia. Qed.

Lemma truthy_len (s : jsstring) : truthy s = (len s >? 0)%Z.
Proof. destruct s; reflexivity. Qed.

Lemma dropWhile_length (p : char -> bool) (s : jsstring) :
  List.length (dropWhile p s) <= List.length s.
Proof.
  induction s as [|c r IH]; simpl; [lia|].
  destruct (p c); simpl; lia.
Qed.

Lemma dropWhile_head (p : char -> bool) (s : jsstring) (c : char)
  (r : jsstring) : dropWhile p s = c :: r -> p c = false.
Proof.
  induction s as [|x s IH]; simpl; [discriminate|].
  destruct (p x) eqn:E; [exact IH|].
  intros H. injection H as -> _. exact E.
Qed.

Lemma dropWhile_all (p : char -> bool) (s : jsstring) :
  forallb p s = true -> dropWhile p s = [].
Proof.
  induction s as [|x s IH]; simpl; trivial.
  intros H. apply andb_prop in H as [-> H]. auto.
Qed.

Lemma dropWhile_nil_all (p : char -> bool) (s : jsstring) :
  dropWhile p s = [] -> forallb p s = true.
Proof.
  induction s as [|x s IH]; simpl; trivial.
  destruct (p x); [exact IH|discriminate].
Qed.

Lemma dropWhile_app_all (p : char -> bool) (a b : jsstring) :
  forallb p a = true -> dropWhile p (a ++ b) = dropWhile p b.
Proof.
  induction a as [|x a IH]; simpl; trivial.
  intros H. apply andb_prop in H as [-> H]. auto.
Qed.

Lemma dropWhile_app_keep (p : char -> bool) (a b : jsstring) :
  dropWhile p a <> [] -> dropWhile p (a ++ b) = dropWhile p a ++ b.
Proof.
  induction a as [|x a IH]; simpl; [congruence|].
  destruct (p x); auto.
Qed.

Lemma dropWhile_suffix (p : char -> bool) (s : jsstring) :
  exists pre, s = pre ++ dropWhile p s /\ forallb p pre = true.
Proof.
  induction s as [|x s [pre [E F]]]; simpl.
  - exists []. auto.
  - destruct (p x) eqn:Px.
    + exists (x :: pre). simpl. rewrite Px, F. split; [now f_equal|trivial].
    + exists []. auto.
Qed.

Lemma starts_nonspace_dropWhile (s : jsstring) :
  starts_nonspace s = true -> dropWhile isSpace s = s.
Proof.
  destruct s as [|c r]; simpl; [discriminate|].
  intros H. apply negb_true_iff in H. now rewrite H.
Qed.

Lemma starts_nonspace_app (a b : jsstring) :
  starts_nonspace a = true -> starts_nonspace (a ++ b) = true.
Proof. destruct a; simpl; [discriminate|trivial]. Qed.

Lemma trimEnd_decompose (s : jsstring) :
  exists w, s = trimEnd s ++ w /\ all_space w = true.
Proof.
  unfold trimEnd, all_space.
  destruct (dropWhile_suffix isSpace (rev s)) as [pre [E F]].
  exists (rev pre). split.
  - rewrite <- rev_app_distr, <- E. now rewrite rev_involutive.
  - rewrite forallb_forall in *. intros x Hx. apply F.
    now apply in_rev.
Qed.

Lemma trimEnd_ends (s : jsstring) :
  trimEnd s = [] \/ ends_nonspace (trimEnd s) = true.
Proof.
  unfold ends_nonspace, trimEnd. rewrite rev_involutive.
  destruct (dropWhile isSpace (rev s)) as [|c r] eqn:E; [now left|].
  right. simpl. apply dropWhile_head in E. now rewrite E.
Qed.

Lemma trimEnd_id (s : jsstring) :
  ends_nonspace s = true -> trimEnd s = s.
Proof.
  unfold ends_nonspace, trimEnd. intros H.
  rewrite starts_nonspace_dropWhile by exact H. apply rev_involutive.
Qed.

Lemma all_space_rev (s : jsstring) : all_space (rev s) = all_space s.
Proof.
  unfold all_space. apply eq_true_iff_eq.
  rewrite !forallb_forall. split; intros H x Hx; apply H.
  - now apply in_rev in Hx.
  - now apply in_rev.
Qed.

Lemma trimEnd_app_space (a w : jsstring) :
  all_space w = true -> trimEnd (a ++ w) = trimEnd a.
Proof.
  intros H. unfold trimEnd. rewrite rev_app_distr.
  rewrite dropWhile_app_all; trivial.
  fold (all_space (rev w)). now rewrite all_space_rev.
Qed.

Lemma trimEnd_all_space (s : jsstring) :
  all_space s = true -> trimEnd s = [].
Proof.
  intros H. unfold trimEnd. rewrite dropWhile_all; trivial.
  fold (all_space (rev s)). now rewrite all_space_rev.
Qed.

Lemma trim_all_space (s : jsstring) : all_space s = true -> trim s = [].
Proof. intros H. unfold trim. now rewrite trimEnd_all_space. Qed.

Lemma trimEnd_length (s : jsstring) :
  List.length (trimEnd s) <= List.length s.
Proof.
  unfold trimEnd. rewrite length_rev.
  etransitivity; [apply dropWhile_length|]. now rewrite length_rev.
Qed.

Lemma trim_length (s : jsstring) : List.length (trim s) <= List.length s.
Proof.
  unfold trim, trimStart.
  etransitivity; [apply dropWhile_length|apply trimEnd_length].
Qed.

Lemma ends_nonspace_app (a b : jsstring) :
  ends_nonspace b = true -> ends_nonspace (a ++ b) = true.
Proof.
  unfold ends_nonspace. rewrite rev_app_distr. apply starts_nonspace_app.
Qed.

Lemma ends_nonspace_suffix (a b : jsstring) :
  b <> [] -> ends_nonspace (a ++ b) = ends_nonspace b.
Proof.
  intros Hb. unfold ends_nonspace. rewrite rev_app_distr.
  destruct (rev b) as [|x l] eqn:E; [|reflexivity].
  apply (f_equal (@rev _)) in E. rewrite rev_involutive in E. now subst.
Qed.

(** [trim] leaves a string that starts and ends with no white space. *)
Lemma trim_shape (s : jsstring) :
  trim s = [] \/
  (starts_nonspace (trim s) = true /\ ends_nonspace (trim s) = true).
Proof.
  unfold trim, trimStart.
  destruct (dropWhile isSpace (trimEnd s)) as [|c r] eqn:E; [now left|].
  right. split.
  - simpl. apply dropWhile_head in E. now rewrite E.
  - destruct (dropWhile_suffix isSpace (trimEnd s)) as [pre [E1 _]].
    rewrite E in E1.
    destruct (trimEnd_ends s) as [H|H].
    + rewrite H in E. discriminate.
    + rewrite E1 in H. rewrite ends_nonspace_suffix in H; [exact H|discriminate].
Qed.

Lemma trim_id (s : jsstring) :
  starts_nonspace s = true -> ends_nonspace s = true -> trim s = s.
Proof.
  intros H1 H2. unfold trim, trimStart.
  rewrite trimEnd_id by exact H2. now apply starts_nonspace_dropWhile.
Qed.

Lemma trim_nil_all_space (s : jsstring) : trim s = [] -> all_space s = true.
Proof.
  unfold trim, trimStart. intros H.
  apply dropWhile_nil_all in H.
  destruct (trimEnd_decompose s) as [w [E F]].
  rewrite E. unfold all_space in *. rewrite forallb_app. now rewrite H, F.
Qed.

End JsFacts.

(** ** Facts about [split(/\s+/)] and the words of a string *)

Module WordFacts.
Import Js JsFacts.

Lemma split_ws_ne (s : jsstring) : split_ws s <> [].
Proof.
  induction s as [|c r IH]; simpl; [discriminate|].
  destruct (isSpace c).
  - destruct (starts_with_space r); [exact IH|discriminate].
  - destruct (split_ws r); discriminate.
Qed.




















End WordFacts.

(** ** Facts about the text cleaner *)

Module TextCleanerFacts.
Import Js TextCleaner.

Lemma lookahead_run (r : jsstring) :
  match r with
  | c2 :: c3 :: _ => N.eqb c2 NL && N.eqb c3 NL
  | _ => false
  end = (2 <=? nl_run r).
Proof.
  destruct r as [|c2 [|c3 r]]; simpl; trivial.
  - destruct (N.eqb c2 NL); reflexivity.
  - destruct (N.eqb c2 NL); simpl; trivial.
    destruct (N.eqb c3 NL); reflexivity.
Qed.

Lemma replace_nl3_step (c : char) (r : jsstring) :
  replace_nl3 false (c :: r) =
  if N.eqb c NL && (2 <=? nl_run r)
  then NL :: NL :: replace_nl3 true r
  else c :: replace_nl3 false r.
Proof.
  rewrite <- lookahead_run. simpl.
  destruct (N.eqb c NL); simpl; trivial.
  destruct r as [|c2 [|c3 r]]; trivial.
Qed.

Lemma no_triple_cons (c : char) (s : jsstring) :
  no_triple_nl (c :: s) =
  negb (N.eqb c NL && (2 <=? nl_run s)) && no_triple_nl s.
Proof.
  rewrite <- lookahead_run.
  destruct s as [|c2 [|c3 s]]; simpl.
  - now rewrite andb_false_r.
  - now rewrite andb_false_r.
  - now rewrite andb_assoc.
Qed.

Lemma replace_nl3_shape (s : jsstring) :
  (nl_run (replace_nl3 true s) = 0
   /\ no_triple_nl (replace_nl3 true s) = true)
  /\ (nl_run (replace_nl3 false s) = Nat.min (nl_run s) 2
      /\ no_triple_nl (replace_nl3 false s) = true).
Proof.
  induction s as [|c r [[IHt1 IHt2] [IHf1 IHf2]]].
  - simpl. auto.
  - split.
    + simpl. destruct (N.eqb c NL) eqn:E; [auto|].
      split; [simpl; now rewrite E|].
      rewrite no_triple_cons, E. simpl. exact IHf2.
    + rewrite replace_nl3_step.
      destruct (N.eqb c NL) eqn:E; destruct (2 <=? nl_run r) eqn:L;
        cbn [andb]; cbv iota.
      * apply Nat.leb_le in L. split.
        -- cbn [nl_run]. change (N.eqb NL NL) with true. cbv iota.
           rewrite E, IHt1. lia.
        -- rewrite !no_triple_cons. change (N.eqb NL NL) with true.
           cbn [nl_run]. change (N.eqb NL NL) with true. cbv iota.
           rewrite IHt2, IHt1. reflexivity.
      * apply Nat.leb_gt in L. split.
        -- cbn [nl_run]. rewrite E, IHf1. lia.
        -- rewrite no_triple_cons, E, IHf1, IHf2.
           replace (2 <=? Nat.min (nl_run r) 2) with false; trivial.
           symmetry. apply Nat.leb_gt. lia.
      * split; [cbn [nl_run]; now rewrite E|].
        rewrite no_triple_cons, E. exact IHf2.
      * split; [cbn [nl_run]; now rewrite E|].
        rewrite no_triple_cons, E. exact IHf2.
Qed.




Lemma replace_nl3_true_step (c : char) (r : jsstring) :
  replace_nl3 true (c :: r) =
  if N.eqb c NL then replace_nl3 true r else c :: replace_nl3 false r.
Proof. reflexivity. Qed.






Lemma cleanTextLineBreaks_replace (text : jsstring) :
  cleanTextLineBreaks text = replace_nl3 false text.
Proof. destruct text; reflexivity. Qed.

End TextCleanerFacts.

(** ** Facts about [getLastWords] *)

Module LastWordsFacts.
Import Js JsFacts WordFacts Chunker.


Lemma is_suffix_app {A : Type} (p b a : list A) :
  is_suffix b a -> is_suffix b (p ++ a).
Proof. intros [q ->]. exists (p ++ q). now rewrite app_assoc. Qed.


(** *** The window [text.slice(-maxLength)] *)



Lemma slice_from_len (m : Z) (s : jsstring) :
  (1 <= m)%Z -> (len (slice_from (- m) s) <= m)%Z.
Proof.
  intros Hm. unfold slice_from, len.
  replace (- m <? 0)%Z with true by (symmetry; apply Z.ltb_lt; lia).
  rewrite length_skipn. fold (len s). pose proof (len_nonneg s). unfold len in *. lia.
Qed.

Lemma slice_from_zero (s : jsstring) : slice_from (- 0) s = s.
Proof.
  unfold slice_from. simpl.
  rewrite Z.min_l by apply len_nonneg. reflexivity.
Qed.

(** *** The sentence boundary [/[.!?]\s+(.+)$/] *)

Lemma space_run_split (r : jsstring) (j : nat) :
  1 <= j <= space_run r ->
  exists p c, r = p ++ c :: skipn j r /\ isSpace c = true.
Proof.
  revert r. induction j as [|j IH]; intros r [H1 H2]; [lia|].
  destruct r as [|x r]; simpl in H2; [lia|].
  destruct (isSpace x) eqn:Hx; [|lia].
  destruct j as [|j].
  - exists [], x. simpl. auto.
  - destruct (IH r ltac:(lia)) as [p [c [E Hc]]].
    exists (x :: p), c. split; [|exact Hc].
    cbn [skipn app]. now f_equal.
Qed.

Lemma group_after_spec (k : nat) (r g : jsstring) :
  group_after k r = Some g ->
  exists j, 1 <= j <= k /\ g = skipn j r /\ dot_plus_to_end g = true.
Proof.
  induction k as [|k IH]; [discriminate|].
  cbn [group_after].
  destruct (dot_plus_to_end (skipn (S k) r)) eqn:E.
  - intros H. injection H as <-. exists (S k). repeat split; trivial; lia.
  - intros H. destruct (IH H) as [j [Hj [Eg Hd]]].
    exists j. repeat split; trivial; lia.
Qed.

(** Group 1 of a match is what follows a white space of the string, it is not
    empty and holds no line terminator. *)
Lemma sentence_match_spec (s g : jsstring) :
  sentence_match s = Some g ->
  exists p c, s = p ++ c :: g /\ isSpace c = true /\ p <> []
              /\ dot_plus_to_end g = true.
Proof.
  induction s as [|x s IH]; [discriminate|].
  cbn [sentence_match].
  assert (K : sentence_match s = Some g ->
              exists p c, x :: s = p ++ c :: g /\ isSpace c = true /\ p <> []
                          /\ dot_plus_to_end g = true).
  { intros H. destruct (IH H) as [p [c [E [Hc [_ Hd]]]]].
    exists (x :: p), c. repeat split; trivial; [|discriminate].
    cbn [app]. now f_equal. }
  destruct (isTerminator x); [|exact K].
  destruct (group_after (space_run s) s) as [g'|] eqn:G; [|exact K].
  intros H. injection H as <-.
  apply group_after_spec in G as [j [Hj [Eg Hd]]].
  destruct (space_run_split s j Hj) as [p [c [E Hc]]].
  exists (x :: p), c. repeat split; trivial; [|discriminate].
  cbn [app]. f_equal. now rewrite Eg.
Qed.

Lemma sentence_match_length (s g : jsstring) :
  sentence_match s = Some g -> List.length g + 2 <= List.length s.
Proof.
  intros H. destruct (sentence_match_spec s g H) as [p [c [E [_ [Hp _]]]]].
  rewrite E, length_app. simpl.
  destruct p; [congruence|simpl; lia].
Qed.

(** No match on a string that ends with a line terminator. *)
Lemma sentence_match_ends_lt (s : jsstring) (c : char) :
  isLineTerminator c = true -> sentence_match (s ++ [c]) = None.
Proof.
  intros Hc. destruct (sentence_match (s ++ [c])) as [g|] eqn:E; trivial.
  exfalso. destruct (sentence_match_spec _ _ E) as [p [x [E1 [_ [_ Hd]]]]].
  unfold dot_plus_to_end in Hd. apply andb_prop in Hd as [Hg Ha].
  destruct g as [|g0 gs] using rev_ind; [discriminate|]. clear IHgs.
  rename gs into g', g0 into y.
  replace (p ++ x :: g' ++ [y]) with ((p ++ x :: g') ++ [y]) in E1
    by (now rewrite <- app_assoc).
  apply app_inj_tail in E1 as [_ <-].
  rewrite forallb_app in Ha. apply andb_prop in Ha as [_ Ha].
  simpl in Ha. rewrite Hc in Ha. discriminate.
Qed.

(** *** The loop over the words *)

Lemma collect_words_spec (m : number) (l : list jsstring)
  (result : jsstring) :
  exists taken rest,
    l = taken ++ rest
    /\ collect_words l result m = sp_concat (rev taken) ++ result
    /\ match rest with
       | [] => True
       | w :: _ =>
           gt_number (len (w ++ SP :: sp_concat (rev taken) ++ result)) m
           = true
       end.
Proof.
  revert result. induction l as [|w l IH]; intros result.
  - exists [], []. auto.
  - cbn [collect_words].
    destruct (gt_number (len (w ++ SP :: result)) m) eqn:G.
    + exists [], (w :: l). repeat split. exact G.
    + destruct (IH (w ++ SP :: result)) as [taken [rest [E1 [E2 E3]]]].
      assert (A : sp_concat (rev (w :: taken)) ++ result
                  = sp_concat (rev taken) ++ w ++ SP :: result).
      { cbn [rev]. unfold sp_concat.
        rewrite List.map_app, List.concat_app. cbn [List.map List.concat].
        rewrite app_nil_r, <- !app_assoc. reflexivity. }
      exists (w :: taken), rest. split; [cbn [app]; now f_equal|].
      split; [now rewrite E2, A|].
      destruct rest; [trivial|]. now rewrite A.
Qed.

Lemma collect_words_len (m : Z) (l : list jsstring) (result : jsstring) :
  (len result <= m)%Z -> (len (collect_words l result m) <= m)%Z.
Proof.
  revert result. induction l as [|w l IH]; intros result H; [exact H|].
  cbn [collect_words gt_number].
  destruct (len (w ++ SP :: result) >? m)%Z eqn:E; [exact H|].
  apply IH. rewrite Z.gtb_ltb in E. apply Z.ltb_ge in E. exact E.
Qed.


Lemma sp_concat_trim_len (ws : list jsstring) :
  (1 <= len (sp_concat ws))%Z ->
  (len (trim (sp_concat ws) ++ [SP]) <= len (sp_concat ws))%Z.
Proof.
  induction ws as [|w ws' _] using rev_ind.
  - intros H. unfold sp_concat, len in H. simpl in H. lia.
  - unfold sp_concat.
    rewrite List.map_app, List.concat_app. cbn [List.map List.concat].
    rewrite app_nil_r, app_assoc. intros _.
    set (y := List.concat (List.map (fun w => w ++ [SP]) ws') ++ w).
    unfold trim. rewrite trimEnd_app_space by reflexivity.
    pose proof (trim_length y) as T. unfold trim in T.
    rewrite (len_app y), (len_app (trimStart (trimEnd y))).
    change (len [SP]) with 1%Z. unfold len. lia.
Qed.


(** *** The sentence boundary, completely *)









(** *** The three results of [getLastWords] *)




(** The result is never longer than a positive [maxLength]. *)
Lemma getLastWords_len (text : jsstring) (m : Z) :
  (1 <= m)%Z -> (len (getLastWords text m) <= m)%Z.
Proof.
  intros Hm. unfold getLastWords. cbn [le_number negate slice].
  destruct (len text <=? m)%Z eqn:L; [now apply Z.leb_le|].
  destruct (sentence_match (slice_from (- m) text)) as [g|] eqn:E.
  - apply sentence_match_length in E.
    pose proof (slice_from_len m text Hm) as W.
    rewrite len_app. change (len [SP]) with 1%Z. unfold len in *. lia.
  - destruct (collect_words_spec m (rev (split_ws text)) [])
      as [taken [rest [E1 [E2 _]]]].
    rewrite app_nil_r in E2.
    assert (B0 : (len [] <= m)%Z) by (change (len []) with 0%Z; lia).
    pose proof (collect_words_len m (rev (split_ws text)) [] B0) as B.
    rewrite E2 in *.
    destruct (Z.le_gt_cases 1 (len (sp_concat (rev taken)))) as [P|P].
    + pose proof (sp_concat_trim_len _ P). lia.
    + assert (Z0 : sp_concat (rev taken) = []).
      { destruct (sp_concat (rev taken)); trivial.
        unfold len in P. simpl in P. lia. }
      rewrite Z0. change (len (trim [] ++ [SP])) with 1%Z. lia.
Qed.


(** With [maxLength] zero the window is the whole text; on a buffer that
    ends with a line feed the result is the single space. *)
Lemma getLastWords_zero (buf : jsstring) :
  getLastWords (buf ++ [NL]) 0 = [SP].
Proof.
  unfold getLastWords. cbn [le_number negate slice].
  replace (len (buf ++ [NL]) <=? 0)%Z with false.
  2:{ symmetry. apply Z.leb_gt. rewrite len_app. pose proof (len_nonneg buf).
      change (len [NL]) with 1%Z. lia. }
  change (- 0)%Z with (- (0))%Z. rewrite slice_from_zero.
  rewrite sentence_match_ends_lt by reflexivity.
  pose proof (split_ws_ne (buf ++ [NL])) as Hne.
  destruct (rev (split_ws (buf ++ [NL]))) as [|w l] eqn:E.
  - apply (f_equal (@rev _)) in E. rewrite rev_involutive in E. contradiction.
  - cbn [collect_words gt_number].
    replace (len (w ++ [SP]) >? 0)%Z with true; [reflexivity|].
    symmetry. rewrite Z.gtb_ltb. apply Z.ltb_lt. rewrite len_app.
    pose proof (len_nonneg w). change (len [SP]) with 1%Z. lia.
Qed.

End LastWordsFacts.

(** ** Facts about the paragraphs of a text *)

Module ParagraphFacts.
Import Js JsFacts WordFacts Chunker.

Lemma space_not_terminator (c : char) :
  isSpace c = true -> isTerminator c = false.
Proof.
  intros H. unfold isTerminator.
  destruct (N.eqb_spec c 46) as [->|_]; [discriminate H|].
  destruct (N.eqb_spec c 33) as [->|_]; [discriminate H|].
  destruct (N.eqb_spec c 63) as [->|_]; [discriminate H|].
  reflexivity.
Qed.

Lemma nl_is_space (c : char) : N.eqb c NL = true -> isSpace c = true.
Proof. intros H. apply N.eqb_eq in H. now subst. Qed.

Lemma last_nl_bound (r : jsstring) (k : nat) :
  last_nl r = Some k -> 1 <= k <= space_run r /\ k <= List.length r.
Proof.
  revert k. induction r as [|c r IH]; intros k; [discriminate|].
  cbn [last_nl space_run List.length].
  destruct (isSpace c); [|discriminate].
  destruct (last_nl r) as [k'|].
  - intros H. injection H as <-. destruct (IH k' eq_refl). lia.
  - destruct (N.eqb c NL); [|discriminate].
    intros H. injection H as <-. lia.
Qed.

Lemma total_cons (p : jsstring) (l : list jsstring) :
  total (p :: l) = List.length p + 2 + total l.
Proof. reflexivity. Qed.

Lemma total_nil : total [] = 0.
Proof. reflexivity. Qed.

(** Every piece weighs what it takes of the text, and a separator takes two
    code units or more. *)
Lemma split_para_go_total (s : jsstring) :
  forall skip cur, skip <= List.length s ->
    total (split_para_go skip cur s) + skip
    <= List.length cur + List.length s + 2.
Proof.
  induction s as [|c r IH]; intros skip cur Hs.
  - cbn [split_para_go List.length] in *.
    rewrite total_cons, length_rev. change (total []) with 0. lia.
  - cbn [split_para_go]. cbn [List.length] in Hs |- *. destruct skip as [|k].
    + assert (K : total (split_para_go 0 (c :: cur) r) + 0
                  <= List.length cur + S (List.length r) + 2).
      { specialize (IH 0 (c :: cur) ltac:(lia)).
        cbn [List.length] in IH. lia. }
      destruct (N.eqb c NL); [|exact K].
      destruct (last_nl r) as [k|] eqn:L; [|exact K].
      apply last_nl_bound in L as [L1 L2].
      specialize (IH k [] L2). cbn [List.length] in IH.
      rewrite total_cons, length_rev. lia.
    + specialize (IH k cur ltac:(lia)). lia.
Qed.

Lemma total_trim_filter (l : list jsstring) :
  total (filter (fun p => (len p >? 0)%Z) (List.map trim l)) <= total l.
Proof.
  induction l as [|p l IH]; [reflexivity|].
  cbn [List.map filter].
  pose proof (trim_length p).
  destruct (len (trim p) >? 0)%Z; rewrite !total_cons; lia.
Qed.

Lemma paragraphs_total (text : jsstring) :
  total (paragraphs_of text) <= List.length text + 2.
Proof.
  unfold paragraphs_of, split_para.
  etransitivity; [apply total_trim_filter|].
  pose proof (split_para_go_total text 0 [] ltac:(lia)) as T.
  cbn [List.length] in T. lia.
Qed.

(** The paragraphs are trimmed and not empty. *)
Lemma paragraphs_good (text : jsstring) :
  Forall (fun p => starts_nonspace p = true /\ ends_nonspace p = true)
         (paragraphs_of text).
Proof.
  unfold paragraphs_of. apply Forall_forall. intros p Hp.
  apply filter_In in Hp as [Hp Hl].
  apply in_map_iff in Hp as [q [<- _]].
  destruct (trim_shape q) as [E|H]; [|exact H].
  rewrite E in Hl. discriminate.
Qed.

(** The pieces of a text of white space are of white space. *)
Lemma split_para_go_in (s : jsstring) :
  forall skip cur p x, In p (split_para_go skip cur s) -> In x p ->
    In x cur \/ In x s.
Proof.
  induction s as [|c r IH]; intros skip cur p x Hp Hx.
  - simpl in Hp. destruct Hp as [<-|[]]. left. now apply in_rev.
  - cbn [split_para_go] in Hp.
    assert (K : In p (split_para_go 0 (c :: cur) r) ->
                In x cur \/ In x (c :: r)).
    { intros H. destruct (IH _ _ _ _ H Hx) as [[<-|G]|G]; simpl; auto. }
    destruct skip as [|k].
    + destruct (N.eqb c NL); [|auto].
      destruct (last_nl r); [|auto].
      destruct Hp as [<-|Hp]; [left; now apply in_rev|].
      destruct (IH _ _ _ _ Hp Hx) as [[]|G]. right. now right.
    + destruct (IH _ _ _ _ Hp Hx) as [G|G]; [now left|right; now right].
Qed.

Lemma paragraphs_of_all_space (text : jsstring) :
  all_space text = true -> paragraphs_of text = [].
Proof.
  intros H. unfold paragraphs_of.
  assert (F : forall q, In q (List.map trim (split_para text)) -> q = []).
  { intros q Hq. apply in_map_iff in Hq as [p [<- Hp]].
    apply trim_all_space. unfold all_space in *.
    rewrite forallb_forall in *. intros x Hx.
    destruct (split_para_go_in text 0 [] p x Hp Hx) as [[]|G]. auto. }
  induction (List.map trim (split_para text)) as [|q l IH]; [reflexivity|].
  cbn [filter]. rewrite (F q (or_introl eq_refl)). cbn.
  apply IH. intros q' Hq'. apply F. now right.
Qed.

(** A text whose pieces are all of white space is of white space. *)
Lemma split_para_go_all_space (s : jsstring) :
  forall skip cur, skip <= space_run s ->
    forallb all_space (split_para_go skip cur s) = true ->
    all_space cur = true /\ all_space s = true.
Proof.
  induction s as [|c r IH]; intros skip cur Hs H.
  - simpl in H. rewrite andb_true_r, all_space_rev in H. auto.
  - cbn [split_para_go] in H.
    assert (K : forallb all_space (split_para_go 0 (c :: cur) r) = true ->
                all_space cur = true /\ all_space (c :: r) = true).
    { intros G. destruct (IH 0 (c :: cur) ltac:(lia) G) as [G1 G2].
      simpl in G1. apply andb_prop in G1 as [G0 G1].
      split; [exact G1|]. simpl. now rewrite G0, G2. }
    destruct skip as [|k].
    + destruct (N.eqb c NL) eqn:Ec; [|auto].
      destruct (last_nl r) as [k|] eqn:L; [|auto].
      apply last_nl_bound in L as [L1 _].
      cbn [forallb] in H. apply andb_prop in H as [H1 H2].
      rewrite all_space_rev in H1.
      destruct (IH k [] ltac:(lia) H2) as [_ G2].
      split; [exact H1|]. simpl. now rewrite (nl_is_space c Ec), G2.
    + cbn [space_run] in Hs. destruct (isSpace c) eqn:Hc; [|lia].
      destruct (IH k cur ltac:(lia) H) as [G1 G2].
      split; [exact G1|]. simpl. now rewrite Hc, G2.
Qed.

Lemma paragraphs_of_nil (text : jsstring) :
  paragraphs_of text = [] -> all_space text = true.
Proof.
  unfold paragraphs_of, split_para. intros H.
  apply (split_para_go_all_space text 0 []); [lia|].
  apply forallb_forall. intros p Hp.
  apply trim_nil_all_space.
  destruct (trim p) as [|c q] eqn:E; trivial.
  exfalso.
  assert (I : In (trim p) (filter (fun p => (len p >? 0)%Z)
                             (List.map trim (split_para_go 0 [] text)))).
  { apply filter_In. split; [now apply in_map|]. now rewrite E. }
  rewrite H in I. destruct I.
Qed.

End ParagraphFacts.

(** ** Facts about the loops of the chunker *)

Module LoopFacts.
Import Js JsFacts WordFacts Chunker LastWordsFacts ParagraphFacts.

(** *** The sentence loop on a text of white space *)

Lemma match_sentences_no_terminator (s : jsstring) :
  forallb (fun c => negb (isTerminator c)) s = true ->
  forall acc, match_sentences_go Skip [] s = []
              /\ match_sentences_go Body acc s = [].
Proof.
  induction s as [|c r IH]; intros H acc; [auto|].
  cbn [forallb] in H. apply andb_prop in H as [H1 H2].
  apply negb_true_iff in H1. cbn [match_sentences_go]. rewrite H1.
  split; apply (IH H2).
Qed.

Lemma sentences_of_all_space (text : jsstring) :
  all_space text = true -> sentences_of text = [text].
Proof.
  intros H. unfold sentences_of.
  destruct (match_sentences_no_terminator text) with (acc := @nil char)
    as [E _]; [|now rewrite E].
  unfold all_space in H. rewrite forallb_forall in *.
  intros x Hx. apply negb_true_iff, space_not_terminator. auto.
Qed.

Lemma sentenceBasedChunking_all_space (text : jsstring) (S : Z) (O : number) :
  all_space text = true -> sentenceBasedChunking text S O = [].
Proof.
  intros H. unfold sentenceBasedChunking.
  rewrite sentences_of_all_space by exact H.
  cbn [fold_left]. unfold sentence_step.
  rewrite (trim_all_space text H). cbn [currentChunk truthy app].
  rewrite andb_false_r. reflexivity.
Qed.

(** *** The recorded loop is the loop of the source *)

Lemma paragraph_step_erase (S : Z) (O : number) (st : traced_state) (p : jsstring)
  (last : bool) :
  paragraph_step S O (erase st) p last
  = erase (paragraph_step_traced S O st p last).
Proof.
  unfold paragraph_step, paragraph_step_traced, erase.
  cbn [currentChunk previousContext chunks].
  destruct ((len (t_currentChunk st ++ p) >? S)%Z
            && (len (t_currentChunk st) >? 0)%Z);
    cbn [currentChunk previousContext chunks t_currentChunk
         t_previousContext pushes];
    match goal with |- context [if ?b then _ else _] => destruct b end;
    cbn [currentChunk previousContext chunks t_currentChunk
         t_previousContext pushes];
    rewrite ?List.map_app; reflexivity.
Qed.

Lemma paragraph_loop_erase (S : Z) (O : number) (ps : list jsstring) :
  forall st, paragraph_loop S O (erase st) ps
             = erase (paragraph_loop_traced S O st ps).
Proof.
  induction ps as [|p rest IH]; intros st; [reflexivity|].
  cbn [paragraph_loop paragraph_loop_traced].
  rewrite paragraph_step_erase. apply IH.
Qed.

(** *** The buffers *)

Lemma good_buffer_extend (b p : jsstring) :
  (b = [] \/ good_buffer b) -> starts_nonspace p = true ->
  good_buffer (b ++ p ++ [NL; NL]).
Proof.
  intros Hb Hp. split.
  - destruct Hb as [->|[Hb _]].
    + cbn [app]. now apply starts_nonspace_app.
    + now apply starts_nonspace_app.
  - exists (b ++ p ++ [NL]). now rewrite <- !app_assoc.
Qed.

Lemma good_buffer_trim (b : jsstring) :
  good_buffer b -> (len (trim b) >? 0)%Z = true.
Proof.
  intros [Hb _]. rewrite <- truthy_len.
  destruct (trim b) eqn:E; [|reflexivity].
  apply trim_nil_all_space in E.
  destruct b as [|c b]; [discriminate|].
  simpl in Hb, E. apply negb_true_iff in Hb. rewrite Hb in E. discriminate.
Qed.

(** *** The chain of overlaps *)

Lemma chained_app (O : number) (l l' : list push) (c0 c1 c2 : jsstring) :
  chained O c0 l c1 -> chained O c1 l' c2 -> chained O c0 (l ++ l') c2.
Proof.
  revert c0. induction l as [|pu l IH]; intros c0.
  - cbn. now intros ->.
  - cbn [chained app]. intros [H1 [H2 H3]] H.
    split; [exact H1|split; [exact H2|now apply IH]].
Qed.

Lemma chained_one (O : number) (c b : jsstring) :
  good_buffer b -> chained O c [mkPush c b] (getLastWords b O).
Proof. intros H. cbn. auto. Qed.

Lemma paragraph_step_traced_inv (S : Z) (O : number) (st : traced_state)
  (p : jsstring) :
  loop_inv O st -> starts_nonspace p = true ->
  loop_inv O (paragraph_step_traced S O st p false).
Proof.
  intros [Hc Hb] Hp. unfold paragraph_step_traced. cbn [andb].
  destruct ((len (t_currentChunk st ++ p) >? S)%Z
            && (len (t_currentChunk st) >? 0)%Z) eqn:E.
  - apply andb_prop in E as [_ E].
    destruct Hb as [Hb|Hb]; [rewrite Hb in E; discriminate|].
    split; cbn [pushes t_previousContext t_currentChunk].
    + eapply chained_app; [exact Hc|]. now apply chained_one.
    + right. apply (good_buffer_extend [] p); auto.
  - split; cbn [pushes t_previousContext t_currentChunk]; [exact Hc|].
    right. now apply good_buffer_extend.
Qed.

Lemma paragraph_step_traced_last (S : Z) (O : number) (st : traced_state)
  (p : jsstring) :
  loop_inv O st -> starts_nonspace p = true ->
  exists c1 l, pushes (paragraph_step_traced S O st p true) = l ++ [c1]
               /\ exists c, chained O [] (l ++ [c1]) c.
Proof.
  intros [Hc Hb] Hp. unfold paragraph_step_traced. cbn [andb].
  destruct ((len (t_currentChunk st ++ p) >? S)%Z
            && (len (t_currentChunk st) >? 0)%Z) eqn:E;
    cbn [pushes t_previousContext t_currentChunk].
  - apply andb_prop in E as [_ E].
    destruct Hb as [Hb|Hb]; [rewrite Hb in E; discriminate|].
    assert (G : good_buffer (p ++ [NL; NL]))
      by (apply (good_buffer_extend [] p); auto).
    rewrite (good_buffer_trim _ G).
    cbn [pushes t_previousContext t_currentChunk].
    eexists _, _. split; [reflexivity|]. eexists.
    eapply chained_app; [|now apply chained_one].
    eapply chained_app; [exact Hc|]. now apply chained_one.
  - assert (G : good_buffer (t_currentChunk st ++ p ++ [NL; NL]))
      by now apply good_buffer_extend.
    rewrite (good_buffer_trim _ G).
    cbn [pushes t_previousContext t_currentChunk].
    eexists _, _. split; [reflexivity|]. eexists.
    eapply chained_app; [exact Hc|]. now apply chained_one.
Qed.

Lemma paragraph_loop_traced_chained (S : Z) (O : number) (ps : list jsstring) :
  Forall (fun p => starts_nonspace p = true) ps ->
  forall st, loop_inv O st ->
    (exists c, chained O [] (pushes (paragraph_loop_traced S O st ps)) c)
    /\ (ps <> [] -> pushes (paragraph_loop_traced S O st ps) <> []).
Proof.
  induction ps as [|p rest IH]; intros Hps st Hst.
  - split; [|congruence]. destruct Hst as [Hc _]. eexists. exact Hc.
  - inversion Hps as [|? ? Hp Hrest]; subst.
    cbn [paragraph_loop_traced]. destruct rest as [|q rest].
    + cbn [paragraph_loop_traced].
      destruct (paragraph_step_traced_last S O st p Hst Hp)
        as [c1 [l [E [c Hc]]]].
      rewrite E. split; [now exists c|].
      intros _ H. now apply app_eq_nil in H as [_ H].
    + destruct (IH Hrest _ (paragraph_step_traced_inv S O st p Hst Hp))
        as [H1 H2].
      split; [exact H1|]. intros _. apply H2. discriminate.
Qed.

Lemma loop_inv_init (O : number) : loop_inv O (mkTraced [] [] []).
Proof. split; [reflexivity|now left]. Qed.

Lemma paragraphs_start (text : jsstring) :
  Forall (fun p => starts_nonspace p = true) (paragraphs_of text).
Proof.
  eapply Forall_impl; [|apply paragraphs_good]. now intros p [H _].
Qed.

(** The chunks returned are the pushes of the paragraph loop: the sentence
    loop is entered on a text of white space only, and pushes nothing. *)
Lemma semanticChunking_pushes (text : jsstring) (S : Z) (r : binary64) :
  semanticChunking text S r = List.map emitted (semantic_pushes text S r).
Proof.
  unfold semanticChunking, semantic_pushes.
  set (O := overlap_size S r).
  change (mkLoop [] [] []) with (erase (mkTraced [] [] [])).
  rewrite paragraph_loop_erase. cbn [erase chunks].
  destruct (paragraph_loop_traced_chained S O (paragraphs_of text)
              (paragraphs_start text) _ (loop_inv_init O)) as [_ Hne].
  destruct (pushes (paragraph_loop_traced S O (mkTraced [] [] [])
                      (paragraphs_of text))) as [|pu l] eqn:E.
  - cbn [List.map List.length Z.of_nat Z.eqb andb].
    destruct (len text >? 0)%Z; [|reflexivity].
    apply sentenceBasedChunking_all_space, paragraphs_of_nil.
    destruct (paragraphs_of text); [reflexivity|].
    exfalso. apply Hne; [discriminate|reflexivity].
  - reflexivity.
Qed.



Lemma trimEnd_app_keep (a b : jsstring) :
  trimEnd b <> [] -> trimEnd (a ++ b) = a ++ trimEnd b.
Proof.
  unfold trimEnd. intros H. rewrite rev_app_distr.
  rewrite dropWhile_app_keep.
  - now rewrite rev_app_distr, rev_involutive.
  - intros E. apply H. now rewrite E.
Qed.

Lemma good_buffer_trimEnd (b : jsstring) :
  good_buffer b -> starts_nonspace (trimEnd b) = true.
Proof.
  intros [Hb _]. destruct (trimEnd_decompose b) as [w [E F]].
  destruct (trimEnd b) as [|x t].
  - cbn [app] in E. subst w. destruct b as [|c b]; [discriminate|].
    simpl in Hb, F. apply negb_true_iff in Hb. rewrite Hb in F. discriminate.
  - destruct b as [|c b]; [discriminate|].
    cbn [app] in E. injection E as -> _. exact Hb.
Qed.

(** A chunk is the overlap, less the white space it starts with, followed
    by the buffer, less the white space it ends with. *)
Lemma emitted_split (ctx buf : jsstring) :
  good_buffer buf ->
  emitted (mkPush ctx buf) = trimStart ctx ++ trimEnd buf.
Proof.
  intros G. pose proof (good_buffer_trimEnd buf G) as T.
  unfold emitted, trim. cbn [push_context push_buffer].
  rewrite trimEnd_app_keep by (destruct (trimEnd buf); discriminate).
  unfold trimStart at 1.
  destruct (dropWhile isSpace ctx) as [|x t] eqn:E.
  - rewrite dropWhile_app_all by now apply dropWhile_nil_all.
    rewrite starts_nonspace_dropWhile by exact T.
    unfold trimStart. now rewrite E.
  - rewrite dropWhile_app_keep by (rewrite E; discriminate).
    unfold trimStart. reflexivity.
Qed.

(** The overlap written in front of a chunk is no longer than
    [overlapSize]. *)
Lemma overlap_len (O : number) (buf : jsstring) :
  le_number 0 O = true -> good_buffer buf ->
  le_number (len (trimStart (getLastWords buf O))) O = true.
Proof.
  intros HO [_ [b' ->]].
  destruct O as [z| | |]; try discriminate; [|reflexivity].
  cbn [le_number] in *. apply Z.leb_le in HO. apply Z.leb_le.
  destruct (Z.eq_dec z 0) as [->|Hne].
  - rewrite getLastWords_zero. cbv. discriminate.
  - pose proof (getLastWords_len (b' ++ [NL]) z ltac:(lia)) as L.
    pose proof (dropWhile_length isSpace (getLastWords (b' ++ [NL]) z)).
    unfold trimStart, len in *. lia.
Qed.



(** *** The loop on a short text *)

Lemma paragraph_loop_traced_short (S : Z) (O : number) (ps : list jsstring) :
  Forall (fun p => starts_nonspace p = true) ps -> ps <> [] ->
  forall cur,
    (cur = [] \/ good_buffer cur) ->
    (Z.of_nat (List.length cur + total ps) <= S + 1)%Z ->
    pushes (paragraph_loop_traced S O (mkTraced [] cur []) ps)
    = [mkPush [] (cur ++ buffer_of ps)].
Proof.
  induction ps as [|p rest IH]; intros Hps Hne cur Hcur Hsz; [congruence|].
  inversion Hps as [|? ? Hp Hrest]; subst.
  rewrite total_cons in Hsz.
  assert (G : good_buffer (cur ++ p ++ [NL; NL]))
    by now apply good_buffer_extend.
  cbn [paragraph_loop_traced]. unfold paragraph_step_traced at 1.
  cbn [t_currentChunk t_previousContext pushes].
  replace (len (cur ++ p) >? S)%Z with false.
  2:{ symmetry. rewrite Z.gtb_ltb. apply Z.ltb_ge.
      rewrite len_app. unfold len. lia. }
  cbn [andb t_currentChunk t_previousContext pushes].
  unfold buffer_of. cbn [List.map List.concat]. fold (buffer_of rest).
  destruct rest as [|q rest].
  - cbn [andb]. rewrite (good_buffer_trim _ G).
    cbn [paragraph_loop_traced pushes t_currentChunk t_previousContext app].
    unfold buffer_of. cbn [List.map List.concat].
    now rewrite app_nil_r.
  - cbn [andb]. rewrite IH; trivial; [|discriminate|now right|].
    + now rewrite <- !app_assoc.
    + rewrite !length_app. cbn [List.length]. lia.
Qed.

Lemma buffer_of_join (ps : list jsstring) :
  ps <> [] -> buffer_of ps = join [NL; NL] ps ++ [NL; NL].
Proof.
  induction ps as [|p rest IH]; [congruence|]. intros _.
  unfold buffer_of. cbn [List.map List.concat]. fold (buffer_of rest).
  destruct rest as [|q rest].
  - cbn. now rewrite app_nil_r.
  - rewrite IH by discriminate. cbn [join]. now rewrite <- !app_assoc.
Qed.

Lemma join_good (sep : jsstring) (ps : list jsstring) :
  Forall (fun p => starts_nonspace p = true /\ ends_nonspace p = true) ps ->
  ps <> [] ->
  starts_nonspace (join sep ps) = true /\ ends_nonspace (join sep ps) = true.
Proof.
  induction ps as [|p rest IH]; [congruence|]. intros Hps _.
  inversion Hps as [|? ? [Hp1 Hp2] Hrest]; subst.
  destruct rest as [|q rest]; [now split|].
  destruct (IH Hrest ltac:(discriminate)) as [_ I2].
  cbn [join]. split.
  - now apply starts_nonspace_app.
  - rewrite app_assoc. now apply ends_nonspace_app.
Qed.

Lemma trim_buffer_of (ps : list jsstring) :
  Forall (fun p => starts_nonspace p = true /\ ends_nonspace p = true) ps ->
  ps <> [] -> trim (buffer_of ps) = join [NL; NL] ps.
Proof.
  intros Hps Hne. rewrite buffer_of_join by exact Hne.
  destruct (join_good [NL; NL] ps Hps Hne) as [J1 J2].
  unfold trim. rewrite trimEnd_app_space by reflexivity.
  now apply trim_id.
Qed.

End LoopFacts.

(** ** The chunker: properties of the specification *)

Module ChunkerClaims.
Import Js JsFacts WordFacts Chunker LastWordsFacts ParagraphFacts LoopFacts.

(** C6, as stated, fails on the code: the text of one space is not empty and
    shorter than the target size, and yields no chunk; the text
    [a\n \nb] yields one chunk that is not the trimmed text, because the
    paragraphs are trimmed and joined again with two line feeds. *)
Lemma short_text_counterexample :
  (len (str " ") < 1000)%Z
  /\ semanticChunking (str " ") 1000 (fraction 1 10) = []
  /\ (len two_paragraphs < 1000)%Z
  /\ semanticChunking two_paragraphs 1000 (fraction 1 10)
     = [str "a" ++ [NL; NL] ++ str "b"]
  /\ semanticChunking two_paragraphs 1000 (fraction 1 10) <> [trim two_paragraphs].
Proof.
  repeat split; try reflexivity. vm_compute. discriminate.
Qed.

(** C6, amended: a text shorter than the target size that holds more than
    white space yields exactly one chunk, with no overlap in front of it:
    its trimmed paragraphs that are not empty, joined by two line feeds;
    this is the trimmed text when the text has no paragraph separator. A
    text of white space only, the empty text among them, yields no chunk. *)
Theorem short_text_single_chunk (text : jsstring) (S : Z) (r : binary64) :
  (len text < S)%Z ->
  (all_space text = true -> semanticChunking text S r = [])
  /\ (all_space text = false ->
      semantic_pushes text S r
      = [mkPush [] (buffer_of (paragraphs_of text))]
      /\ semanticChunking text S r = [join [NL; NL] (paragraphs_of text)]
      /\ (split_para text = [text] ->
          semanticChunking text S r = [trim text])).
Proof.
  intros Hlen. split.
  - intros Hs. rewrite semanticChunking_pushes. unfold semantic_pushes.
    now rewrite (paragraphs_of_all_space text Hs).
  - intros Hs.
    assert (Hne : paragraphs_of text <> []).
    { intros E. apply paragraphs_of_nil in E. congruence. }
    assert (P : semantic_pushes text S r
                = [mkPush [] (buffer_of (paragraphs_of text))]).
    { unfold semantic_pushes.
      rewrite (paragraph_loop_traced_short S _ (paragraphs_of text)
                 (paragraphs_start text) Hne []); [reflexivity|now left|].
      pose proof (paragraphs_total text). cbn [List.length].
      unfold len in Hlen. lia. }
    assert (C : semanticChunking text S r
                = [join [NL; NL] (paragraphs_of text)]).
    { rewrite semanticChunking_pushes, P. cbn [List.map].
      unfold emitted. cbn [push_context push_buffer app].
      now rewrite (trim_buffer_of _ (paragraphs_good text) Hne). }
    split; [exact P|]. split; [exact C|].
    intros E. rewrite C. unfold paragraphs_of. rewrite E.
    cbn [List.map filter].
    destruct (trim text) as [|c t] eqn:T.
    + apply trim_nil_all_space in T. congruence.
    + reflexivity.
Qed.

Lemma short_text_single_chunk_witness :
  (len two_paragraphs < 1000)%Z
  /\ semanticChunking two_paragraphs 1000 (fraction 1 10)
     = [join [NL; NL] (paragraphs_of two_paragraphs)].
Proof.
  assert (H : (len two_paragraphs < 1000)%Z) by reflexivity.
  split; [exact H|].
  apply (short_text_single_chunk two_paragraphs 1000 (fraction 1 10) H).
  reflexivity.
Defined.






End ChunkerClaims.

(** ** Facts about JSON *)

Module JsonFacts.
Import Js JsFacts Json.

Lemma unhex_hexdigit (d : N) : (d < 16)%N -> unhex (hexdigit d) = Some d.
Proof.
  intros H. unfold hexdigit, unhex.
  destruct (N.ltb_spec d 10).
  - replace (48 <=? 48 + d)%N with true by (symmetry; apply N.leb_le; lia).
    replace (48 + d <=? 57)%N with true by (symmetry; apply N.leb_le; lia).
    cbn [andb]. f_equal. lia.
  - replace (87 + d <=? 57)%N with false by (symmetry; apply N.leb_gt; lia).
    rewrite andb_false_r.
    replace (97 <=? 87 + d)%N with true by (symmetry; apply N.leb_le; lia).
    replace (87 + d <=? 102)%N with true by (symmetry; apply N.leb_le; lia).
    cbn [andb]. f_equal. lia.
Qed.

Lemma hex4_value (c : N) :
  (c < 65536)%N ->
  ((((c / 4096) mod 16 * 16 + (c / 256) mod 16) * 16 + (c / 16) mod 16) * 16
   + c mod 16 = c)%N.
Proof.
  intros H.
  assert (E1 : (c / 256 = (c / 16) / 16)%N) by (now rewrite N.Div0.div_div).
  assert (E2 : (c / 4096 = (c / 256) / 16)%N) by (now rewrite N.Div0.div_div).
  pose proof (N.div_mod c 16 ltac:(discriminate)) as D0.
  pose proof (N.div_mod (c / 16) 16 ltac:(discriminate)) as D1.
  pose proof (N.div_mod (c / 256) 16 ltac:(discriminate)) as D2.
  rewrite <- E1 in D1. rewrite <- E2 in D2.
  assert (L : (c / 4096 < 16)%N)
    by (apply N.Div0.div_lt_upper_bound; exact H).
  rewrite (N.mod_small (c / 4096) 16 L).
  lia.
Qed.

Lemma parse_escape_u (c : char) (t : jsstring) :
  (c < 65536)%N ->
  parse_string_body (escape_u c ++ t)
  = cons_result c (parse_string_body t).
Proof.
  intros H. unfold escape_u, hex4. cbn [app parse_string_body].
  change (N.eqb BACKSLASH QUOTE) with false.
  change (N.eqb BACKSLASH BACKSLASH) with true.
  change (N.eqb 117 117) with true. cbv iota.
  rewrite !unhex_hexdigit by (apply N.mod_lt; discriminate).
  now rewrite hex4_value.
Qed.

Lemma parse_raw (c : char) (t : jsstring) :
  c <> 34%N -> c <> 92%N -> (32 <= c)%N ->
  parse_string_body (c :: t) = cons_result c (parse_string_body t).
Proof.
  intros H1 H2 H3. cbn [parse_string_body].
  unfold QUOTE, BACKSLASH.
  apply N.eqb_neq in H1, H2. rewrite H1, H2.
  replace (c <? 32)%N with false by (symmetry; apply N.ltb_ge; exact H3).
  reflexivity.
Qed.

Lemma parse_quote_unit (c : char) (t : jsstring) :
  parse_string_body (quote_unit c ++ t)
  = cons_result c (parse_string_body t).
Proof.
  unfold quote_unit.
  destruct (N.eqb_spec c 8) as [->|N8]; [reflexivity|].
  destruct (N.eqb_spec c 9) as [->|N9]; [reflexivity|].
  destruct (N.eqb_spec c 10) as [->|N10]; [reflexivity|].
  destruct (N.eqb_spec c 12) as [->|N12]; [reflexivity|].
  destruct (N.eqb_spec c 13) as [->|N13]; [reflexivity|].
  destruct (N.eqb_spec c 34) as [->|N34]; [reflexivity|].
  destruct (N.eqb_spec c 92) as [->|N92]; [reflexivity|].
  destruct (N.ltb_spec c 32) as [L|L].
  - apply parse_escape_u. lia.
  - cbn [app]. now apply parse_raw.
Qed.

Lemma surrogate_raw (c : char) (t : jsstring) :
  (is_high c || is_low c) = true ->
  parse_string_body (c :: t) = cons_result c (parse_string_body t).
Proof.
  unfold is_high, is_low. intros H.
  assert (R : (55296 <= c)%N).
  { apply orb_prop in H as [H|H]; apply andb_prop in H as [H _];
      apply N.leb_le in H; lia. }
  apply parse_raw; lia.
Qed.

Lemma surrogate_bound (c : char) :
  (is_high c || is_low c) = true -> (c < 65536)%N.
Proof.
  unfold is_high, is_low. intros H.
  apply orb_prop in H as [H|H]; apply andb_prop in H as [_ H];
    apply N.leb_le in H; lia.
Qed.

(** What [quote_body] writes, [parse_string_body] reads back. *)
Lemma parse_quote_body_le (n : nat) :
  forall s rest, List.length s <= n ->
    parse_string_body (quote_body s ++ QUOTE :: rest) = Some (s, rest).
Proof.
  induction n as [|n IH]; intros s rest Hn.
  - destruct s; [reflexivity|simpl in Hn; lia].
  - destruct s as [|c r]; [reflexivity|].
    cbn [List.length] in Hn. cbn [quote_body].
    destruct (is_high c) eqn:Hh.
    + destruct r as [|d r'].
      * rewrite parse_escape_u
          by (apply surrogate_bound; now rewrite Hh).
        reflexivity.
      * destruct (is_low d) eqn:Hl.
        -- cbn [app]. rewrite surrogate_raw by now rewrite Hh.
           rewrite surrogate_raw by (rewrite Hl; apply orb_true_r).
           rewrite IH by (cbn [List.length] in Hn; lia). reflexivity.
        -- rewrite <- app_assoc, parse_escape_u
             by (apply surrogate_bound; now rewrite Hh).
           rewrite IH by lia. reflexivity.
    + destruct (is_low c) eqn:Hl.
      * rewrite <- app_assoc, parse_escape_u
          by (apply surrogate_bound; rewrite Hl; apply orb_true_r).
        rewrite IH by lia. reflexivity.
      * rewrite <- app_assoc, parse_quote_unit.
        rewrite IH by lia. reflexivity.
Qed.

Lemma parse_quote_body (s rest : jsstring) :
  parse_string_body (quote_body s ++ QUOTE :: rest) = Some (s, rest).
Proof. now apply (parse_quote_body_le (List.length s)). Qed.

(** *** Numbers *)

Lemma digits_value_snoc (ds : jsstring) (c : char) :
  digits_value (ds ++ [c]) = (10 * digits_value ds + (c - 48))%N.
Proof. unfold digits_value. now rewrite fold_left_app. Qed.

Lemma is_digit_digit (d : N) : (d < 10)%N -> is_digit (digit d) = true.
Proof.
  intros H. unfold is_digit, digit.
  apply andb_true_intro. split; apply N.leb_le; lia.
Qed.

(** The digits that [decimal_fuel] writes in front of [acc]. *)
Lemma decimal_fuel_spec (f : nat) :
  forall n acc, (n < 2 ^ N.of_nat (S f))%N ->
    exists D, decimal_fuel (S f) n acc = D ++ acc
              /\ digits_value D = n
              /\ forallb is_digit D = true
              /\ D <> []
              /\ (hd 0%N D = 48%N -> D = [48%N]).
Proof.
  induction f as [|f IH]; intros n acc Hn; cbn [decimal_fuel];
    destruct (N.ltb_spec n 10) as [L|L].
  1,3: exists [digit (n mod 10)]; rewrite N.mod_small by exact L;
    (split; [reflexivity|]); (split; [unfold digits_value, digit; cbn [fold_left]; lia|]);
    (split; [cbn [forallb]; now rewrite is_digit_digit|]);
    (split; [discriminate|]);
    cbn [hd]; unfold digit; intros E; assert (n = 0%N) by lia; now subst.
  - exfalso. change (2 ^ N.of_nat 1)%N with 2%N in Hn. lia.
  - assert (Hd : (n / 10 < 2 ^ N.of_nat (S f))%N).
    { apply N.Div0.div_lt_upper_bound.
      rewrite (Nat2N.inj_succ (S f)), N.pow_succ_r' in Hn.
      remember (2 ^ N.of_nat (S f))%N as X in *. lia. }
    destruct (IH (n / 10)%N (digit (n mod 10) :: acc) Hd)
      as [D [E [V [A [Ne Z]]]]].
    exists (D ++ [digit (n mod 10)]). split; [|split; [|split; [|split]]].
    + cbn [decimal_fuel] in E. rewrite E, <- app_assoc. reflexivity.
    + rewrite digits_value_snoc, V. unfold digit.
      pose proof (N.div_mod n 10 ltac:(discriminate)) as DM.
      remember (n / 10)%N as q. remember (n mod 10)%N as m.
      clear - DM. lia.
    + rewrite forallb_app, A. cbn [forallb andb].
      rewrite is_digit_digit; [reflexivity|].
      apply N.mod_lt. discriminate.
    + destruct D; discriminate.
    + destruct D as [|x D]; [congruence|]. cbn [hd app]. intros Hx.
      cbn [hd] in Z. specialize (Z Hx). injection Z as -> ->.
      change (digits_value [48%N]) with 0%N in V. assert (1 <= n / 10)%N
        by (apply N.div_le_lower_bound; lia). lia.
Qed.

Lemma decimal_spec (n : N) :
  digits_value (decimal n) = n
  /\ forallb is_digit (decimal n) = true
  /\ decimal n <> []
  /\ (hd 0%N (decimal n) = 48%N -> decimal n = [48%N]).
Proof.
  unfold decimal.
  destruct (decimal_fuel_spec (N.to_nat (N.log2 n)) n [])
    as [D [E H]].
  - rewrite Nat2N.inj_succ, N2Nat.id.
    destruct n as [|p]; [reflexivity|].
    apply N.log2_spec. reflexivity.
  - rewrite app_nil_r in E. now rewrite E.
Qed.

Lemma span_digits_app (ds rest : jsstring) :
  forallb is_digit ds = true ->
  match rest with c :: _ => is_digit c = false | [] => True end ->
  span_digits (ds ++ rest) = (ds, rest).
Proof.
  intros H R. induction ds as [|d ds IH].
  - cbn [app]. destruct rest as [|c r]; [reflexivity|].
    cbn [span_digits]. now rewrite R.
  - cbn [forallb] in H. apply andb_prop in H as [H1 H2].
    cbn [app span_digits]. rewrite H1, (IH H2). reflexivity.
Qed.

(** A number written by [decimal] and followed by a comma or a brace. *)
Lemma parse_number_decimal (n : N) (c : char) (rest : jsstring) :
  c = COMMA \/ c = RBRACE ->
  parse_number (decimal n ++ c :: rest)
  = Some (JNumber (Z.of_N n) 0, c :: rest).
Proof.
  intros Hc. destruct (decimal_spec n) as [V [A [Ne Z]]].
  assert (Hnd : is_digit c = false) by (destruct Hc; subst; reflexivity).
  unfold parse_number.
  destruct (decimal n) as [|d more] eqn:E; [congruence|].
  cbn [forallb] in A. apply andb_prop in A as [A1 A2].
  assert (N45 : N.eqb d 45 = false).
  { apply N.eqb_neq. intros ->. discriminate A1. }
  cbn [app]. rewrite N45.
  change (d :: more ++ c :: rest) with ((d :: more) ++ c :: rest).
  rewrite span_digits_app; [|cbn; now rewrite A1, A2|exact Hnd].
  assert (Lz : N.eqb d 48 && truthy more = false).
  { destruct (N.eqb_spec d 48) as [->|]; [|reflexivity].
    cbn [hd] in Z. specialize (Z eq_refl). injection Z as ->. reflexivity. }
  rewrite Lz.
  assert (N46 : N.eqb c 46 = false) by (destruct Hc; subst; reflexivity).
  assert (Ne1 : N.eqb c 101 || N.eqb c 69 = false)
    by (destruct Hc; subst; reflexivity).
  rewrite N46, Ne1. rewrite app_nil_r, V. reflexivity.
Qed.

(** *** Values and members *)

Lemma parse_value_string (f : nat) (s rest : jsstring) :
  parse_value (S f) (quote s ++ rest) = Some (JString s, rest).
Proof.
  unfold quote. rewrite <- app_comm_cons, <- app_assoc.
  cbn [parse_value skip_ws dropWhile app].
  change (is_json_ws QUOTE) with false. cbv iota.
  change (N.eqb QUOTE LBRACE) with false.
  change (N.eqb QUOTE LBRACKET) with false.
  change (N.eqb QUOTE QUOTE) with true. cbv iota.
  now rewrite parse_quote_body.
Qed.

Lemma digit_char (d : char) :
  is_digit d = true ->
  is_json_ws d = false /\ N.eqb d LBRACE = false /\ N.eqb d LBRACKET = false
  /\ N.eqb d QUOTE = false /\ N.eqb d 116 = false /\ N.eqb d 102 = false
  /\ N.eqb d 110 = false.
Proof.
  unfold is_digit, is_json_ws, LBRACE, LBRACKET, QUOTE. intros H.
  apply andb_prop in H as [H1 H2]. apply N.leb_le in H1, H2.
  repeat split; try (apply N.eqb_neq; lia).
  repeat (apply orb_false_intro); apply N.eqb_neq; lia.
Qed.

Lemma parse_value_number (f : nat) (n : N) (c : char) (rest : jsstring) :
  c = COMMA \/ c = RBRACE ->
  parse_value (S f) (decimal n ++ c :: rest)
  = Some (JNumber (Z.of_N n) 0, c :: rest).
Proof.
  intros Hc. rewrite <- (parse_number_decimal n c rest Hc).
  destruct (decimal_spec n) as [_ [A [Ne _]]].
  destruct (decimal n) as [|d more]; [congruence|].
  cbn [forallb] in A. apply andb_prop in A as [A _].
  destruct (digit_char d A) as [W [B1 [B2 [B3 [B4 [B5 B6]]]]]].
  cbn [parse_value skip_ws dropWhile app].
  rewrite W, B1, B2, B3, B4, B5, B6. reflexivity.
Qed.

Lemma parse_value_object (f : nat) (k t : jsstring) :
  parse_value (S f) (LBRACE :: quote k ++ t)
  = parse_members f (quote k ++ t) [].
Proof.
  unfold quote. rewrite <- app_comm_cons.
  cbn [parse_value skip_ws dropWhile].
  change (is_json_ws LBRACE) with false. cbv iota.
  change (N.eqb LBRACE LBRACE) with true. cbv iota.
  change (is_json_ws QUOTE) with false. cbv iota.
  change (N.eqb QUOTE RBRACE) with false. reflexivity.
Qed.

(** One member of an object, its value read by [parse_value], followed by a
    comma or by the closing brace. *)
Lemma parse_member (f : nat) (k vtext : jsstring) (v : value) (c : char)
  (rest : jsstring) (acc : list (jsstring * value)) :
  c = COMMA \/ c = RBRACE ->
  parse_value f (vtext ++ c :: rest) = Some (v, c :: rest) ->
  parse_members (S f) (quote k ++ COLON :: vtext ++ c :: rest) acc
  = if N.eqb c COMMA then parse_members f rest (obj_set acc k v)
    else Some (JObject (obj_set acc k v), rest).
Proof.
  intros Hc Hv. unfold quote. rewrite <- app_comm_cons, <- app_assoc.
  cbn [parse_members skip_ws dropWhile app].
  change (is_json_ws QUOTE) with false. cbv iota.
  change (N.eqb QUOTE QUOTE) with true. cbv iota.
  rewrite parse_quote_body. cbn [skip_ws dropWhile].
  change (is_json_ws COLON) with false. cbv iota.
  change (N.eqb COLON COLON) with true. cbv iota.
  rewrite Hv.
  destruct Hc as [-> | ->]; reflexivity.
Qed.

Lemma parse_member_string (f : nat) (k s : jsstring) (c : char)
  (rest : jsstring) (acc : list (jsstring * value)) :
  c = COMMA \/ c = RBRACE ->
  parse_members (S (S f)) (quote k ++ COLON :: quote s ++ c :: rest) acc
  = if N.eqb c COMMA
    then parse_members (S f) rest (obj_set acc k (JString s))
    else Some (JObject (obj_set acc k (JString s)), rest).
Proof.
  intros Hc. apply parse_member; [exact Hc|apply parse_value_string].
Qed.

Lemma parse_member_number (f : nat) (k : jsstring) (n : N) (c : char)
  (rest : jsstring) (acc : list (jsstring * value)) :
  c = COMMA \/ c = RBRACE ->
  parse_members (S (S f)) (quote k ++ COLON :: decimal n ++ c :: rest) acc
  = if N.eqb c COMMA
    then parse_members (S f) rest (obj_set acc k (JNumber (Z.of_N n) 0))
    else Some (JObject (obj_set acc k (JNumber (Z.of_N n) 0)), rest).
Proof.
  intros Hc. apply parse_member; [exact Hc|now apply parse_value_number].
Qed.

(** The text of the metadata reads back as the metadata, with fuel for the
    object, its seven members and their values. *)
Lemma parse_stringify_metadata (f : nat) (m : Metadata) (rest : jsstring) :
  parse_value (9 + f) (stringify_metadata m ++ rest)
  = Some (metadata_value m, rest).
Proof.
  unfold stringify_metadata.
  repeat (rewrite <- app_comm_cons || rewrite <- app_assoc).
  change (9 + f) with (S (S (S (S (S (S (S (S (S f))))))))).
  rewrite parse_value_object.
  rewrite parse_member_string by now left.
  change (N.eqb COMMA COMMA) with true. cbv iota.
  rewrite parse_member_string by now left.
  change (N.eqb COMMA COMMA) with true. cbv iota.
  rewrite parse_member_string by now left.
  change (N.eqb COMMA COMMA) with true. cbv iota.
  rewrite parse_member_string by now left.
  change (N.eqb COMMA COMMA) with true. cbv iota.
  rewrite parse_member_number by now left.
  change (N.eqb COMMA COMMA) with true. cbv iota.
  rewrite parse_member_number by now left.
  change (N.eqb COMMA COMMA) with true. cbv iota.
  change ([RBRACE] ++ rest) with (RBRACE :: rest).
  rewrite parse_member_string by now right.
  reflexivity.
Qed.

Lemma stringify_metadata_length (m : Metadata) :
  8 <= List.length (stringify_metadata m).
Proof.
  unfold stringify_metadata. cbn [List.length]. rewrite length_app.
  change (List.length (quote (str "documentId"))) with 12. lia.
Qed.

(** [JSON.parse(JSON.stringify(metadata))] is the metadata. *)
Lemma JSON_parse_stringify_metadata (m : Metadata) :
  JSON_parse (stringify_metadata m) = Some (metadata_value m).
Proof.
  unfold JSON_parse.
  pose proof (stringify_metadata_length m) as L.
  replace (S (List.length (stringify_metadata m)))
    with (9 + (List.length (stringify_metadata m) - 8)) by lia.
  rewrite <- (app_nil_r (stringify_metadata m)) at 2.
  rewrite parse_stringify_metadata. reflexivity.
Qed.

Lemma stringify_metadata_truthy (m : Metadata) :
  truthy (stringify_metadata m) = true.
Proof. reflexivity. Qed.

End JsonFacts.

(** ** The services: computations and what they leave as it was *)

Module FrameFacts.
Import Js JsFacts Json Model PineconeService DocumentsService Frames.
Local Open Scope world_scope.

Lemma eqb_refl (a : jsstring) : eqb a a = true.
Proof. induction a as [|x a IH]; [reflexivity|]. cbn. now rewrite N.eqb_refl. Qed.

Lemma eqb_eq (a b : jsstring) : eqb a b = true <-> a = b.
Proof.
  split; [|intros ->; apply eqb_refl].
  revert b. induction a as [|x a IH]; intros [|y b] H; try discriminate.
  - reflexivity.
  - cbn in H. apply andb_prop in H as [H1 H2].
    apply N.eqb_eq in H1. subst. f_equal. now apply IH.
Qed.

Lemma eqb_neq (a b : jsstring) : eqb a b = false <-> a <> b.
Proof.
  split.
  - intros H E. apply eqb_eq in E. congruence.
  - intros H. destruct (eqb a b) eqn:E; [|reflexivity].
    apply eqb_eq in E. contradiction.
Qed.

(** *** The rules of [preserves] *)

Section Rules.
Context {R : World -> World -> Prop}.
Hypothesis R_refl : forall w, R w w.
Hypothesis R_trans : forall a b c, R a b -> R b c -> R a c.

Lemma preserves_ret {A : Type} (a : A) : preserves R (ret a).
Proof. intros w w' r H. injection H as <- _. apply R_refl. Qed.

Lemma preserves_throw {A : Type} (e : exn) : preserves R (@throw A e).
Proof. intros w w' r H. injection H as <- _. apply R_refl. Qed.

Lemma preserves_lift {A : Type} (x : result A) : preserves R (lift x).
Proof. intros w w' r H. injection H as <- _. apply R_refl. Qed.

Lemma preserves_get_world : preserves R get_world.
Proof. intros w w' r H. injection H as <- _. apply R_refl. Qed.

Lemma preserves_modify (f : World -> World) :
  (forall w, R w (f w)) -> preserves R (modify f).
Proof. intros Hf w w' r H. injection H as <- _. apply Hf. Qed.

Lemma preserves_bind {A B : Type} (m : M A) (k : A -> M B) :
  preserves R m -> (forall a, preserves R (k a)) ->
  preserves R (bind m k).
Proof.
  intros Hm Hk w w' r H. unfold bind in H.
  destruct (m w) as [w1 [a|e]] eqn:E.
  - eapply R_trans; [eapply Hm; exact E|eapply Hk; exact H].
  - injection H as <- _. eapply Hm; exact E.
Qed.

Lemma preserves_try_catch {A : Type} (m : M A) (h : exn -> M A) :
  preserves R m -> (forall e, preserves R (h e)) ->
  preserves R (try_catch m h).
Proof.
  intros Hm Hh w w' r H. unfold try_catch in H.
  destruct (m w) as [w1 [a|e]] eqn:E.
  - injection H as <- _. eapply Hm; exact E.
  - eapply R_trans; [eapply Hm; exact E|eapply Hh; exact H].
Qed.

Lemma preserves_fresh_id (env : Env) :
  (forall w, R w (mkWorld (documents w) (chunks w) (users w) (dirs w)
                          (files w) (calls w) (tasks w) (S (fresh w)))) ->
  preserves R (fresh_id env).
Proof. intros Hf w w' r H. injection H as <- _. apply Hf. Qed.
End Rules.

(** *** The relations are preorders *)

Lemma same_chunks_refl (w : World) : same_chunks w w.
Proof. reflexivity. Qed.

Lemma same_chunks_trans (a b c : World) :
  same_chunks a b -> same_chunks b c -> same_chunks a c.
Proof. unfold same_chunks. congruence. Qed.

Lemma same_registry_refl (w : World) : same_registry w w.
Proof. repeat split. Qed.

Lemma same_registry_trans (a b c : World) :
  same_registry a b -> same_registry b c -> same_registry a c.
Proof.
  unfold same_registry. intros [H1 [H2 H3]] [G1 [G2 G3]].
  repeat split; congruence.
Qed.

Lemma calls_grow_refl (P : Call -> Prop) (w : World) : calls_grow P w w.
Proof. exists []. now rewrite app_nil_r. Qed.

Lemma calls_grow_trans (P : Call -> Prop) (a b c : World) :
  calls_grow P a b -> calls_grow P b c -> calls_grow P a c.
Proof.
  intros [n1 [E1 F1]] [n2 [E2 F2]]. exists (n1 ++ n2). split.
  - now rewrite E2, E1, app_assoc.
  - apply Forall_app. now split.
Qed.

Lemma chunks_grow_refl (w : World) : chunks_grow w w.
Proof. exists []. now rewrite app_nil_r. Qed.

Lemma chunks_grow_trans (a b c : World) :
  chunks_grow a b -> chunks_grow b c -> chunks_grow a c.
Proof.
  intros [n1 E1] [n2 E2]. exists (n1 ++ n2).
  now rewrite E2, E1, app_assoc.
Qed.




(** *** A tactic that follows a computation step by step *)

Ltac unfold_steps :=
  unfold log_call, writeFileSync, unlinkSync, mkdirSync, update_document,
    delete_document, set_off, updateDocumentStatus, save_document.

Ltac frame refl trans leaf :=
  unfold_steps;
  repeat first
    [ progress cbv zeta
    | apply (preserves_bind trans); [|intros ?]
    | apply (preserves_try_catch trans); [|intros ?]
    | apply (preserves_ret refl)
    | apply (preserves_throw refl)
    | apply (preserves_lift refl)
    | apply (preserves_get_world refl)
    | match goal with
      | |- preserves _ (match ?x with _ => _ end) => destruct x
      end
    | leaf ].

Ltac chunks_leaf :=
  first [ apply preserves_modify; intros ?; reflexivity
        | apply preserves_fresh_id; intros ?; reflexivity ].

Lemma identity_update (i : jsstring) (f : Document -> Document)
  (ds : list Document) :
  (forall d, identity (f d) = identity d) ->
  List.map identity
    (List.map (fun d => if eqb (id d) i then f d else d) ds)
  = List.map identity ds.
Proof.
  intros H. rewrite List.map_map. apply map_ext. intros d.
  destruct (eqb (id d) i); [apply H|reflexivity].
Qed.

Ltac registry_leaf :=
  first [ apply preserves_modify; intros ?; solve [repeat split]
        | apply preserves_fresh_id; intros ?; solve [repeat split]
        | apply preserves_modify; intros ?;
          split; [apply identity_update; intros []; reflexivity
                 |split; reflexivity] ].

Ltac calls_same :=
  intros ?; exists []; split; [cbn; now rewrite app_nil_r|constructor].

Ltac calls_leaf side :=
  first [ apply preserves_modify; calls_same
        | apply preserves_fresh_id; calls_same
        | apply preserves_modify; intros ?; eexists [_];
          split; [reflexivity|constructor; [side|constructor]] ].

Ltac grow_same :=
  intros ?; exists []; cbn; now rewrite app_nil_r.

Ltac grow_leaf :=
  first [ apply preserves_modify; grow_same
        | apply preserves_fresh_id; grow_same
        | apply preserves_modify; intros ?; eexists [_]; reflexivity ].



(** *** upsertVector *)

Section Upsert.
Context {R : World -> World -> Prop}.
Hypothesis R_refl : forall w, R w w.
Hypothesis R_trans : forall a b c, R a b -> R b c -> R a c.
Hypothesis R_upsert :
  forall i v w, R w (add_calls [UpsertRecords i v] w).

Lemma upsert_all_preserves (env : Env) (idxs : list (jsstring * Index))
  (v : list VectorRecord) : preserves R (upsert_all env idxs v).
Proof.
  induction idxs as [|[k i] rest IH]; cbn [upsert_all].
  - apply (preserves_ret R_refl).
  - apply (preserves_bind R_trans); [|intros ?].
    + apply preserves_modify. intros w. apply R_upsert.
    + apply (preserves_bind R_trans); [|intros ?; exact IH].
      apply (preserves_lift R_refl).
Qed.

Lemma upsertVector_preserves (env : Env) (v : list VectorRecord) :
  preserves R (upsertVector env v).
Proof.
  unfold upsertVector.
  destruct (Z.of_nat (List.length (indexes env)) =? 0)%Z.
  - apply (preserves_throw R_refl).
  - apply (preserves_bind R_trans); [apply upsert_all_preserves|].
    intros ?. apply (preserves_ret R_refl).
Qed.
End Upsert.

End FrameFacts.

(** ** The pipeline of [processDocument] *)

Module PipelineFacts.
Import Js JsFacts Json Model PineconeService DocumentsService Frames
  FrameFacts TextCleaner TextCleanerFacts.
Local Open Scope world_scope.

(** *** What the pipeline leaves as it was *)

Lemma upsertVector_same_chunks (env : Env) (v : list VectorRecord) :
  preserves same_chunks (upsertVector env v).
Proof.
  apply (upsertVector_preserves same_chunks_refl same_chunks_trans).
  reflexivity.
Qed.

Lemma upsertVector_registry (env : Env) (v : list VectorRecord) :
  preserves same_registry (upsertVector env v).
Proof.
  apply (upsertVector_preserves same_registry_refl same_registry_trans).
  intros. repeat split.
Qed.

Lemma upsertVector_calls (P : Call -> Prop) (env : Env)
  (v : list VectorRecord) :
  (forall i v', P (UpsertRecords i v')) ->
  preserves (calls_grow P) (upsertVector env v).
Proof.
  intros HP.
  apply (upsertVector_preserves (calls_grow_refl P) (calls_grow_trans P)).
  intros i v' w. exists [UpsertRecords i v']. split; [reflexivity|].
  constructor; [apply HP|constructor].
Qed.

Lemma upsertVector_chunks_grow (env : Env) (v : list VectorRecord) :
  preserves chunks_grow (upsertVector env v).
Proof.
  apply (upsertVector_preserves chunks_grow_refl chunks_grow_trans).
  intros i v' w. exists []. cbn. now rewrite app_nil_r.
Qed.


(** The stage before the rows are saved leaves the chunks as they were. *)
Lemma extract_and_upsert_same_chunks (env : Env) (i : jsstring)
  (d : Document) : preserves same_chunks (extract_and_upsert env i d).
Proof.
  unfold extract_and_upsert, splitIntoChunks.
  frame same_chunks_refl same_chunks_trans
    ltac:(first [chunks_leaf | apply upsertVector_same_chunks]).
Qed.

Lemma save_chunks_registry (env : Env) (d : Document) (i : jsstring)
  (ids : list jsstring) (cs : list jsstring) :
  forall n, preserves same_registry (save_chunks env d i ids n cs).
Proof.
  induction cs as [|c cs IH]; intros n; cbn [save_chunks].
  - apply (preserves_ret same_registry_refl).
  - frame same_registry_refl same_registry_trans
      ltac:(first [registry_leaf | apply IH]).
Qed.

Lemma processDocument_registry (env : Env) (i : jsstring) :
  preserves same_registry (processDocument env i).
Proof.
  unfold processDocument, extract_and_upsert, splitIntoChunks.
  frame same_registry_refl same_registry_trans
    ltac:(first [registry_leaf | apply upsertVector_registry
                | apply save_chunks_registry]).
Qed.

Lemma run_task_registry (env : Env) (t : Task) :
  preserves same_registry (run_task env t).
Proof.
  destruct t as [i]. unfold run_task.
  apply (preserves_try_catch same_registry_trans);
    [apply processDocument_registry|intros e].
  frame same_registry_refl same_registry_trans registry_leaf.
Qed.

Lemma run_tasks_registry (env : Env) (ts : list Task) :
  forall w, same_registry w (run_tasks env ts w).
Proof.
  induction ts as [|t ts IH]; intros w; [apply same_registry_refl|].
  cbn [run_tasks].
  eapply same_registry_trans; [|apply IH].
  eapply run_task_registry. apply surjective_pairing.
Qed.

(** The rows of the chunks are only added to. *)
Lemma save_chunks_grow (env : Env) (d : Document) (i : jsstring)
  (ids : list jsstring) (cs : list jsstring) :
  forall n, preserves chunks_grow (save_chunks env d i ids n cs).
Proof.
  induction cs as [|c cs IH]; intros n; cbn [save_chunks].
  - apply (preserves_ret chunks_grow_refl).
  - frame chunks_grow_refl chunks_grow_trans
      ltac:(first [grow_leaf | apply IH]).
Qed.

Lemma run_task_chunks_grow (env : Env) (t : Task) :
  preserves chunks_grow (run_task env t).
Proof.
  destruct t as [i].
  unfold run_task, processDocument, extract_and_upsert, splitIntoChunks.
  frame chunks_grow_refl chunks_grow_trans
    ltac:(first [grow_leaf | apply upsertVector_chunks_grow
                | apply save_chunks_grow]).
Qed.

(** The calls of the pipeline. *)
Lemma save_chunks_calls (P : Call -> Prop) (env : Env) (d : Document)
  (i : jsstring) (ids : list jsstring) (cs : list jsstring) :
  forall n, preserves (calls_grow P) (save_chunks env d i ids n cs).
Proof.
  induction cs as [|c cs IH]; intros n; cbn [save_chunks].
  - apply (preserves_ret (calls_grow_refl P)).
  - frame (calls_grow_refl P) (calls_grow_trans P)
      ltac:(first [calls_leaf ltac:(fail) | apply IH]).
Qed.

Lemma clean_no_triple (t : jsstring) :
  no_triple_nl (cleanTextLineBreaks t) = true.
Proof.
  rewrite cleanTextLineBreaks_replace. apply replace_nl3_shape.
Qed.

Lemma run_task_calls (P : Call -> Prop) (env : Env) (t : Task) :
  (forall c, is_delete c = false -> chunker_text_clean c -> P c) ->
  preserves (calls_grow P) (run_task env t).
Proof.
  intros HP. destruct t as [i].
  unfold run_task, processDocument, extract_and_upsert, splitIntoChunks.
  frame (calls_grow_refl P) (calls_grow_trans P)
    ltac:(first [ calls_leaf ltac:(apply HP;
                                   [reflexivity
                                   |first [exact I|apply clean_no_triple]])
                | apply upsertVector_calls; intros; apply HP;
                  [reflexivity|exact I]
                | apply save_chunks_calls ]).
Qed.



End PipelineFacts.

(** ** The services: lemmas *)

Module ServiceFacts.
Import Js JsFacts Json Model PineconeService DocumentsService Frames
  FrameFacts PipelineFacts.
Local Open Scope world_scope.

(** *** Rows found *)

Lemma find_identity (q : jsstring * option jsstring * jsstring -> bool)
  (l : list Document) :
  forall l', List.map identity l' = List.map identity l ->
    match find (fun d => q (identity d)) l with
    | Some d =>
        exists d', find (fun d => q (identity d)) l' = Some d'
                   /\ identity d' = identity d
    | None => find (fun d => q (identity d)) l' = None
    end.
Proof.
  induction l as [|d l IH]; intros [|d' l'] H; try discriminate.
  - reflexivity.
  - assert (H1 : identity d' = identity d)
      by (cbn [List.map] in H; congruence).
    assert (H2 : List.map identity l' = List.map identity l)
      by (cbn [List.map] in H; congruence).
    cbn [find]. rewrite H1. destruct (q (identity d)).
    + now exists d'.
    + now apply IH.
Qed.

Lemma findOne_by_hash_registry (h : jsstring) (w w' : World) (d : Document) :
  same_registry w w' -> findOne_by_hash h w = Some d ->
  exists d', findOne_by_hash h w' = Some d' /\ identity d' = identity d.
Proof.
  intros [H _] F. unfold findOne_by_hash in *.
  pose proof (find_identity (fun x => opt_eqb (snd (fst x)) h)
                (documents w) (documents w') H) as K.
  cbn [identity fst snd] in K. now rewrite F in K.
Qed.

Lemma findOne_by_id_registry (i : jsstring) (w w' : World) (d : Document) :
  same_registry w w' -> findOne_by_id i w = Some d ->
  exists d', findOne_by_id i w' = Some d' /\ identity d' = identity d.
Proof.
  intros [H _] F. unfold findOne_by_id in *.
  pose proof (find_identity (fun x => eqb (fst (fst x)) i)
                (documents w) (documents w') H) as K.
  cbn [identity fst snd] in K. now rewrite F in K.
Qed.

Lemma find_update (i : jsstring) (f : Document -> Document)
  (ds : list Document) (d : Document) :
  (forall x, id (f x) = id x) ->
  find (fun x => eqb (id x) i) ds = Some d ->
  find (fun x => eqb (id x) i)
       (List.map (fun x => if eqb (id x) i then f x else x) ds)
  = Some (f d).
Proof.
  intros Hf. induction ds as [|x ds IH]; [discriminate|].
  cbn [find List.map]. destruct (eqb (id x) i) eqn:E.
  - intros H. injection H as <-. now rewrite Hf, E.
  - rewrite E. exact IH.
Qed.

Lemma find_app_last {A : Type} (p : A -> bool) (l : list A) (x : A) :
  find p l = None -> p x = true -> find p (l ++ [x]) = Some x.
Proof.
  intros H Hx. induction l as [|y l IH]; cbn [find app].
  - now rewrite Hx.
  - cbn [find] in H. destruct (p y); [discriminate|now apply IH].
Qed.

Lemma find_filter_none {A : Type} (p q : A -> bool) (l : list A) :
  (forall x, p x = true -> q x = true) ->
  find p (filter (fun x => negb (q x)) l) = None.
Proof.
  intros H. induction l as [|x l IH]; [reflexivity|].
  cbn [filter]. destruct (q x) eqn:Q; cbn [negb]; [exact IH|].
  cbn [find]. destruct (p x) eqn:P; [|exact IH].
  apply H in P. congruence.
Qed.

(** *** upsertVector, exactly *)

Lemma add_calls_add (c : Call) (cs : list Call) (w : World) :
  add_calls cs (add_calls [c] w) = add_calls (c :: cs) w.
Proof. unfold add_calls. cbn. now rewrite <- app_assoc. Qed.

Lemma add_calls_nil (w : World) : add_calls [] w = w.
Proof. destruct w. unfold add_calls. cbn. now rewrite app_nil_r. Qed.

(** When every index of the table takes the upsert, each has been sent the
    same records once, in the order of the table. *)
Lemma upsert_all_ok (env : Env) (v : list VectorRecord)
  (idxs : list (jsstring * Index)) :
  Forall (fun e => upsertRecords env (snd e) v = Ok tt) idxs ->
  forall w, upsert_all env idxs v w
            = (add_calls (List.map (fun e => UpsertRecords (snd e) v) idxs) w,
               Ok tt).
Proof.
  induction idxs as [|[k i] rest IH]; intros H w.
  - cbn. now rewrite add_calls_nil.
  - inversion H as [|? ? H1 H2]; subst. cbn [snd] in H1.
    cbn [upsert_all List.map snd].
    unfold bind, log_call, modify, lift. rewrite H1.
    change (mkWorld (documents w) (chunks w) (users w) (dirs w) (files w)
              (calls w ++ [UpsertRecords i v]) (tasks w) (fresh w))
      with (add_calls [UpsertRecords i v] w).
    rewrite (IH H2). now rewrite add_calls_add.
Qed.

(** When an index of the table refuses the upsert, the loop throws. *)
Lemma upsert_all_fail (env : Env) (v : list VectorRecord)
  (idxs : list (jsstring * Index)) :
  Exists (fun e => exists err, upsertRecords env (snd e) v = Throw err) idxs ->
  forall w, exists w' err, upsert_all env idxs v w = (w', Throw err).
Proof.
  induction idxs as [|[k i] rest IH]; intros H w.
  - inversion H.
  - cbn [upsert_all]. unfold bind, log_call, modify, lift.
    destruct (upsertRecords env i v) as [[]|err] eqn:E.
    + inversion H as [? ? [err E']|? ? H']; subst.
      * cbn [snd] in E'. congruence.
      * apply (IH H').
    + eexists _, _. reflexivity.
Qed.

Lemma upsertVector_ok (env : Env) (v : list VectorRecord) (w : World) :
  indexes env <> [] ->
  Forall (fun e => upsertRecords env (snd e) v = Ok tt) (indexes env) ->
  upsertVector env v w
  = (add_calls (List.map (fun e => UpsertRecords (snd e) v) (indexes env)) w,
     Ok (filter truthy (List.map record_id v))).
Proof.
  intros Hne Hok. unfold upsertVector.
  destruct (indexes env) as [|e l] eqn:E; [congruence|].
  cbn [List.length Z.of_nat Z.eqb]. unfold bind.
  rewrite (upsert_all_ok env v (e :: l) Hok w). reflexivity.
Qed.

Lemma upsertVector_fail (env : Env) (v : list VectorRecord) (w : World) :
  Exists (fun e => exists err, upsertRecords env (snd e) v = Throw err)
         (indexes env) ->
  exists w' err, upsertVector env v w = (w', Throw err).
Proof.
  intros H. unfold upsertVector.
  destruct (Z.of_nat (List.length (indexes env)) =? 0)%Z.
  - eexists _, _. reflexivity.
  - unfold bind.
    destruct (upsert_all_fail env v (indexes env) H w) as [w' [err E]].
    rewrite E. eexists _, _. reflexivity.
Qed.

(** *** The table of indexes *)

Lemma record_set_nil (k : jsstring) (v : Index) : record_set [] k v = [(k, v)].
Proof. reflexivity. Qed.

Lemma record_set_one (k1 k2 : jsstring) (v1 v2 : Index) :
  (k1 = k2 /\ record_set [(k1, v1)] k2 v2 = [(k1, v2)])
  \/ (k1 <> k2
      /\ (record_set [(k1, v1)] k2 v2 = [(k1, v1); (k2, v2)]
          \/ record_set [(k1, v1)] k2 v2 = [(k2, v2); (k1, v1)])).
Proof.
  unfold record_set. cbn [existsb fst List.map orb].
  destruct (eqb k1 k2) eqn:E.
  - left. apply eqb_eq in E. auto.
  - right. apply eqb_neq in E. split; [exact E|].
    cbn [orb insert_key].
    destruct (array_index k2) as [n|]; destruct (array_index k1) as [n'|];
      try destruct (n <? n')%N; auto.
Qed.

Lemma indexes_air (env : Env) (u : jsstring) :
  configured (PINECONE_INDEX_URL_AIR env) = Some u ->
  In (airIndexName env, mkIndex (airIndexName env) u) (indexes env).
Proof.
  intros H. unfold indexes. rewrite H.
  destruct (configured (PINECONE_INDEX_URL env)) as [u0|].
  - rewrite record_set_nil.
    destruct (record_set_one (defaultIndexName env) (airIndexName env)
                (mkIndex (defaultIndexName env) u0)
                (mkIndex (airIndexName env) u))
      as [[E ->]|[_ [->| ->]]]; cbn; [rewrite E|..]; auto.
  - rewrite record_set_nil. now left.
Qed.

Lemma indexes_default (env : Env) (u : jsstring) :
  configured (PINECONE_INDEX_URL env) = Some u ->
  configured (PINECONE_INDEX_URL_AIR env) = None
  \/ airIndexName env <> defaultIndexName env ->
  In (defaultIndexName env, mkIndex (defaultIndexName env) u) (indexes env).
Proof.
  intros H D. unfold indexes. rewrite H, record_set_nil.
  destruct (configured (PINECONE_INDEX_URL_AIR env)) as [u1|]; [|now left].
  destruct D as [D|D]; [discriminate|].
  destruct (record_set_one (defaultIndexName env) (airIndexName env)
              (mkIndex (defaultIndexName env) u)
              (mkIndex (airIndexName env) u1))
    as [[E _]|[_ [->| ->]]]; cbn; auto. congruence.
Qed.

(** Each name is in the table once. *)
Lemma indexes_names (env : Env) : NoDup (List.map fst (indexes env)).
Proof.
  unfold indexes.
  destruct (configured (PINECONE_INDEX_URL env)) as [u0|];
    destruct (configured (PINECONE_INDEX_URL_AIR env)) as [u1|];
    rewrite ?record_set_nil; cbn [List.map fst];
    try (repeat constructor; cbn; tauto).
  destruct (record_set_one (defaultIndexName env) (airIndexName env)
              (mkIndex (defaultIndexName env) u0)
              (mkIndex (airIndexName env) u1))
    as [[E ->]|[D [->| ->]]]; cbn [List.map fst];
    repeat constructor; cbn; intuition congruence.
Qed.

(** The table holds nothing else. *)
Lemma indexes_only (env : Env) (k : jsstring) (i : Index) :
  In (k, i) (indexes env) ->
  (exists u, configured (PINECONE_INDEX_URL_AIR env) = Some u
             /\ k = airIndexName env
             /\ i = mkIndex (airIndexName env) u)
  \/ (exists u, configured (PINECONE_INDEX_URL env) = Some u
                /\ (configured (PINECONE_INDEX_URL_AIR env) = None
                    \/ airIndexName env <> defaultIndexName env)
                /\ k = defaultIndexName env
                /\ i = mkIndex (defaultIndexName env) u).
Proof.
  unfold indexes.
  destruct (configured (PINECONE_INDEX_URL env)) as [u0|];
    destruct (configured (PINECONE_INDEX_URL_AIR env)) as [u1|];
    rewrite ?record_set_nil.
  - destruct (record_set_one (defaultIndexName env) (airIndexName env)
                (mkIndex (defaultIndexName env) u0)
                (mkIndex (airIndexName env) u1))
      as [[E ->]|[D [->| ->]]]; cbn [In]; intros H.
    + destruct H as [H|[]]. injection H as <- <-.
      left. exists u1. rewrite E. auto.
    + destruct H as [H|[H|[]]]; injection H as <- <-.
      * right. exists u0. repeat split; auto.
      * left. exists u1. auto.
    + destruct H as [H|[H|[]]]; injection H as <- <-.
      * left. exists u1. auto.
      * right. exists u0. repeat split; auto.
  - intros [H|[]]. injection H as <- <-. right. exists u0. auto.
  - intros [H|[]]. injection H as <- <-. left. exists u1. auto.
  - intros [].
Qed.

(** With both addresses configured under one name, the table has the one
    entry of the index [air]. *)
Lemma indexes_same_name (env : Env) (u v : jsstring) :
  configured (PINECONE_INDEX_URL env) = Some u ->
  configured (PINECONE_INDEX_URL_AIR env) = Some v ->
  airIndexName env = defaultIndexName env ->
  indexes env = [(airIndexName env, mkIndex (airIndexName env) v)].
Proof.
  intros H1 H2 E. unfold indexes. rewrite H1, H2, record_set_nil.
  destruct (record_set_one (defaultIndexName env) (airIndexName env)
              (mkIndex (defaultIndexName env) u)
              (mkIndex (airIndexName env) v))
    as [[_ ->]|[D _]]; [now rewrite E|congruence].
Qed.

(** A service that has started has the address of the default index, so
    its table is not empty. *)
Lemma onModuleInit_ok (env : Env) (w : World) :
  snd (onModuleInit env w) = Ok tt ->
  exists u, configured (PINECONE_INDEX_URL env) = Some u.
Proof.
  unfold onModuleInit.
  destruct (configured (PINECONE_API_KEY env)); [|discriminate].
  destruct (configured (PINECONE_INDEX_URL env)) as [u|]; [|discriminate].
  intros _. now exists u.
Qed.

Lemma indexes_started (env : Env) (u : jsstring) :
  configured (PINECONE_INDEX_URL env) = Some u -> indexes env <> [].
Proof.
  intros H E.
  destruct (configured (PINECONE_INDEX_URL_AIR env)) as [v|] eqn:A.
  - pose proof (indexes_air env v A) as I. now rewrite E in I.
  - pose proof (indexes_default env u H (or_introl A)) as I.
    now rewrite E in I.
Qed.

(** *** The stages of [processDocument] *)

Lemma save_chunks_returns (env : Env) (d : Document) (i : jsstring)
  (ids : list jsstring) (cs : list jsstring) :
  forall n w, exists w', save_chunks env d i ids n cs w = (w', Ok tt).
Proof.
  induction cs as [|c cs IH]; intros n w; cbn [save_chunks].
  - now exists w.
  - unfold bind, fresh_id, modify. apply IH.
Qed.

Lemma processDocument_unfold (env : Env) (i : jsstring) (w : World)
  (d : Document) :
  findOne_by_id i w = Some d ->
  processDocument env i w
  = match extract_and_upsert env i d w with
    | (w1, Ok upserted) =>
        match save_chunks env d i (snd upserted) 0 (fst upserted) w1 with
        | (w2, Ok _) => updateDocumentStatus i ready None w2
        | (w2, Throw e) => (w2, Throw e)
        end
    | (w1, Throw e) => (w1, Throw e)
    end.
Proof.
  intros H. unfold processDocument, bind at 1, get_world. rewrite H.
  unfold bind. reflexivity.
Qed.

(** The pipeline throws where its first stage throws, and nowhere else. *)
Lemma processDocument_throws (env : Env) (i : jsstring) (w w' : World)
  (d : Document) (e : exn) :
  findOne_by_id i w = Some d ->
  (processDocument env i w = (w', Throw e)
   <-> extract_and_upsert env i d w = (w', Throw e)).
Proof.
  intros H. rewrite (processDocument_unfold env i w d H).
  destruct (extract_and_upsert env i d w) as [w1 [p|e1]].
  - destruct (save_chunks_returns env d i (snd p) (fst p) 0 w1) as [w2 E].
    rewrite E. split; discriminate.
  - split; intros E; injection E as -> ->; reflexivity.
Qed.

Lemma extract_parse_fails (env : Env) (i : jsstring) (d : Document)
  (w : World) (e : exn) :
  parseFile env (path d) (type d) = Throw e ->
  exists w', extract_and_upsert env i d w = (w', Throw e).
Proof.
  intros H. unfold extract_and_upsert, bind at 1 2, log_call, modify, lift.
  rewrite H. eexists. reflexivity.
Qed.

Lemma extract_upsert_fails (env : Env) (i : jsstring) (d : Document)
  (w : World) :
  refusing_index env ->
  exists w' e, extract_and_upsert env i d w = (w', Throw e).
Proof.
  intros [x [Hin Hx]].
  assert (U : forall data w0, exists w' err,
                upsertVector env data w0 = (w', Throw err)).
  { intros data w0. apply upsertVector_fail.
    apply Exists_exists. exists x. split; [exact Hin|apply Hx]. }
  unfold extract_and_upsert, splitIntoChunks, bind, try_catch, log_call,
    writeFileSync, update_document, modify, lift, ret.
  destruct (parseFile env (path d) (type d)) as [parsed|e];
    [|eexists _, _; reflexivity].
  destruct (assistant_uploadFile env _) as [fid|e1];
    destruct (gemini_semanticChunking env _ _) as [cs|e2];
    match goal with
    | |- context [upsertVector env ?data ?w0] =>
        destruct (U data w0) as [w' [err E]]; rewrite E
    end; eexists _, _; reflexivity.
Qed.

(** The handler of [.catch] writes the status [error] and the message. *)
Lemma run_task_marks_error (env : Env) (i : jsstring) (w w' : World)
  (d : Document) (e : exn) :
  findOne_by_id i w = Some d ->
  processDocument env i w = (w', Throw e) ->
  chunks (fst (run_task env (ProcessTask i) w)) = chunks w'
  /\ exists d', findOne_by_id i (fst (run_task env (ProcessTask i) w))
                = Some d'
                /\ status d' = error
                /\ errorMessage d' = Some (message_of e).
Proof.
  intros H P. unfold run_task, try_catch. rewrite P.
  unfold updateDocumentStatus, update_document, modify. cbn [fst].
  split; [reflexivity|].
  destruct (findOne_by_id_registry i w w' d
              (processDocument_registry env i w w' _ P) H) as [d1 [F _]].
  exists (set_status error (Some (message_of e)) d1).
  split; [|split; reflexivity].
  unfold findOne_by_id in *. cbn [documents set_documents].
  now apply find_update.
Qed.

Lemma bind_ok_inv {A B : Type} (m : M A) (k : A -> M B) (w w' : World)
  (b : B) :
  bind m k w = (w', Ok b) ->
  exists a w0, m w = (w0, Ok a) /\ k a w0 = (w', Ok b).
Proof.
  unfold bind. destruct (m w) as [w0 [a|e]]; [|discriminate].
  intros H. now exists a, w0.
Qed.

Ltac bind_inv H :=
  match type of H with
  | bind _ _ _ = _ =>
      let a := fresh "a" in
      let w0 := fresh "w0" in
      let K := fresh "K" in
      apply bind_ok_inv in H; destruct H as (a & w0 & _ & K);
      rename K into H
  end.

Lemma build_data_text (env : Env) (d : Document) (i : jsstring) (n : N)
  (cs : list jsstring) :
  forall j, List.map record_text (build_data env d i n j cs) = cs.
Proof.
  induction cs as [|c cs IH]; intros j; [reflexivity|].
  cbn [build_data List.map record_text]. now rewrite IH.
Qed.

(** The first stage returns what [upsertVector] has returned. *)
Lemma extract_ok_upserted (env : Env) (i : jsstring) (d : Document)
  (w w1 : World) (upserted : list jsstring * list jsstring) :
  extract_and_upsert env i d w = (w1, Ok upserted) ->
  exists data w0,
    upsertVector env data w0 = (w1, Ok (snd upserted))
    /\ List.map record_text data = fst upserted.
Proof.
  intros H. unfold extract_and_upsert in H.
  do 6 bind_inv H.
  apply bind_ok_inv in H as (ids & w0' & U & Rt).
  unfold ret in Rt. injection Rt as <- <-.
  eexists _, _. split; [exact U|]. cbn [fst].
  apply build_data_text.
Qed.

End ServiceFacts.

(** ** The services: properties of the specification *)

Module ServiceClaims.
Import Js JsFacts Json JsonFacts Model PineconeService DocumentsService
  Frames Examples FrameFacts PipelineFacts ServiceFacts TextCleaner
  TextCleanerFacts.
Local Open Scope world_scope.

(** *** Uploads of the same content *)

(** With a document of the same fingerprint in the table, the upload throws
    the conflict and does nothing else. *)
Lemma upload_conflict (env : Env) (file : MulterFile) (u : jsstring)
  (w : World) (d : Document) :
  dir_exists (uploadPath env) w = true ->
  findOne_by_hash (sha256_hex env (buffer file)) w = Some d ->
  uploadDocument env file u w
  = (w, Throw (ConflictException duplicate_message (with_uploader d w))).
Proof.
  intros Hd Hf. unfold uploadDocument, bind, get_world.
  rewrite Hd. unfold ret. now rewrite Hf.
Qed.

(** After an upload, accepted or not, the directory is there and a
    document of that fingerprint is in the table; an accepted upload has
    added it as the last row. *)
Lemma upload_post (env : Env) (file : MulterFile) (u : jsstring)
  (w : World) :
  let h := sha256_hex env (buffer file) in
  let w1 := fst (uploadDocument env file u w) in
  dir_exists (uploadPath env) w1 = true
  /\ exists d, findOne_by_hash h w1 = Some d
       /\ (findOne_by_hash h w = None ->
           documents w1 = documents w ++ [d]
           /\ chunks w1 = chunks w
           /\ doc_userId d = u /\ fileHash d = Some h
           /\ status d = processing).
Proof.
  intros h w1. subst w1 h.
  unfold uploadDocument, bind, get_world.
  set (wa := fst ((if dir_exists (uploadPath env) w then ret tt
                   else mkdirSync (uploadPath env)) w)).
  assert (Ea : (if dir_exists (uploadPath env) w then ret tt
                else mkdirSync (uploadPath env)) w = (wa, Ok tt)).
  { subst wa. destruct (dir_exists (uploadPath env) w); reflexivity. }
  assert (Da : dir_exists (uploadPath env) wa = true).
  { subst wa. destruct (dir_exists (uploadPath env) w) eqn:E; [exact E|].
    cbn. unfold dir_exists. cbn. rewrite existsb_app. cbn.
    now rewrite eqb_refl, orb_true_r. }
  assert (Fa : documents wa = documents w /\ chunks wa = chunks w).
  { subst wa. destruct (dir_exists (uploadPath env) w); now split. }
  destruct Fa as [Fa Ca].
  rewrite Ea.
  assert (Ha : findOne_by_hash (sha256_hex env (buffer file)) wa
               = findOne_by_hash (sha256_hex env (buffer file)) w)
    by (unfold findOne_by_hash; now rewrite Fa).
  destruct (findOne_by_hash (sha256_hex env (buffer file)) wa)
    as [d0|] eqn:F.
  - cbn [fst]. split; [exact Da|]. exists d0. split; [exact F|].
    intros N. congruence.
  - unfold writeFileSync, fresh_id, set_off, modify. cbn [documents].
    match goal with
    | |- context [mkDocument ?a ?b ?c ?d ?e ?f ?g ?h ?i ?j ?k ?l] =>
        set (doc := mkDocument a b c d e f g h i j k l)
    end.
    match goal with
    | |- context [match ?x with Some _ => _ | None => _ end] =>
        destruct x
    end; cbn [fst ret];
      (split; [exact Da|]); exists doc;
      (split;
       [ unfold findOne_by_hash, set_files;
         cbn [documents set_documents];
         apply find_app_last;
         [ unfold findOne_by_hash in F; exact F
         | cbn; apply eqb_refl ]
       | intros _; unfold set_files;
         cbn [documents chunks set_documents];
         rewrite Fa, Ca; repeat split ]).
Qed.

(** C1: of two uploads of the same bytes, whatever tasks of the pipeline
    run between them, the second throws the conflict "Document with the
    same content already exists", with the stored document of that
    fingerprint and the email and the name of its uploader; it leaves the
    world as it was: no row is added and none is changed. When the first
    upload was accepted, that document is the row it added, and belongs to
    the first uploader. *)
Theorem duplicate_upload_rejected (env : Env) (w : World)
  (file1 file2 : MulterFile) (u1 u2 : jsstring) (ts : list Task) :
  buffer file1 = buffer file2 ->
  let h := sha256_hex env (buffer file1) in
  let w1 := fst (uploadDocument env file1 u1 w) in
  let w2 := run_tasks env ts w1 in
  exists d,
    findOne_by_hash h w2 = Some d
    /\ uploadDocument env file2 u2 w2
       = (w2, Throw (ConflictException duplicate_message
                       (mkView d
                          (or_null (option_map email (user_of d w2)))
                          (or_null (option_map name (user_of d w2))))))
    /\ (findOne_by_hash h w = None ->
        exists d1, documents w1 = documents w ++ [d1]
                   /\ id d = id d1 /\ fileHash d = Some h
                   /\ doc_userId d = u1).
Proof.
  intros Hb h w1 w2.
  destruct (upload_post env file1 u1 w) as [Hd [d1 [F1 P1]]].
  fold h w1 in Hd, F1, P1.
  pose proof (run_tasks_registry env ts w1) as Hr. fold w2 in Hr.
  destruct (findOne_by_hash_registry h w1 w2 d1 Hr F1) as [d [F2 I2]].
  exists d. split; [exact F2|]. split.
  - apply upload_conflict.
    + destruct Hr as [_ [_ Hdirs]]. unfold dir_exists in *.
      now rewrite Hdirs.
    + rewrite <- Hb. exact F2.
  - intros N. destruct (P1 N) as [E [_ [U [H _]]]].
    exists d1. unfold identity in I2.
    repeat split; try exact E; congruence.
Qed.

Lemma duplicate_upload_rejected_witness :
  buffer notes_file = buffer notes_file
  /\ exists d,
       findOne_by_hash (sha256_hex example_env (buffer notes_file))
         (run_tasks example_env [ProcessTask (str "row-0")]
            (fst (uploadDocument example_env notes_file (str "u1")
                    empty_world)))
       = Some d.
Proof.
  assert (H : buffer notes_file = buffer notes_file) by reflexivity.
  split; [exact H|].
  destruct (duplicate_upload_rejected example_env empty_world notes_file
              notes_file (str "u1") (str "u2")
              [ProcessTask (str "row-0")] H) as [d [F _]].
  exists d. exact F.
Defined.

(** *** Errors in the pipeline *)

(** C2: when [processDocument] throws on a document that is there, the
    rows of the chunks are as they were, and the handler of the task writes
    the status [error] with the message of the error. The pipeline throws
    when the extraction throws and when an index refuses the upsert. In
    every run, a change of the rows of the chunks means that
    [upsertVector] has returned, with the rows still as they were, and
    that the pipeline returns. *)
Theorem pipeline_error_no_chunks (env : Env) (i : jsstring) (w : World)
  (d : Document) :
  findOne_by_id i w = Some d ->
  (forall w' e, processDocument env i w = (w', Throw e) ->
     chunks w' = chunks w
     /\ chunks (fst (run_task env (ProcessTask i) w)) = chunks w
     /\ exists d', findOne_by_id i (fst (run_task env (ProcessTask i) w))
                   = Some d'
                   /\ status d' = error
                   /\ errorMessage d' = Some (message_of e))
  /\ (forall e, parseFile env (path d) (type d) = Throw e ->
       exists w', processDocument env i w = (w', Throw e))
  /\ (refusing_index env ->
       exists w' e, processDocument env i w = (w', Throw e))
  /\ (forall w' r, processDocument env i w = (w', r) ->
       chunks w' <> chunks w ->
       r = Ok tt
       /\ exists w0 w1 data chunkIds,
            upsertVector env data w0 = (w1, Ok chunkIds)
            /\ chunks w1 = chunks w).
Proof.
  intros H. split; [|split; [|split]].
  - intros w' e P.
    assert (C : chunks w' = chunks w).
    { apply (processDocument_throws env i w w' d e H) in P.
      exact (extract_and_upsert_same_chunks env i d w w' _ P). }
    destruct (run_task_marks_error env i w w' d e H P) as [C' M].
    split; [exact C|]. split; [congruence|exact M].
  - intros e P. destruct (extract_parse_fails env i d w e P) as [w' E].
    exists w'. now apply (processDocument_throws env i w w' d e H).
  - intros R. destruct (extract_upsert_fails env i d w R) as [w' [e E]].
    exists w', e. now apply (processDocument_throws env i w w' d e H).
  - intros w' r P N. rewrite (processDocument_unfold env i w d H) in P.
    destruct (extract_and_upsert env i d w) as [w1 [p|e1]] eqn:E.
    + pose proof (extract_and_upsert_same_chunks env i d w w1 _ E) as C.
      destruct (save_chunks_returns env d i (snd p) (fst p) 0 w1) as [w2 S].
      rewrite S in P. injection P as <- <-.
      split; [reflexivity|].
      destruct (extract_ok_upserted env i d w w1 p E) as [data [w0 [U _]]].
      now exists w0, w1, data, (snd p).
    + injection P as <- <-. exfalso. apply N.
      exact (extract_and_upsert_same_chunks env i d w w1 _ E).
Qed.

Lemma pipeline_error_no_chunks_witness :
  exists d,
    findOne_by_id (str "row-0") processing_world = Some d
    /\ exists w' e,
         processDocument air_down_env (str "row-0") processing_world
         = (w', Throw e).
Proof.
  eexists. assert (H : findOne_by_id (str "row-0") processing_world = Some _)
    by (vm_compute; reflexivity).
  split; [exact H|].
  apply (pipeline_error_no_chunks air_down_env (str "row-0")
           processing_world _ H).
  exists (str "air", mkIndex (str "air") (str "https://air.example")).
  split; [vm_compute; auto|].
  intros data. eexists. reflexivity.
Defined.

(** *** upsertVector *)

(** C3, as stated, fails on the code: with the default index configured
    under the name of the other index, the table holds one entry, and the
    upsert goes to the address of the other index only; the address of the
    default index gets no call. *)
Lemma upsert_same_name_counterexample :
  configured (PINECONE_INDEX_URL same_name_env)
  = Some (str "https://default.example")
  /\ upsertVector same_name_env one_record empty_world
     = (add_calls
          [UpsertRecords (mkIndex (str "air") (str "https://air.example"))
                         one_record]
          empty_world,
        Ok [str "d1_chunk_0"]).
Proof. split; reflexivity. Qed.

(** C3, amended: the table of indexes is keyed by name; it holds the index
    [air] when its address is configured, and the default index when its
    address is configured and the other index is not configured under the
    same name, and nothing else; each name is there once, and with both
    addresses configured under one name the table is the one entry of the
    index [air]. A service that has started has a table that is not
    empty. When every index of the table takes the upsert, each has been
    sent the same records once, in the order of the table, no other call is
    made, and the identifiers of the records that are not empty are
    returned. When an index of the table refuses, [upsertVector] throws and
    the rows of the chunks are as they were; the task that ran the pipeline
    then writes the status [error] on the document. With an empty table
    [upsertVector] throws before any call. *)
Theorem upsertVector_every_index (env : Env) (vector : list VectorRecord)
  (w : World) :
  (forall k i,
     In (k, i) (indexes env)
     <-> (exists u, configured (PINECONE_INDEX_URL_AIR env) = Some u
                    /\ k = airIndexName env
                    /\ i = mkIndex (airIndexName env) u)
         \/ (exists u, configured (PINECONE_INDEX_URL env) = Some u
                       /\ (configured (PINECONE_INDEX_URL_AIR env) = None
                           \/ airIndexName env <> defaultIndexName env)
                       /\ k = defaultIndexName env
                       /\ i = mkIndex (defaultIndexName env) u))
  /\ NoDup (List.map fst (indexes env))
  /\ (forall u v,
        configured (PINECONE_INDEX_URL env) = Some u ->
        configured (PINECONE_INDEX_URL_AIR env) = Some v ->
        airIndexName env = defaultIndexName env ->
        indexes env = [(airIndexName env, mkIndex (airIndexName env) v)])
  /\ (forall w0, snd (onModuleInit env w0) = Ok tt -> indexes env <> [])
  /\ (indexes env <> [] ->
      Forall (fun e => upsertRecords env (snd e) vector = Ok tt)
             (indexes env) ->
      upsertVector env vector w
      = (add_calls (List.map (fun e => UpsertRecords (snd e) vector)
                             (indexes env)) w,
         Ok (filter truthy (List.map record_id vector))))
  /\ (Exists (fun e => exists err,
                upsertRecords env (snd e) vector = Throw err)
             (indexes env) ->
      exists w' err, upsertVector env vector w = (w', Throw err)
                     /\ chunks w' = chunks w)
  /\ (indexes env = [] ->
      upsertVector env vector w
      = (w, Throw (Error (str
               "At least one Pinecone index URL must be configured"))))
  /\ (forall i d, findOne_by_id i w = Some d -> refusing_index env ->
      exists d' msg,
        findOne_by_id i (fst (run_task env (ProcessTask i) w)) = Some d'
        /\ status d' = error /\ errorMessage d' = Some msg).
Proof.
  split.
  { intros k i. split; [apply indexes_only|].
    intros [(u & A & -> & ->)|(u & A & D & -> & ->)];
      [now apply indexes_air|now apply indexes_default]. }
  split; [apply indexes_names|]. split; [apply indexes_same_name|].
  split.
  { intros w0 H. destruct (onModuleInit_ok env w0 H) as [u Hu].
    exact (indexes_started env u Hu). }
  split; [apply upsertVector_ok|]. split; [|split].
  - intros H. destruct (upsertVector_fail env vector w H) as [w' [err E]].
    exists w', err. split; [exact E|].
    exact (upsertVector_same_chunks env vector w w' _ E).
  - intros E. unfold upsertVector. now rewrite E.
  - intros i d H R.
    destruct (extract_upsert_fails env i d w R) as [w' [e E]].
    apply (processDocument_throws env i w w' d e H) in E.
    destruct (run_task_marks_error env i w w' d e H E) as [_ [d' [F [S M]]]].
    now exists d', (message_of e).
Qed.

(** *** reprocessDocument *)

(** C4 fails on the code: [reprocessDocument] reads the chunks and does
    nothing with them. On a document that is ready with two chunks, the
    reprocessing, which cuts the text into one chunk, leaves three rows of
    chunks, the two old ones first, and makes no call that deletes a
    vector. In general the reprocessing and its task only add rows of
    chunks and make no call that deletes. *)
Theorem reprocess_keeps_old_chunks :
  (let w1 := fst (reprocessDocument example_env (str "d1") (str "u1")
                    ready_world) in
   let w2 := fst (run_task example_env (ProcessTask (str "d1")) w1) in
   List.map pineconeId (chunks w2)
   = [str "d1_chunk_0"; str "d1_chunk_1"; str "d1_chunk_0"]
   /\ existsb is_delete (calls w2) = false
   /\ option_map status (findOne_by_id (str "d1") w2) = Some ready)
  /\ forall env i u w,
       let w1 := fst (reprocessDocument env i u w) in
       let w2 := fst (run_task env (ProcessTask i) w1) in
       calls w1 = calls w /\ chunks w1 = chunks w
       /\ calls_grow (fun c => is_delete c = false) w w2
       /\ chunks_grow w w2.
Proof.
  split; [vm_compute; auto|].
  intros env i u w w1 w2.
  assert (R : calls w1 = calls w /\ chunks w1 = chunks w).
  { subst w1. unfold reprocessDocument, getDocument, bind, get_world.
    destruct (findOne_by_id_user i u w); split; reflexivity. }
  destruct R as [R1 R2]. split; [exact R1|]. split; [exact R2|].
  pose proof (run_task_calls (fun c => is_delete c = false) env
                (ProcessTask i) ltac:(auto) w1 w2 _
                (surjective_pairing _)) as [n [E F]].
  pose proof (run_task_chunks_grow env (ProcessTask i) w1 w2 _
                (surjective_pairing _)) as [m G].
  split.
  - exists n. split; [congruence|exact F].
  - exists m. congruence.
Qed.

(** *** The metadata, there and back *)

Lemma build_data_category (env : Env) (d : Document) (i : jsstring) (n : N)
  (cs : list jsstring) :
  forall j r, In r (build_data env d i n j cs) ->
    exists k, record_category r
              = stringify_metadata (chunk_metadata env d k n).
Proof.
  induction cs as [|c cs IH]; intros j r H; [destruct H|].
  cbn [build_data] in H. destruct H as [<-|H].
  - now exists j.
  - now apply (IH (j + 1)%N).
Qed.

Lemma categoryValue_category (h : Hit) (c : jsstring) :
  category (fields h) = Some c -> truthy c = true -> categoryValue h = c.
Proof.
  intros H T. unfold categoryValue. rewrite H. cbn [config_get].
  unfold or_else at 2. rewrite T. unfold or_else. now rewrite T.
Qed.

(** C5, as stated, fails on the code: the value that is parsed is the
    category, or the text when the category is empty. A hit with an empty
    category, which is no JSON, and the text [42] comes back with the
    number 42 as its metadata, parsed from the text, not with metadata made
    of the category. *)
Lemma empty_category_counterexample :
  category (fields numeric_text_hit) = Some []
  /\ JSON_parse [] = None
  /\ metadata (fields (parse_hit numeric_text_hit)) = Some (JNumber 42 0).
Proof. repeat split. Qed.

(** C5, amended: the category that [processDocument] writes for a chunk is
    the JSON text of its metadata, and a hit that carries it comes back
    from [queryVectors] with these metadata: the same [documentId],
    [userId], [fileName], [fileType], [chunkIndex], [totalChunks] and
    [createdAt]. The value that is parsed is the category when it is not
    empty, else the text, else the empty string; for every hit whose value
    is no JSON, the hit comes back with the metadata [{ documentId: value }]
    made of that value, and the query does not fail for it: whatever index
    [queryVectors] selects, when the search returns hits the query returns
    them, each one so made. *)
Theorem metadata_round_trip :
  (forall env d i n j cs r h,
     In r (build_data env d i n j cs) ->
     category (fields h) = Some (record_category r) ->
     exists k,
       record_category r = stringify_metadata (chunk_metadata env d k n)
       /\ metadata (fields (parse_hit h))
          = Some (metadata_value (chunk_metadata env d k n))
       /\ get (metadata_value (chunk_metadata env d k n)) (str "documentId")
          = Some (JString (id d))
       /\ get (metadata_value (chunk_metadata env d k n)) (str "chunkIndex")
          = Some (JNumber (Z.of_N k) 0))
  /\ (forall h c, category (fields h) = Some c -> truthy c = true ->
       categoryValue h = c)
  /\ (forall h, JSON_parse (categoryValue h) = None ->
       parse_hit h
       = mkHit (hit_id h) (hit_score h)
           (mkFields (Some (categoryValue h))
              (Some (or_else (config_get (text (fields h)) [])
                             (categoryValue h)))
              (Some (JObject [(str "documentId",
                               JString (categoryValue h))]))))
  /\ (forall env q name hits w,
       (forall i, selectedIndex env name = Some (Own i) ->
          searchRecords env i q = Ok hits ->
          queryVectors env q name w
          = (add_calls [SearchRecords i q] w,
             Ok (List.map parse_hit hits)))
       /\ (forall key, selectedIndex env name = Some (Inherited key) ->
            searchRecords_by_name env (member_name key) q = Ok hits ->
            queryVectors env q name w
            = (add_calls [SearchRecordsByName (member_name key) q] w,
               Ok (List.map parse_hit hits)))).
Proof.
  split; [|split; [|split]].
  - intros env d i n j cs r h Hr Hc.
    destruct (build_data_category env d i n cs j r Hr) as [k E].
    exists k. split; [exact E|]. split; [|split; reflexivity].
    unfold parse_hit.
    rewrite (categoryValue_category h _ Hc), E
      by (rewrite E; apply stringify_metadata_truthy).
    now rewrite JSON_parse_stringify_metadata.
  - apply categoryValue_category.
  - intros h H. unfold parse_hit. now rewrite H.
  - intros env q name hits w. split.
    + intros i Hi Hs. unfold queryVectors. rewrite Hi.
      unfold bind, log_call, modify, lift. rewrite Hs. reflexivity.
    + intros key Hi Hs. unfold queryVectors. rewrite Hi.
      unfold bind, log_call, modify, lift. rewrite Hs. reflexivity.
Qed.

(** *** deleteDocument *)

(** After a call that returned, no row has the identifier. *)
Lemma deleteDocument_gone (env : Env) (i u : jsstring) (w w' : World) :
  deleteDocument env i u w = (w', Ok tt) ->
  forall u', findOne_by_id_user i u' w' = None.
Proof.
  intros H u'. unfold deleteDocument in H.
  repeat bind_inv H.
  unfold delete_document, modify in H. injection H as <-.
  unfold findOne_by_id_user. cbn [documents set_chunks set_documents].
  apply find_filter_none. intros x Hx. now apply andb_prop in Hx as [Hx _].
Qed.

Lemma delete_all_ok (env : Env) (ids : list jsstring)
  (idxs : list (jsstring * Index)) :
  (forall x, In x idxs -> deleteMany env (snd x) ids = Ok tt) ->
  forall w, exists w', delete_all env idxs ids w = (w', Ok tt).
Proof.
  induction idxs as [|[k x] rest IH]; intros H w.
  - now exists w.
  - cbn [delete_all]. unfold bind, log_call, modify, lift.
    pose proof (H (k, x) (or_introl eq_refl)) as Hx. cbn [snd] in Hx.
    rewrite Hx. apply IH.
    intros y Hy. apply H. now right.
Qed.

(** With the row there and the indexes taking the deletion, the call
    returns, whether the files are there or not. *)
Lemma deleteDocument_returns (env : Env) (i u : jsstring) (w : World)
  (d : Document) :
  findOne_by_id_user i u w = Some d ->
  (forall x ids, In x (indexes env) -> deleteMany env (snd x) ids = Ok tt) ->
  exists w', deleteDocument env i u w = (w', Ok tt).
Proof.
  intros F D.
  assert (V : forall ids w0, exists w1, deleteVectors env ids w0 = (w1, Ok tt)).
  { intros ids w0. unfold deleteVectors.
    destruct (Z.of_nat (List.length ids) =? 0)%Z; [now exists w0|].
    apply delete_all_ok. intros x Hx. now apply D. }
  unfold deleteDocument, getDocument, bind at 1 2, get_world. rewrite F.
  unfold ret at 1.
  set (s1 := match or_null (assistantFileId d) with
             | Some fileId =>
                 try_catch
                   (log_call (AssistantDelete fileId);;;
                    lift (assistant_deleteFile env fileId))
                   (fun _ => ret tt)
             | None => ret tt
             end).
  assert (S1 : exists wa, s1 w = (wa, Ok tt)).
  { subst s1. destruct (or_null (assistantFileId d)); [|now exists w].
    unfold try_catch, bind, log_call, modify, lift, ret.
    destruct (assistant_deleteFile env j) as [[]|e]; eexists; reflexivity. }
  destruct S1 as [wa S1]. unfold bind at 1. rewrite S1.
  unfold bind at 1, get_world.
  match goal with
  | |- context [bind ?m _ wa] =>
      assert (S2 : exists wb, m wa = (wb, Ok tt))
  end.
  { destruct (Z.of_nat (List.length (find_chunks i wa)) >? 0)%Z;
      [|now exists wa].
    destruct (Z.of_nat (List.length _) >? 0)%Z; [apply V|now exists wa]. }
  destruct S2 as [wb S2]. unfold bind at 1. rewrite S2.
  unfold bind, get_world, unlinkSync, delete_document, modify, ret.
  destruct (existsSync (path d) wb);
    destruct (or_null (textFilePath d));
    try match goal with
        | |- context [existsSync ?p ?x] => destruct (existsSync p x)
        end;
    eexists; reflexivity.
Qed.

(** C9, as stated, fails on the code: the second of two calls in sequence
    throws [NotFoundException], because the first has deleted the row that
    [getDocument] looks for. *)
Lemma delete_twice_counterexample :
  let w1 := fst (deleteDocument example_env (str "d1") (str "u1")
                   ready_world) in
  snd (deleteDocument example_env (str "d1") (str "u1") ready_world) = Ok tt
  /\ findOne_by_id (str "d1") ready_world = Some ready_document
  /\ deleteDocument example_env (str "d1") (str "u1") w1
     = (w1, Throw (NotFoundException (str "Document not found"))).
Proof. vm_compute. auto. Qed.

(** C9, amended: after a call of [deleteDocument] that returned, a second
    call throws [NotFoundException] with the message "Document not found",
    before it deletes anything, and leaves the world as it is. A call on a
    row that is there returns when the indexes take the deletion of the
    vectors, whether the two files are there or not: a file that is
    missing is passed over. *)
Theorem delete_twice_not_found (env env' : Env) (i u : jsstring)
  (w w' : World) :
  deleteDocument env i u w = (w', Ok tt) ->
  deleteDocument env' i u w'
  = (w', Throw (NotFoundException (str "Document not found")))
  /\ forall w0 d,
       findOne_by_id_user i u w0 = Some d ->
       (forall x ids, In x (indexes env) ->
          deleteMany env (snd x) ids = Ok tt) ->
       exists w1, deleteDocument env i u w0 = (w1, Ok tt).
Proof.
  intros H. split.
  - unfold deleteDocument, getDocument, bind, get_world.
    now rewrite (deleteDocument_gone env i u w w' H u).
  - intros w0 d F D. now apply (deleteDocument_returns env i u w0 d).
Qed.

Lemma delete_twice_not_found_witness :
  deleteDocument example_env (str "d1") (str "u1")
    (fst (deleteDocument example_env (str "d1") (str "u1") ready_world))
  = (fst (deleteDocument example_env (str "d1") (str "u1") ready_world),
     Throw (NotFoundException (str "Document not found"))).
Proof.
  assert (H : deleteDocument example_env (str "d1") (str "u1") ready_world
              = (fst (deleteDocument example_env (str "d1") (str "u1")
                        ready_world), Ok tt))
    by (vm_compute; reflexivity).
  apply (delete_twice_not_found example_env example_env (str "d1")
           (str "u1") ready_world _ H).
Defined.

(** *** cleanTextLineBreaks *)

Lemma splitIntoChunks_text (env : Env) (t : jsstring) (n : Z) (w : World) :
  splitIntoChunks env t n w
  = (add_calls [GeminiChunking t n] w,
     Ok match gemini_semanticChunking env t n with
        | Ok cs => cs
        | Throw _ => Chunker.semanticChunking t n (fraction 1 10)
        end).
Proof.
  unfold splitIntoChunks, try_catch, bind, log_call, modify, lift, ret.
  destruct (gemini_semanticChunking env t n); reflexivity.
Qed.


End ServiceClaims.

(** ** The paragraph loop cuts the paragraphs into groups *)

Module GroupFacts.
Import Js JsFacts WordFacts Chunker LastWordsFacts ParagraphFacts LoopFacts
  Groups.

Lemma buffer_of_app (g h : list jsstring) :
  buffer_of (g ++ h) = buffer_of g ++ buffer_of h.
Proof. unfold buffer_of. now rewrite List.map_app, concat_app. Qed.

Lemma buffer_of_one (p : jsstring) : buffer_of [p] = p ++ [NL; NL].
Proof. unfold buffer_of. cbn. now rewrite app_nil_r. Qed.

Lemma buffer_of_nil_inv (g : list jsstring) : buffer_of g = [] -> g = [].
Proof.
  destruct g as [|p g]; [reflexivity|]. unfold buffer_of. cbn.
  intros E. apply app_eq_nil in E as [E _].
  apply app_eq_nil in E as [_ E]. discriminate.
Qed.

Lemma trimEnd_buffer_of (g : list jsstring) :
  Forall (fun p => starts_nonspace p = true /\ ends_nonspace p = true) g ->
  g <> [] -> trimEnd (buffer_of g) = join [NL; NL] g.
Proof.
  intros Hg Hne. rewrite buffer_of_join by exact Hne.
  destruct (join_good [NL; NL] g Hg Hne) as [_ J].
  rewrite trimEnd_app_space by reflexivity. now apply trimEnd_id.
Qed.

(** One turn of the loop that is not the last: the buffer is pushed and a
    new group is started, or the paragraph joins the group in the buffer. *)
Lemma paragraph_step_groups (S : Z) (O : number) (st : traced_state) (p : jsstring)
  (gs : list (list jsstring)) (g : list jsstring) :
  starts_nonspace p = true ->
  List.map push_buffer (pushes st) = List.map buffer_of gs ->
  t_currentChunk st = buffer_of g ->
  Forall (sized S) gs -> (g = [] \/ sized S g) ->
  (buffer_of g = [] \/ good_buffer (buffer_of g)) ->
  exists gs1 g1,
    List.map push_buffer (pushes (paragraph_step_traced S O st p false))
    = List.map buffer_of gs1
    /\ t_currentChunk (paragraph_step_traced S O st p false) = buffer_of g1
    /\ Forall (sized S) gs1 /\ sized S g1
    /\ List.concat gs1 ++ g1 = List.concat gs ++ g ++ [p]
    /\ good_buffer (buffer_of g1).
Proof.
  intros Hp Hpush Hcur Hgs Hg Hb. unfold paragraph_step_traced. cbn [andb].
  rewrite Hcur.
  destruct ((len (buffer_of g ++ p) >? S)%Z && (len (buffer_of g) >? 0)%Z)
    eqn:E; cbn [pushes t_currentChunk t_previousContext].
  - apply andb_prop in E as [_ E].
    destruct Hg as [->|Hg]; [discriminate|].
    exists (gs ++ [g]), [p]. rewrite !List.map_app, Hpush.
    cbn [List.map push_buffer]. rewrite buffer_of_one.
    split; [reflexivity|]. split; [reflexivity|].
    split; [apply Forall_app; split; [exact Hgs|now constructor]|].
    split; [split; [discriminate|now left]|].
    split.
    + rewrite concat_app. cbn [List.concat]. now rewrite app_nil_r, app_assoc.
    + apply (good_buffer_extend [] p); auto.
  - exists gs, (g ++ [p]). rewrite buffer_of_app, buffer_of_one.
    split; [exact Hpush|]. split; [reflexivity|]. split; [exact Hgs|].
    split; [|split; [now rewrite app_assoc|]].
    + split; [now destruct g|].
      destruct Hg as [->|[Hne _]]; [now left|right].
      rewrite buffer_of_app, buffer_of_one.
      destruct g as [|q g]; [congruence|].
      assert (L : (len (buffer_of (q :: g)) >? 0)%Z = true).
      { unfold buffer_of. cbn [List.map List.concat].
        rewrite !len_app. apply Z.gtb_lt.
        pose proof (len_nonneg q).
        pose proof (len_nonneg
                      (List.concat
                         (List.map (fun p0 => p0 ++ [NL; NL]) g))).
        change (len [NL; NL]) with 2%Z. lia. }
      rewrite L, andb_true_r in E. rewrite Z.gtb_ltb in E.
      apply Z.ltb_ge in E. rewrite app_assoc, len_app.
      change (len [NL; NL]) with 2%Z. lia.
    + now apply good_buffer_extend.
Qed.

(** The last turn pushes the buffer it has built. *)
Lemma paragraph_step_traced_true (S : Z) (O : number) (st : traced_state)
  (p : jsstring) :
  good_buffer (t_currentChunk (paragraph_step_traced S O st p false)) ->
  paragraph_step_traced S O st p true
  = mkTraced
      (pushes (paragraph_step_traced S O st p false)
       ++ [mkPush (t_previousContext (paragraph_step_traced S O st p false))
                  (t_currentChunk (paragraph_step_traced S O st p false))])
      (t_currentChunk (paragraph_step_traced S O st p false))
      (t_previousContext (paragraph_step_traced S O st p false)).
Proof.
  unfold paragraph_step_traced. cbn [andb].
  destruct ((len (t_currentChunk st ++ p) >? S)%Z
            && (len (t_currentChunk st) >? 0)%Z);
    cbn [pushes t_currentChunk t_previousContext]; intros G;
    now rewrite (good_buffer_trim _ G).
Qed.

Lemma paragraph_loop_groups (S : Z) (O : number) (ps : list jsstring) :
  Forall (fun p => starts_nonspace p = true) ps -> ps <> [] ->
  forall st gs g,
    List.map push_buffer (pushes st) = List.map buffer_of gs ->
    t_currentChunk st = buffer_of g ->
    Forall (sized S) gs -> (g = [] \/ sized S g) ->
    (buffer_of g = [] \/ good_buffer (buffer_of g)) ->
    exists gs',
      List.map push_buffer (pushes (paragraph_loop_traced S O st ps))
      = List.map buffer_of gs'
      /\ Forall (sized S) gs'
      /\ List.concat gs' = List.concat gs ++ g ++ ps.
Proof.
  induction ps as [|p rest IH]; intros Hps Hne st gs g Hpush Hcur Hgs Hg Hb;
    [congruence|].
  inversion Hps as [|? ? Hp Hrest]; subst.
  destruct (paragraph_step_groups S O st p gs g Hp Hpush Hcur Hgs Hg Hb)
    as (gs1 & g1 & E1 & E2 & F1 & F2 & C & G).
  cbn [paragraph_loop_traced]. destruct rest as [|q rest].
  - cbn [paragraph_loop_traced].
    rewrite paragraph_step_traced_true by (rewrite E2; exact G).
    cbn [pushes]. exists (gs1 ++ [g1]).
    rewrite !List.map_app, E1, E2. cbn [List.map push_buffer].
    split; [reflexivity|].
    split; [apply Forall_app; split; [exact F1|now constructor]|].
    rewrite concat_app. cbn [List.concat]. now rewrite app_nil_r.
  - destruct (IH Hrest ltac:(discriminate) _ gs1 g1 E1 E2 F1
                (or_intror F2) (or_intror G)) as (gs' & A & B & D).
    exists gs'. split; [exact A|]. split; [exact B|].
    rewrite D, app_assoc, C, <- !app_assoc. reflexivity.
Qed.

(** The overlaps of a chain are within [overlapSize] and its buffers are
    buffers of the loop. *)
Lemma chained_Forall (O : number) (l : list push) :
  forall c0 c1, chained O c0 l c1 ->
    (le_number 0 O = true -> le_number (len (trimStart c0)) O = true) ->
    Forall (fun pu => good_buffer (push_buffer pu)
                      /\ (le_number 0 O = true ->
                          le_number (len (trimStart (push_context pu))) O
                          = true)) l.
Proof.
  induction l as [|pu l IH]; intros c0 c1 H H0; [constructor|].
  cbn [chained] in H. destruct H as (E & G & H).
  constructor.
  - split; [exact G|]. now rewrite E.
  - eapply IH; [exact H|]. intros HO. now apply overlap_len.
Qed.

Lemma map_eq_Forall2 {A B C : Type} (f : A -> C) (h : B -> C) (l : list A) :
  forall gs, List.map f l = List.map h gs ->
    Forall2 (fun a b => f a = h b) l gs.
Proof.
  induction l as [|a l IH]; intros [|b gs] E; try discriminate;
    constructor; cbn [List.map] in E; [congruence|].
  apply IH. congruence.
Qed.

Lemma Forall2_combine {A B : Type} (P : A -> Prop) (Q : B -> Prop)
  (R R' : A -> B -> Prop) (l : list A) :
  (forall a b, P a -> Q b -> R a b -> R' a b) ->
  forall gs, Forall P l -> Forall Q gs -> Forall2 R l gs ->
    Forall2 R' l gs.
Proof.
  intros H. induction l as [|a l IH]; intros gs Hl Hgs H2;
    inversion H2; subst; constructor;
    inversion Hl; inversion Hgs; subst; auto.
Qed.

Lemma Forall2_map_left {A B C : Type} (f : A -> C) (R : C -> B -> Prop)
  (l : list A) :
  forall gs, Forall2 (fun a b => R (f a) b) l gs ->
    Forall2 R (List.map f l) gs.
Proof.
  induction l as [|a l IH]; intros gs H; inversion H; subst;
    cbn [List.map]; constructor; auto.
Qed.

Lemma Forall_concat_inv {A : Type} (P : A -> Prop) (gs : list (list A)) :
  Forall P (List.concat gs) -> Forall (Forall P) gs.
Proof.
  induction gs as [|g gs IH]; intros H; [constructor|].
  cbn [List.concat] in H. apply Forall_app in H as [H1 H2].
  constructor; auto.
Qed.

(** The pushes of [semanticChunking] and the groups of paragraphs they are
    made of: the groups, one after the other, are the paragraphs of the
    text, and each chunk is its overlap followed by the paragraphs of its
    group, two line feeds between them. *)
Lemma semantic_pushes_groups (text : jsstring) (S : Z) (r : binary64) :
  exists groups,
    List.concat groups = paragraphs_of text
    /\ Forall (sized S) groups
    /\ Forall2
         (fun pu g =>
            emitted pu = trimStart (push_context pu) ++ join [NL; NL] g
            /\ (le_number 0 (overlap_size S r) = true ->
                le_number (len (trimStart (push_context pu)))
                          (overlap_size S r) = true))
         (semantic_pushes text S r) groups
    /\ (forall pu, hd_error (semantic_pushes text S r) = Some pu ->
          push_context pu = []).
Proof.
  unfold semantic_pushes. set (O := overlap_size S r).
  destruct (paragraph_loop_traced_chained S O (paragraphs_of text)
              (paragraphs_start text) _ (loop_inv_init O)) as [[c Hc] _].
  assert (Hhd : forall pu,
             hd_error (pushes (paragraph_loop_traced S O (mkTraced [] [] [])
                                 (paragraphs_of text))) = Some pu ->
             push_context pu = []).
  { intros pu E.
    destruct (pushes (paragraph_loop_traced S O (mkTraced [] [] [])
                        (paragraphs_of text))) as [|pu' l];
      [discriminate|].
    cbn in E. injection E as ->. cbn [chained] in Hc. now destruct Hc. }
  destruct (paragraphs_of text) as [|p0 ps0] eqn:EP.
  - exists []. cbn [paragraph_loop_traced pushes List.concat].
    repeat split; try constructor. intros pu E. discriminate.
  - rewrite <- EP in *.
    assert (Hne : paragraphs_of text <> []) by (rewrite EP; discriminate).
    destruct (paragraph_loop_groups S O (paragraphs_of text)
                (paragraphs_start text) Hne (mkTraced [] [] []) [] []
                eq_refl eq_refl (Forall_nil _) (or_introl eq_refl)
                (or_introl eq_refl)) as (groups & A & B & C).
    cbn [List.concat app] in C.
    exists groups. split; [exact C|]. split; [exact B|]. split; [|exact Hhd].
    apply chained_Forall in Hc; [|intros HO; exact HO].
    pose proof (paragraphs_good text) as Hgood. rewrite <- C in Hgood.
    apply Forall_concat_inv in Hgood.
    assert (Hboth : Forall (fun g =>
               Forall (fun p => starts_nonspace p = true
                                /\ ends_nonspace p = true) g
               /\ sized S g) groups).
    { apply Forall_forall. intros g Hg. rewrite Forall_forall in Hgood, B.
      auto. }
    apply map_eq_Forall2 in A.
    eapply Forall2_combine; [|exact Hc|exact Hboth|exact A].
    intros [ctx buf] g [G Hlen] [Hg [Hgne _]] E.
    cbn [push_buffer push_context] in *. split; [|exact Hlen].
    rewrite emitted_split by exact G. rewrite E.
    now rewrite trimEnd_buffer_of.
Qed.

End GroupFacts.

(** ** The chunker: further properties *)

Module ChunkerMore.
Import Js JsFacts WordFacts Chunker LastWordsFacts ParagraphFacts LoopFacts
  Groups GroupFacts.

Lemma Forall2_Forall_left {A B : Type} (R : A -> B -> Prop) (Q : B -> Prop)
  (P : A -> Prop) (l : list A) :
  (forall a b, Q b -> R a b -> P a) ->
  forall gs, Forall Q gs -> Forall2 R l gs -> Forall P l.
Proof.
  intros H. induction l as [|a l IH]; intros gs Hgs H2; [constructor|].
  inversion H2; subst. inversion Hgs; subst. constructor; eauto.
Qed.

Lemma length_concat_nonempty {A : Type} (gs : list (list A)) :
  Forall (fun g => g <> []) gs ->
  List.length gs <= List.length (List.concat gs).
Proof.
  induction gs as [|g gs IH]; intros H; [apply le_n|].
  inversion H as [|? ? Hg Hgs]; subst. cbn [List.concat List.length].
  rewrite length_app. specialize (IH Hgs).
  destruct g; [congruence|]. cbn [List.length]. lia.
Qed.

(** The groups of a text hold paragraphs, which start and end with a code
    unit that is no white space. *)
Lemma groups_good (text : jsstring) (S : Z) (groups : list (list jsstring)) :
  List.concat groups = paragraphs_of text -> Forall (sized S) groups ->
  Forall (fun g =>
            Forall (fun p => starts_nonspace p = true
                             /\ ends_nonspace p = true) g
            /\ sized S g
            /\ forall p, In p g -> In p (paragraphs_of text)) groups.
Proof.
  intros C B. pose proof (paragraphs_good text) as Hgood.
  rewrite <- C in Hgood. apply Forall_concat_inv in Hgood.
  apply Forall_forall. intros g Hg. rewrite Forall_forall in Hgood, B.
  split; [auto|]. split; [auto|].
  intros p Hp. rewrite <- C. apply in_concat. eauto.
Qed.

(** The chunks are those of the loop over the paragraphs. *)
Lemma semanticChunking_paragraph_loop (text : jsstring) (S : Z) (r : binary64) :
  semanticChunking text S r
  = chunks (paragraph_loop S (overlap_size S r) (mkLoop [] [] [])
                           (paragraphs_of text)).
Proof.
  rewrite semanticChunking_pushes. unfold semantic_pushes.
  change (mkLoop [] [] []) with (erase (mkTraced [] [] [])).
  now rewrite paragraph_loop_erase.
Qed.

Lemma semanticChunking_all_space (text : jsstring) (S : Z) (r : binary64) :
  all_space text = true -> semanticChunking text S r = [].
Proof.
  intros H. rewrite semanticChunking_pushes. unfold semantic_pushes.
  now rewrite (paragraphs_of_all_space text H).
Qed.

(** X1: the chunks of [semanticChunking] are the chunks that the loop over
    the paragraphs pushes, whatever the text: the loop over the sentences,
    when it is entered, adds none. No chunk is returned exactly for the
    texts made of white space only, the empty text among them. *)
Theorem semanticChunking_nil_iff (text : jsstring) (S : Z) (r : binary64) :
  semanticChunking text S r
  = chunks (paragraph_loop S (overlap_size S r) (mkLoop [] [] [])
                           (paragraphs_of text))
  /\ (semanticChunking text S r = [] <-> all_space text = true).
Proof.
  split; [apply semanticChunking_paragraph_loop|].
  split; [|apply semanticChunking_all_space].
  rewrite semanticChunking_pushes. unfold semantic_pushes.
  intros E. apply map_eq_nil in E. apply paragraphs_of_nil.
  destruct (paragraph_loop_traced_chained S (overlap_size S r)
              (paragraphs_of text) (paragraphs_start text) _
              (loop_inv_init (overlap_size S r))) as [_ Hne].
  destruct (paragraphs_of text); [reflexivity|].
  exfalso. apply Hne; [discriminate|exact E].
Qed.

(** X2: every chunk returned by [semanticChunking] is trimmed and not
    empty: it starts and ends with a code unit that is no white space. *)
Theorem chunks_trimmed (text : jsstring) (S : Z) (r : binary64) :
  Forall (fun chunk => starts_nonspace chunk = true
                       /\ ends_nonspace chunk = true
                       /\ trim chunk = chunk)
         (semanticChunking text S r).
Proof.
  rewrite semanticChunking_pushes. apply Forall_map.
  destruct (semantic_pushes_groups text S r) as (groups & C & B & F & _).
  eapply Forall2_Forall_left; [|exact (groups_good text S groups C B)|exact F].
  intros pu g (Hg & [Hne _] & _) [E _]. cbn beta in E.
  destruct (join_good [NL; NL] g Hg Hne) as [J1 J2].
  assert (H1 : ends_nonspace (emitted pu) = true)
    by (rewrite E; now apply ends_nonspace_app).
  assert (H2 : starts_nonspace (emitted pu) = true).
  { destruct (trim_shape (push_context pu ++ push_buffer pu)) as [T|[T _]];
      [|exact T].
    fold (emitted pu) in T. rewrite T in H1. discriminate. }
  split; [exact H2|]. split; [exact H1|]. now apply trim_id.
Qed.

(** X3: the chunks of a text stand for consecutive groups of its paragraphs:
    the groups are not empty and, put one after the other, they are the
    paragraphs of the text in their order; each chunk ends with the
    paragraphs of its group, two line feeds between them, and the first
    chunk is nothing more. So no paragraph is lost, split or moved, and
    there are no more chunks than paragraphs. *)
Theorem chunks_group_paragraphs (text : jsstring) (S : Z) (r : binary64) :
  exists groups,
    List.concat groups = paragraphs_of text
    /\ Forall (fun g => g <> []) groups
    /\ Forall2 (fun chunk g => is_suffix (join [NL; NL] g) chunk)
               (semanticChunking text S r) groups
    /\ (forall chunk g,
          hd_error (semanticChunking text S r) = Some chunk ->
          hd_error groups = Some g -> chunk = join [NL; NL] g)
    /\ List.length (semanticChunking text S r)
       <= List.length (paragraphs_of text).
Proof.
  destruct (semantic_pushes_groups text S r) as (groups & C & B & F & Hhd).
  assert (Hne : Forall (fun g : list jsstring => g <> []) groups).
  { eapply Forall_impl; [|exact B]. now intros g [H _]. }
  exists groups. split; [exact C|]. split; [exact Hne|].
  rewrite semanticChunking_pushes. split; [|split].
  - apply Forall2_map_left. eapply Forall2_impl; [|exact F].
    intros pu g [E _]. cbn beta in E. rewrite E. now eexists.
  - intros chunk g E1 E2.
    destruct (semantic_pushes text S r) as [|pu l]; [discriminate|].
    cbn in E1. injection E1 as <-.
    destruct groups as [|g' groups]; [discriminate|].
    cbn in E2. injection E2 as ->.
    inversion F as [|? ? ? ? [E _]]; subst. cbn beta in E.
    rewrite E, (Hhd pu eq_refl). reflexivity.
  - rewrite length_map, (Forall2_length F), <- C.
    now apply length_concat_nonempty.
Qed.

(** X4: with an overlap size that is not negative, a chunk is longer than
    the target size and the overlap size together only when it is made of
    an overlap and of one paragraph that is itself longer than the target
    size. The overlap size is [Math.floor(chunkSize * overlapRatio)], the
    product being the one of binary64. *)
Theorem chunk_size_bound (text : jsstring) (S : Z) (r : binary64) :
  le_number 0 (overlap_size S r) = true ->
  Forall (fun chunk =>
            le_number (len chunk - S) (overlap_size S r) = true
            \/ exists overlap p,
                 In p (paragraphs_of text) /\ (S < len p)%Z
                 /\ chunk = overlap ++ p
                 /\ le_number (len overlap) (overlap_size S r) = true)
         (semanticChunking text S r).
Proof.
  intros HO. rewrite semanticChunking_pushes. apply Forall_map.
  destruct (semantic_pushes_groups text S r) as (groups & C & B & F & _).
  eapply Forall2_Forall_left; [|exact (groups_good text S groups C B)|exact F].
  intros pu g (Hg & [Hne Hsz] & Hin) [E L]. cbn beta in E. specialize (L HO).
  rewrite E, len_app.
  destruct Hsz as [H1|Hsz].
  - destruct g as [|p [|q g]]; try discriminate. cbn [join] in *.
    destruct (Z.leb_spec (len p) S) as [Hp|Hp].
    + left. destruct (overlap_size S r) as [z| | |]; try discriminate;
        [|reflexivity].
      cbn [le_number] in *. apply Z.leb_le in L. apply Z.leb_le. lia.
    + right. exists (trimStart (push_context pu)), p.
      split; [apply Hin; now left|]. auto.
  - left. rewrite buffer_of_join, len_app in Hsz by exact Hne.
    change (len [NL; NL]) with 2%Z in Hsz.
    destruct (overlap_size S r) as [z| | |]; try discriminate;
      [|reflexivity].
    cbn [le_number] in *. apply Z.leb_le in L. apply Z.leb_le. lia.
Qed.

Lemma chunk_size_bound_witness :
  le_number 0 (overlap_size 10 (fraction 3 10)) = true
  /\ semanticChunking ten_in_the_middle 10 (fraction 3 10)
     = [str "y"; str "y" ++ [NL; NL] ++ str "abcdefghij"; str "z"]
  /\ Forall (fun chunk =>
               le_number (len chunk - 10) (overlap_size 10 (fraction 3 10))
               = true
               \/ exists overlap p,
                    In p (paragraphs_of ten_in_the_middle)
                    /\ (10 < len p)%Z
                    /\ chunk = overlap ++ p
                    /\ le_number (len overlap)
                                 (overlap_size 10 (fraction 3 10)) = true)
            (semanticChunking ten_in_the_middle 10 (fraction 3 10)).
Proof.
  assert (H : le_number 0 (overlap_size 10 (fraction 3 10)) = true)
    by reflexivity.
  split; [exact H|]. split; [reflexivity|].
  apply (chunk_size_bound ten_in_the_middle 10 (fraction 3 10) H).
Defined.

(** X5: a text of one paragraph gives one chunk, the paragraph, whatever the
    target size and the ratio: a paragraph longer than the target size is
    not cut. *)
Theorem single_paragraph_one_chunk (text p : jsstring) (S : Z) (r : binary64) :
  paragraphs_of text = [p] -> semanticChunking text S r = [p].
Proof.
  intros E. pose proof (paragraphs_good text) as Hgood. rewrite E in Hgood.
  inversion Hgood as [|? ? [H1 H2] _]; subst.
  assert (T : trim (p ++ [NL; NL]) = p).
  { unfold trim. rewrite trimEnd_app_space by reflexivity.
    fold (trim p). now apply trim_id. }
  rewrite semanticChunking_pushes. unfold semantic_pushes. rewrite E.
  cbn [paragraph_loop_traced]. unfold paragraph_step_traced.
  cbn [t_currentChunk t_previousContext pushes app].
  change (len [] >? 0)%Z with false. rewrite andb_false_r.
  cbn [t_currentChunk t_previousContext pushes andb]. rewrite T.
  replace (len p >? 0)%Z with true.
  - cbn [pushes List.map app]. unfold emitted.
    cbn [push_context push_buffer app]. now rewrite T.
  - symmetry. rewrite <- truthy_len. now destruct p.
Qed.

Lemma single_paragraph_one_chunk_witness :
  paragraphs_of long_paragraph = [long_paragraph]
  /\ semanticChunking long_paragraph 5 (fraction 1 10) = [long_paragraph].
Proof.
  assert (H : paragraphs_of long_paragraph = [long_paragraph])
    by reflexivity.
  split; [exact H|].
  apply (single_paragraph_one_chunk long_paragraph long_paragraph 5
           (fraction 1 10) H).
Defined.

End ChunkerMore.

(** ** The cleaner: further properties *)

Module CleanerMore.
Import Js JsFacts TextCleaner TextCleanerFacts Chunker ParagraphFacts
  LoopFacts ChunkerMore.

(** What [replace_nl3] writes is what it reads, less some line feeds. *)
Lemma replace_nl3_filter (s : jsstring) :
  forall st,
    filter (fun c => negb (N.eqb c NL)) (replace_nl3 st s)
    = filter (fun c => negb (N.eqb c NL)) s.
Proof.
  induction s as [|c r IH]; intros st; [reflexivity|].
  destruct st.
  - rewrite replace_nl3_true_step. cbn [filter].
    destruct (N.eqb c NL) eqn:E; cbn [negb filter]; rewrite ?E;
      cbn [negb]; now rewrite IH.
  - rewrite replace_nl3_step. cbn [filter].
    destruct (N.eqb c NL) eqn:E; cbn [andb negb].
    + destruct (2 <=? nl_run r); cbn [filter];
        change (N.eqb NL NL) with true; rewrite ?E; cbn [negb]; apply IH.
    + cbn [filter]. rewrite E. cbn [negb]. now rewrite IH.
Qed.

Lemma replace_nl3_length (s : jsstring) :
  List.length (replace_nl3 false s) <= List.length s
  /\ List.length (replace_nl3 true s) + nl_run s <= List.length s.
Proof.
  induction s as [|c r [IH1 IH2]]; [split; apply le_n|].
  rewrite replace_nl3_step, replace_nl3_true_step. cbn [nl_run].
  destruct (N.eqb c NL); cbn [andb List.length].
  - destruct (2 <=? nl_run r) eqn:E; cbn [List.length]; [|lia].
    apply Nat.leb_le in E. lia.
  - lia.
Qed.

(** *** The cleaned text has the paragraphs of the text *)

(** How far the separator that starts before [r] reaches into [r]. *)
Lemma last_nl_cons (c : char) (x : jsstring) :
  N.eqb c NL = true ->
  last_nl (c :: x)
  = Some (Datatypes.S (match last_nl x with Some k => k | None => 0 end)).
Proof.
  intros E. cbn [last_nl]. rewrite (nl_is_space c E), E.
  now destruct (last_nl x).
Qed.

Lemma split_para_go_skip (s : jsstring) :
  forall k cur, split_para_go k cur s = split_para_go 0 cur (skipn k s).
Proof.
  induction s as [|c r IH]; intros k cur.
  - now destruct k.
  - destruct k as [|k]; [reflexivity|]. cbn [split_para_go skipn]. apply IH.
Qed.

Lemma replace_nl3_separator (r : jsstring) :
  forall st,
    skipn (match last_nl (replace_nl3 st r) with Some k => k | None => 0 end)
          (replace_nl3 st r)
    = replace_nl3 false
        (skipn (match last_nl r with Some k => k | None => 0 end) r)
    /\ (st = false ->
        (last_nl (replace_nl3 false r) = None <-> last_nl r = None)).
Proof.
  induction r as [|c r IH]; intros st.
  - destruct st; cbn; split; tauto.
  - destruct (N.eqb c NL) eqn:E.
    + rewrite (last_nl_cons c r E). cbn [skipn].
      destruct st.
      * rewrite replace_nl3_true_step, E.
        split; [apply (IH true)|discriminate].
      * rewrite replace_nl3_step, E. cbn [andb].
        destruct (2 <=? nl_run r).
        -- rewrite (last_nl_cons NL _ eq_refl). cbn [skipn].
           rewrite (last_nl_cons NL _ eq_refl). cbn [skipn].
           split; [apply (IH true)|]. intros _. split; discriminate.
        -- rewrite (last_nl_cons c _ E). cbn [skipn].
           split; [apply (IH false)|]. intros _. split; discriminate.
    + assert (R : forall b, replace_nl3 b (c :: r) = c :: replace_nl3 false r).
      { intros []; [rewrite replace_nl3_true_step|rewrite replace_nl3_step];
          now rewrite E. }
      rewrite !R. cbn [last_nl]. rewrite E.
      destruct (IH false) as [IH1 IH2]. specialize (IH2 eq_refl).
      destruct (isSpace c).
      * destruct (last_nl (replace_nl3 false r)) as [k|] eqn:L1;
          destruct (last_nl r) as [k'|] eqn:L2.
        -- cbn [skipn]. split; [exact IH1|]. intros _. split; discriminate.
        -- exfalso. destruct IH2 as [_ IH2]. now specialize (IH2 eq_refl).
        -- exfalso. destruct IH2 as [IH2 _]. now specialize (IH2 eq_refl).
        -- cbn [skipn]. rewrite replace_nl3_step, E. cbn [andb].
           split; [reflexivity|]. intros _. tauto.
      * cbn [skipn]. rewrite replace_nl3_step, E. cbn [andb].
        split; [reflexivity|]. intros _. tauto.
Qed.

Lemma split_para_go_replace (n : nat) :
  forall s cur, List.length s <= n ->
    split_para_go 0 cur (replace_nl3 false s) = split_para_go 0 cur s.
Proof.
  induction n as [|n IH]; intros s cur Hn.
  - destruct s; [reflexivity|cbn in Hn; lia].
  - destruct s as [|c r]; [reflexivity|]. cbn [List.length] in Hn.
    assert (Hsk : forall k, List.length (skipn k r) <= n)
      by (intros k; rewrite length_skipn; lia).
    rewrite replace_nl3_step.
    destruct (N.eqb c NL) eqn:E; cbn [andb].
    + destruct (2 <=? nl_run r) eqn:N2.
      * cbn [split_para_go]. change (N.eqb NL NL) with true. rewrite E.
        rewrite (last_nl_cons NL _ eq_refl).
        cbn [split_para_go].
        rewrite split_para_go_skip.
        destruct (replace_nl3_separator r true) as [-> _].
        rewrite IH by apply Hsk.
        destruct (last_nl r) as [k'|] eqn:L.
        -- now rewrite (split_para_go_skip r k').
        -- exfalso. destruct r as [|c2 r]; [discriminate|].
           cbn [nl_run] in N2. destruct (N.eqb c2 NL) eqn:E2; [|discriminate].
           rewrite (last_nl_cons c2 r E2) in L. discriminate.
      * cbn [split_para_go]. rewrite E.
        destruct (replace_nl3_separator r false) as [B1 B2].
        specialize (B2 eq_refl).
        destruct (last_nl (replace_nl3 false r)) as [k|] eqn:L1;
          destruct (last_nl r) as [k'|] eqn:L2.
        -- rewrite split_para_go_skip, B1, IH by apply Hsk.
           now rewrite (split_para_go_skip r k').
        -- exfalso. destruct B2 as [_ B2]. now specialize (B2 eq_refl).
        -- exfalso. destruct B2 as [B2 _]. now specialize (B2 eq_refl).
        -- apply IH. lia.
    + cbn [split_para_go]. rewrite E. apply IH. lia.
Qed.

Lemma split_para_clean (t : jsstring) :
  split_para (cleanTextLineBreaks t) = split_para t.
Proof.
  rewrite cleanTextLineBreaks_replace. unfold split_para.
  now apply (split_para_go_replace (List.length t)).
Qed.

Lemma semanticChunking_clean (t : jsstring) (S : Z) (r : binary64) :
  semanticChunking (cleanTextLineBreaks t) S r = semanticChunking t S r.
Proof.
  rewrite !semanticChunking_paragraph_loop. unfold paragraphs_of.
  now rewrite split_para_clean.
Qed.

(** X6: [cleanTextLineBreaks] takes away line feeds and nothing else: the
    other code units of the text are kept, in their order; the result is no
    longer than the text, and it is empty only for the empty text. *)
Theorem clean_drops_only_line_feeds (t : jsstring) :
  filter (fun c => negb (N.eqb c NL)) (cleanTextLineBreaks t)
  = filter (fun c => negb (N.eqb c NL)) t
  /\ (len (cleanTextLineBreaks t) <= len t)%Z
  /\ (cleanTextLineBreaks t = [] <-> t = []).
Proof.
  rewrite cleanTextLineBreaks_replace.
  split; [apply replace_nl3_filter|]. split.
  - destruct (replace_nl3_length t) as [L _]. unfold len. lia.
  - split; [|now intros ->].
    destruct t as [|c r]; [reflexivity|]. rewrite replace_nl3_step.
    destruct (N.eqb c NL && (2 <=? nl_run r)); discriminate.
Qed.

(** X7: the cleaning does not change what the fallback chunker makes of a
    text: the cleaned text is split at the same blank lines into the same
    pieces, it has the same paragraphs, and [semanticChunking] returns the
    same chunks for it. *)
Theorem clean_keeps_paragraphs (t : jsstring) (S : Z) (r : binary64) :
  split_para (cleanTextLineBreaks t) = split_para t
  /\ paragraphs_of (cleanTextLineBreaks t) = paragraphs_of t
  /\ semanticChunking (cleanTextLineBreaks t) S r = semanticChunking t S r.
Proof.
  split; [apply split_para_clean|]. split; [|apply semanticChunking_clean].
  unfold paragraphs_of. now rewrite split_para_clean.
Qed.

End CleanerMore.

(** ** The services: further facts *)

Module ServiceMoreFacts.
Import Js JsFacts Json JsonFacts Model PineconeService DocumentsService
  DocumentsServiceMore Frames MoreFrames Examples MoreExamples FrameFacts
  PipelineFacts ServiceFacts TextCleaner TextCleanerFacts ServiceClaims.
Local Open Scope world_scope.

Lemma set_documents_same (w : World) : set_documents (documents w) w = w.
Proof. now destruct w. Qed.

(** An update of no row changes nothing. *)
Lemma map_update_none (i : jsstring) (f : Document -> Document)
  (ds : list Document) :
  find (fun d => eqb (id d) i) ds = None ->
  List.map (fun d => if eqb (id d) i then f d else d) ds = ds.
Proof.
  induction ds as [|d ds IH]; [reflexivity|]. cbn [find List.map].
  destruct (eqb (id d) i); [discriminate|]. intros H. now rewrite IH.
Qed.

Lemma update_document_none (i : jsstring) (f : Document -> Document)
  (w : World) :
  findOne_by_id i w = None -> update_document i f w = (w, Ok tt).
Proof.
  intros H. unfold update_document, modify.
  rewrite (map_update_none i f _ H). now rewrite set_documents_same.
Qed.

Lemma processDocument_missing (env : Env) (i : jsstring) (w : World) :
  findOne_by_id i w = None ->
  processDocument env i w
  = (w, Throw (NotFoundException (str "Document not found"))).
Proof.
  intros H. unfold processDocument, bind, get_world. now rewrite H.
Qed.

Lemma run_task_missing (env : Env) (i : jsstring) (w : World) :
  findOne_by_id i w = None -> run_task env (ProcessTask i) w = (w, Ok tt).
Proof.
  intros H. unfold run_task, try_catch.
  rewrite (processDocument_missing env i w H).
  unfold updateDocumentStatus. now apply update_document_none.
Qed.

Lemma deleteDocument_no_row (env : Env) (i u : jsstring) (w w' : World) :
  deleteDocument env i u w = (w', Ok tt) -> findOne_by_id i w' = None.
Proof.
  intros H. unfold deleteDocument in H. repeat bind_inv H.
  unfold delete_document, modify in H. injection H as <-.
  unfold findOne_by_id. cbn [documents set_chunks set_documents].
  apply find_filter_none. auto.
Qed.

(** A document that is another user's is not found. *)
Lemma find_other_owner (i u : jsstring) (ds : list Document) :
  (forall d, In d ds -> id d = i -> doc_userId d <> u) ->
  find (fun d => eqb (id d) i && eqb (doc_userId d) u) ds = None.
Proof.
  induction ds as [|d ds IH]; intros H; [reflexivity|]. cbn [find].
  destruct (eqb (id d) i && eqb (doc_userId d) u) eqn:E.
  - apply andb_prop in E as [E1 E2]. apply eqb_eq in E1, E2.
    exfalso. apply (H d (or_introl eq_refl) E1 E2).
  - apply IH. intros x Hx. apply H. now right.
Qed.

Lemma getDocument_not_found (i u : jsstring) (w : World) :
  findOne_by_id_user i u w = None ->
  getDocument i u w
  = (w, Throw (NotFoundException (str "Document not found"))).
Proof. intros H. unfold getDocument, bind, get_world. now rewrite H. Qed.

Lemma getDocument_found (i u : jsstring) (w : World) (d : Document) :
  findOne_by_id_user i u w = Some d -> getDocument i u w = (w, Ok d).
Proof. intros H. unfold getDocument, bind, get_world. now rewrite H. Qed.

(** *** The loops over the indexes *)

Lemma upsert_all_first_failure (env : Env) (v : list VectorRecord)
  (pre : list (jsstring * Index)) (x : jsstring * Index)
  (post : list (jsstring * Index)) (err : exn) :
  Forall (fun e => upsertRecords env (snd e) v = Ok tt) pre ->
  upsertRecords env (snd x) v = Throw err ->
  forall w,
    upsert_all env (pre ++ x :: post) v w
    = (add_calls (List.map (fun e => UpsertRecords (snd e) v) (pre ++ [x])) w,
       Throw err).
Proof.
  intros Hpre Hx. induction pre as [|[k i] pre IH]; intros w.
  - destruct x as [k i]. cbn [snd] in Hx. cbn [app upsert_all List.map snd].
    unfold bind, log_call, modify, lift. now rewrite Hx.
  - inversion Hpre as [|? ? H1 H2]; subst. cbn [snd] in H1.
    cbn [app upsert_all List.map snd].
    unfold bind, log_call, modify, lift. rewrite H1.
    change (mkWorld (documents w) (chunks w) (users w) (dirs w) (files w)
              (calls w ++ [UpsertRecords i v]) (tasks w) (fresh w))
      with (add_calls [UpsertRecords i v] w).
    rewrite (IH H2). now rewrite add_calls_add.
Qed.

Lemma delete_all_done (env : Env) (ids : list jsstring)
  (idxs : list (jsstring * Index)) :
  Forall (fun e => deleteMany env (snd e) ids = Ok tt) idxs ->
  forall w, delete_all env idxs ids w
            = (add_calls (List.map (fun e => DeleteMany (snd e) ids) idxs) w,
               Ok tt).
Proof.
  induction idxs as [|[k i] rest IH]; intros H w.
  - cbn. now rewrite add_calls_nil.
  - inversion H as [|? ? H1 H2]; subst. cbn [snd] in H1.
    cbn [delete_all List.map snd].
    unfold bind, log_call, modify, lift. rewrite H1.
    change (mkWorld (documents w) (chunks w) (users w) (dirs w) (files w)
              (calls w ++ [DeleteMany i ids]) (tasks w) (fresh w))
      with (add_calls [DeleteMany i ids] w).
    rewrite (IH H2). now rewrite add_calls_add.
Qed.

Lemma delete_all_first_failure (env : Env) (ids : list jsstring)
  (pre : list (jsstring * Index)) (x : jsstring * Index)
  (post : list (jsstring * Index)) (err : exn) :
  Forall (fun e => deleteMany env (snd e) ids = Ok tt) pre ->
  deleteMany env (snd x) ids = Throw err ->
  forall w,
    delete_all env (pre ++ x :: post) ids w
    = (add_calls (List.map (fun e => DeleteMany (snd e) ids) (pre ++ [x])) w,
       Throw err).
Proof.
  intros Hpre Hx. induction pre as [|[k i] pre IH]; intros w.
  - destruct x as [k i]. cbn [snd] in Hx. cbn [app delete_all List.map snd].
    unfold bind, log_call, modify, lift. now rewrite Hx.
  - inversion Hpre as [|? ? H1 H2]; subst. cbn [snd] in H1.
    cbn [app delete_all List.map snd].
    unfold bind, log_call, modify, lift. rewrite H1.
    change (mkWorld (documents w) (chunks w) (users w) (dirs w) (files w)
              (calls w ++ [DeleteMany i ids]) (tasks w) (fresh w))
      with (add_calls [DeleteMany i ids] w).
    rewrite (IH H2). now rewrite add_calls_add.
Qed.

Lemma length_zero_nil {A : Type} (l : list A) :
  (Z.of_nat (List.length l) =? 0)%Z = match l with [] => true | _ => false end.
Proof. now destruct l. Qed.

(** *** The table of indexes and the configuration *)

Lemma indexes_nil (env : Env) :
  configured (PINECONE_INDEX_URL env) = None ->
  configured (PINECONE_INDEX_URL_AIR env) = None ->
  indexes env = [].
Proof. intros H1 H2. unfold indexes. now rewrite H1, H2. Qed.

Lemma record_get_in (r : list (jsstring * Index)) (k : jsstring)
  (x : Index) :
  NoDup (List.map fst r) -> In (k, x) r -> record_get r k = Some (Own x).
Proof.
  unfold record_get. induction r as [|[k' x'] r IH]; intros N H; [easy|].
  cbn [List.map fst] in N. inversion N as [|? ? N1 N2]; subst.
  cbn [find fst]. destruct H as [H|H].
  - injection H as -> ->. now rewrite eqb_refl.
  - destruct (eqb k' k) eqn:E; [|now apply IH].
    apply eqb_eq in E. subst k'. exfalso. apply N1.
    change k with (fst (k, x)). now apply in_map.
Qed.

Lemma find_key_none (r : list (jsstring * Index)) (k : jsstring) :
  ~ In k (List.map fst r) -> find (fun e => eqb (fst e) k) r = None.
Proof.
  intros H. destruct (find (fun e => eqb (fst e) k) r) as [[k' x]|] eqn:F;
    [|reflexivity].
  apply find_some in F as [F1 F2]. cbn [fst] in F2. apply eqb_eq in F2.
  subst k'. exfalso. apply H. change k with (fst (k, x)). now apply in_map.
Qed.

Lemma existsb_eqb_In (k : jsstring) (l : list jsstring) :
  existsb (eqb k) l = true <-> In k l.
Proof.
  rewrite existsb_exists. split.
  - intros [x [H E]]. apply eqb_eq in E. now subst x.
  - intros H. exists k. split; [exact H|apply eqb_refl].
Qed.

(** Reading a key that the table has not: a member of [Object.prototype]
    when the key names one, and [undefined] otherwise. *)
Lemma record_get_inherited (r : list (jsstring * Index)) (k : jsstring) :
  ~ In k (List.map fst r) -> In k prototype_members ->
  record_get r k = Some (Inherited k).
Proof.
  intros H M. unfold record_get. rewrite (find_key_none r k H).
  now rewrite (proj2 (existsb_eqb_In k prototype_members) M).
Qed.

Lemma record_get_undefined (r : list (jsstring * Index)) (k : jsstring) :
  ~ In k (List.map fst r) -> ~ In k prototype_members ->
  record_get r k = None.
Proof.
  intros H M. unfold record_get. rewrite (find_key_none r k H).
  destruct (existsb (eqb k) prototype_members) eqn:E; [|reflexivity].
  now apply existsb_eqb_In in E.
Qed.

(** With the address of the default index configured, the table has an
    entry under the default name. *)
Lemma record_get_default (env : Env) (u : jsstring) :
  configured (PINECONE_INDEX_URL env) = Some u ->
  exists x, In (defaultIndexName env, x) (indexes env)
            /\ record_get (indexes env) (defaultIndexName env)
               = Some (Own x).
Proof.
  intros H.
  assert (I : exists x, In (defaultIndexName env, x) (indexes env)).
  { destruct (configured (PINECONE_INDEX_URL_AIR env)) as [ua|] eqn:A.
    - destruct (eqb (airIndexName env) (defaultIndexName env)) eqn:E.
      + apply eqb_eq in E. eexists. rewrite <- E. apply indexes_air.
        exact A.
      + apply eqb_neq in E. eexists.
        apply (indexes_default env u H). now right.
    - eexists. apply (indexes_default env u H). now left. }
  destruct I as [x I]. exists x. split; [exact I|].
  apply record_get_in; [apply indexes_names|exact I].
Qed.

(** What [queryVectors] does, by the index it selects. *)
Lemma queryVectors_run (env : Env) (q : jsstring) (name : option jsstring)
  (w : World) :
  queryVectors env q name w
  = match selectedIndex env name with
    | Some (Own x) =>
        (add_calls [SearchRecords x q] w,
         match searchRecords env x q with
         | Ok hits => Ok (List.map parse_hit hits)
         | Throw e => Throw e
         end)
    | Some (Inherited key) =>
        (add_calls [SearchRecordsByName (member_name key) q] w,
         match searchRecords_by_name env (member_name key) q with
         | Ok hits => Ok (List.map parse_hit hits)
         | Throw e => Throw e
         end)
    | None =>
        (w, Throw (Error (str "Index configuration not found for: "
                          ++ validIndexName env name)))
    end.
Proof.
  unfold queryVectors.
  destruct (selectedIndex env name) as [[x|key]|]; [| |reflexivity];
    unfold bind, log_call, modify, lift, ret.
  - now destruct (searchRecords env x q).
  - now destruct (searchRecords_by_name env (member_name key) q).
Qed.

(** *** The identifiers of the records *)

Lemma decimal_inj (a b : N) : decimal a = decimal b -> a = b.
Proof.
  intros E. destruct (decimal_spec a) as [<- _].
  destruct (decimal_spec b) as [<- _]. now rewrite E.
Qed.

Lemma pinecone_id_inj (i : jsstring) (a b : N) :
  pinecone_id i a = pinecone_id i b -> a = b.
Proof.
  unfold pinecone_id. intros E. apply app_inv_head in E.
  apply app_inv_head in E. now apply decimal_inj.
Qed.

Lemma pinecone_id_truthy (i : jsstring) (k : N) :
  truthy (pinecone_id i k) = true.
Proof. unfold pinecone_id. now destruct i. Qed.

Lemma build_data_ids (env : Env) (d : Document) (i : jsstring) (n : N)
  (cs : list jsstring) :
  forall j, List.map record_id (build_data env d i n j cs)
            = List.map (pinecone_id i) (indices j (List.length cs)).
Proof.
  unfold indices. induction cs as [|c cs IH]; intros j; [reflexivity|].
  cbn [build_data List.map record_id List.length seq]. f_equal.
  - f_equal. lia.
  - rewrite IH, <- seq_shift, !List.map_map.
    apply map_ext. intros a. f_equal. lia.
Qed.

Lemma NoDup_map_inj {A B : Type} (f : A -> B) (l : list A) :
  (forall a b, f a = f b -> a = b) -> NoDup l -> NoDup (List.map f l).
Proof.
  intros Hf. induction 1 as [|a l Ha Hl IH]; cbn [List.map]; constructor;
    [|exact IH].
  intros H. apply in_map_iff in H as [b [E Hb]]. apply Hf in E. now subst b.
Qed.

Lemma indices_NoDup (n : N) (k : nat) : NoDup (indices n k).
Proof.
  unfold indices. apply NoDup_map_inj; [|apply seq_NoDup].
  intros a b E. lia.
Qed.

(** *** A run of the pipeline that succeeds *)

Lemma extract_and_upsert_ok (env : Env) (i : jsstring) (d : Document)
  (w : World) (text : jsstring) :
  parseFile env (path d) (type d) = Ok text ->
  indexes env <> [] ->
  (forall x data, In x (indexes env) ->
     upsertRecords env (snd x) data = Ok tt) ->
  let cleaned := cleanTextLineBreaks text in
  let tfp := path_join env (uploadPath env) (i ++ str "-text.txt") in
  let a := match assistant_uploadFile env tfp with
           | Ok f => Some f
           | Throw _ => None
           end in
  let cs := pipeline_chunks env cleaned in
  extract_and_upsert env i d w
  = (mkWorld
       (List.map (fun x => if eqb (id x) i then set_text_file tfp a x else x)
                 (documents w))
       (chunks w) (users w) (dirs w)
       (filter (fun f => negb (eqb (fst f) tfp)) (files w) ++ [(tfp, cleaned)])
       (calls w ++ pipeline_calls env d i cleaned) (tasks w) (fresh w),
     Ok (cs, List.map record_id (records_of env d i cs))).
Proof.
  intros P Hne Hok cleaned tfp a cs.
  unfold extract_and_upsert.
  unfold bind at 1, log_call at 1, modify at 1.
  unfold bind at 1, lift at 1. rewrite P.
  fold cleaned. fold tfp.
  unfold bind at 1, writeFileSync at 1, modify at 1.
  unfold try_catch, bind, log_call, modify, lift, ret, update_document,
    set_files, set_documents.
  cbn [documents chunks users dirs files calls tasks fresh].
  assert (U : forall w0, upsertVector env (records_of env d i cs) w0
          = (add_calls (List.map (fun e => UpsertRecords (snd e) (records_of env d i cs)) (indexes env)) w0,
             Ok (filter truthy (List.map record_id (records_of env d i cs))))).
  { intros w0. apply upsertVector_ok; [exact Hne|].
    apply Forall_forall. intros x Hx. now apply Hok. }
  assert (F : filter truthy (List.map record_id (records_of env d i cs))
              = List.map record_id (records_of env d i cs)).
  { unfold records_of. rewrite build_data_ids.
    apply forallb_filter_id. apply forallb_forall. intros x Hx.
    apply in_map_iff in Hx as [k [<- _]]. apply pinecone_id_truthy. }
  subst a.
  destruct (assistant_uploadFile env tfp) as [f|e]; cbv beta iota zeta;
    unfold modify; cbv beta iota zeta;
    cbn [documents chunks users dirs files calls tasks fresh];
    rewrite splitIntoChunks_text; cbv beta iota zeta;
    fold (pipeline_chunks env cleaned); fold cs;
    fold (records_of env d i cs); rewrite U, F;
    unfold add_calls, pipeline_calls;
    cbn [documents chunks users dirs files calls tasks fresh];
    fold cs; rewrite <- !app_assoc; reflexivity.
Qed.


Lemma nth_indices (f : N -> jsstring) (n : N) (len k : nat) :
  nth k (List.map f (indices n len)) []
  = if (k <? len)%nat then f (n + N.of_nat k)%N else [].
Proof.
  destruct (Nat.ltb_spec k len) as [H|H].
  - unfold indices. rewrite List.map_map.
    rewrite (nth_indep _ [] (f (n + N.of_nat 0)%N))
      by now rewrite length_map, length_seq.
    rewrite (map_nth (fun j => f (n + N.of_nat j)%N)).
    now rewrite seq_nth.
  - apply nth_overflow. unfold indices.
    now rewrite !length_map, length_seq.
Qed.

Lemma indices_cons (n : N) (k : nat) :
  indices n (S k) = n :: indices (n + 1) k.
Proof.
  unfold indices. cbn [seq List.map]. f_equal; [f_equal; lia|].
  rewrite <- seq_shift, List.map_map. apply map_ext. intros a. lia.
Qed.

Lemma save_chunks_rows (env : Env) (d : Document) (i : jsstring)
  (ids : list jsstring) (cs : list jsstring) :
  (forall k, nth k ids [] = []
             \/ nth k ids [] = pinecone_id i (N.of_nat k)) ->
  forall n w, exists new,
    save_chunks env d i ids n cs w
    = (mkWorld (documents w) (chunks w ++ new) (users w) (dirs w) (files w)
               (calls w) (tasks w) (fresh w + List.length cs),
       Ok tt)
    /\ List.map content new = cs
    /\ List.map chunk_chunkIndex new = indices n (List.length cs)
    /\ Forall (fun c => chunk_documentId c = id d
                        /\ pineconeId c = pinecone_id i (chunk_chunkIndex c))
              new.
Proof.
  intros Hids. induction cs as [|c cs IH]; intros n w.
  - exists []. cbn [save_chunks List.length]. unfold ret.
    rewrite app_nil_r, Nat.add_0_r. destruct w. repeat split; constructor.
  - cbn [save_chunks]. unfold bind at 1, fresh_id.
    unfold bind at 1, modify, set_chunks.
    cbn [documents chunks users dirs files calls tasks fresh].
    match goal with
    | |- context [save_chunks env d i ids (n + 1) cs ?w1] =>
        destruct (IH (n + 1)%N w1) as (new & E & A & B & C); rewrite E
    end.
    cbn [documents chunks users dirs files calls tasks fresh].
    eexists (_ :: new). split; [|split; [|split]].
    + rewrite <- app_assoc. cbn [app List.length].
      now rewrite Nat.add_succ_r.
    + cbn [List.map content]. now rewrite A.
    + cbn [List.map chunk_chunkIndex List.length].
      now rewrite indices_cons, B.
    + constructor; [|exact C]. cbn [chunk_documentId pineconeId
                                     chunk_chunkIndex].
      split; [reflexivity|].
      destruct (Hids (N.to_nat n)) as [-> | ->]; [reflexivity|].
      rewrite N2Nat.id. unfold or_else. now rewrite pinecone_id_truthy.
Qed.

Lemma find_map_update (i : jsstring) (f : Document -> Document)
  (w : World) (d : Document) :
  (forall x, id (f x) = id x) ->
  findOne_by_id i w = Some d ->
  find (fun x => eqb (id x) i)
       (List.map (fun x => if eqb (id x) i then f x else x) (documents w))
  = Some (f d).
Proof. intros Hf H. now apply find_update. Qed.

Lemma processDocument_ok (env : Env) (i : jsstring) (w : World)
  (d : Document) (text : jsstring) :
  findOne_by_id i w = Some d ->
  parseFile env (path d) (type d) = Ok text ->
  indexes env <> [] ->
  (forall x data, In x (indexes env) ->
     upsertRecords env (snd x) data = Ok tt) ->
  let cleaned := cleanTextLineBreaks text in
  let tfp := path_join env (uploadPath env) (i ++ str "-text.txt") in
  let a := match assistant_uploadFile env tfp with
           | Ok f => Some f
           | Throw _ => None
           end in
  let cs := pipeline_chunks env cleaned in
  exists w' new,
    processDocument env i w = (w', Ok tt)
    /\ chunks w' = chunks w ++ new
    /\ List.map content new = cs
    /\ List.map chunk_chunkIndex new = indices 0 (List.length cs)
    /\ Forall (fun c => chunk_documentId c = id d
                        /\ pineconeId c = pinecone_id i (chunk_chunkIndex c))
              new
    /\ findOne_by_id i w'
       = Some (set_status ready None (set_text_file tfp a d))
    /\ calls w' = calls w ++ pipeline_calls env d i cleaned
    /\ files w'
       = filter (fun f => negb (eqb (fst f) tfp)) (files w) ++ [(tfp, cleaned)]
    /\ tasks w' = tasks w /\ users w' = users w /\ dirs w' = dirs w.
Proof.
  intros F P Hne Hok cleaned tfp a cs.
  rewrite (processDocument_unfold env i w d F).
  rewrite (extract_and_upsert_ok env i d w text P Hne Hok).
  fold cleaned tfp a cs. cbn [fst snd].
  match goal with
  | |- context [save_chunks env d i ?ids 0%N cs ?w1] =>
      destruct (save_chunks_rows env d i ids cs) with (n := 0%N) (w := w1)
        as (new & E & A & B & C)
  end.
  { intros k. unfold records_of. rewrite build_data_ids.
    rewrite nth_indices. destruct (k <? List.length cs)%nat; auto. }
  rewrite E. cbn [documents chunks users dirs files calls tasks fresh].
  unfold updateDocumentStatus, update_document, modify, set_documents.
  cbn [documents chunks users dirs files calls tasks fresh].
  eexists _, new. split; [reflexivity|].
  cbn [documents chunks users dirs files calls tasks fresh].
  repeat (split; [first [reflexivity|assumption]|]).
  split; [|repeat split].
  unfold findOne_by_id. cbn [documents].
  apply find_update; [reflexivity|]. apply find_update; [reflexivity|].
  exact F.
Qed.

Lemma run_task_ok (env : Env) (i : jsstring) (w w' : World) :
  processDocument env i w = (w', Ok tt) ->
  run_task env (ProcessTask i) w = (w', Ok tt).
Proof. intros H. unfold run_task, try_catch. now rewrite H. Qed.

(** *** The documents of other identifiers *)

Lemma others_same_refl (i : jsstring) (w : World) : others_same i w w.
Proof. reflexivity. Qed.

Lemma others_same_trans (i : jsstring) (a b c : World) :
  others_same i a b -> others_same i b c -> others_same i a c.
Proof. unfold others_same. congruence. Qed.

Lemma filter_update (i : jsstring) (f : Document -> Document)
  (ds : list Document) :
  (forall x, id (f x) = id x) ->
  filter (fun d => negb (eqb (id d) i))
         (List.map (fun d => if eqb (id d) i then f d else d) ds)
  = filter (fun d => negb (eqb (id d) i)) ds.
Proof.
  intros Hf. induction ds as [|d ds IH]; [reflexivity|].
  cbn [List.map filter]. destruct (eqb (id d) i) eqn:E.
  - rewrite Hf, E. exact IH.
  - rewrite E. cbn [negb]. now rewrite IH.
Qed.

Ltac others_leaf :=
  first [ apply preserves_modify; intros ?; reflexivity
        | apply preserves_fresh_id; intros ?; reflexivity
        | apply preserves_modify; intros ?; apply filter_update;
          intros []; reflexivity ].

Lemma upsertVector_others (i : jsstring) (env : Env)
  (v : list VectorRecord) : preserves (others_same i) (upsertVector env v).
Proof.
  apply (upsertVector_preserves (others_same_refl i) (others_same_trans i)).
  reflexivity.
Qed.

Lemma save_chunks_others (j : jsstring) (env : Env) (d : Document)
  (i : jsstring) (ids : list jsstring) (cs : list jsstring) :
  forall n, preserves (others_same j) (save_chunks env d i ids n cs).
Proof.
  induction cs as [|c cs IH]; intros n; cbn [save_chunks].
  - apply (preserves_ret (others_same_refl j)).
  - frame (others_same_refl j) (others_same_trans j)
      ltac:(first [others_leaf | apply IH]).
Qed.

Lemma run_task_others (env : Env) (i : jsstring) :
  preserves (others_same i) (run_task env (ProcessTask i)).
Proof.
  unfold run_task, processDocument, extract_and_upsert, splitIntoChunks.
  frame (others_same_refl i) (others_same_trans i)
    ltac:(first [ others_leaf | apply upsertVector_others
                | apply save_chunks_others ]).
Qed.

Lemma find_update_inv (i : jsstring) (f : Document -> Document)
  (ds : list Document) (d' : Document) :
  (forall x, id (f x) = id x) ->
  find (fun x => eqb (id x) i)
       (List.map (fun x => if eqb (id x) i then f x else x) ds) = Some d' ->
  exists x, d' = f x.
Proof.
  intros Hf. induction ds as [|d ds IH]; [discriminate|].
  cbn [List.map find]. destruct (eqb (id d) i) eqn:E.
  - rewrite Hf, E. intros H. injection H as <-. now exists d.
  - rewrite E. exact IH.
Qed.

Lemma processDocument_ready (env : Env) (i : jsstring) (w w' : World)
  (d' : Document) :
  processDocument env i w = (w', Ok tt) ->
  findOne_by_id i w' = Some d' -> status d' = ready.
Proof.
  intros H F. unfold processDocument in H.
  apply bind_ok_inv in H as (w0 & wa & H0 & H).
  unfold get_world in H0. injection H0 as E1 E2. subst w0 wa.
  destruct (findOne_by_id i w); [|discriminate].
  repeat bind_inv H.
  unfold updateDocumentStatus, update_document, modify in H.
  injection H as <-. unfold findOne_by_id in F. cbn [documents set_documents] in F.
  apply find_update_inv in F as [x ->]; reflexivity.
Qed.


(** *** The remote part of a deletion *)

Lemma same_local_refl (w : World) : same_local w w.
Proof. repeat split. Qed.

Lemma same_local_trans (a b c : World) :
  same_local a b -> same_local b c -> same_local a c.
Proof.
  unfold same_local. intros (A1 & A2 & A3 & A4 & A5 & A6 & A7)
    (B1 & B2 & B3 & B4 & B5 & B6 & B7).
  repeat split; congruence.
Qed.

Ltac local_leaf :=
  first [ apply preserves_modify; intros ?; solve [repeat split] ].

Lemma delete_all_local (env : Env) (ids : list jsstring)
  (idxs : list (jsstring * Index)) :
  preserves same_local (delete_all env idxs ids).
Proof.
  induction idxs as [|[k x] rest IH]; cbn [delete_all].
  - apply (preserves_ret same_local_refl).
  - frame same_local_refl same_local_trans
      ltac:(first [local_leaf | apply IH]).
Qed.

Lemma deleteVectors_local (env : Env) (ids : list jsstring) :
  preserves same_local (deleteVectors env ids).
Proof.
  unfold deleteVectors.
  destruct (Z.of_nat (List.length ids) =? 0)%Z;
    [apply (preserves_ret same_local_refl)|apply delete_all_local].
Qed.

Lemma delete_all_calls (P : Call -> Prop) (env : Env) (ids : list jsstring)
  (idxs : list (jsstring * Index)) :
  (forall x, P (DeleteMany x ids)) ->
  preserves (calls_grow P) (delete_all env idxs ids).
Proof.
  intros HP. induction idxs as [|[k x] rest IH]; cbn [delete_all].
  - apply (preserves_ret (calls_grow_refl P)).
  - frame (calls_grow_refl P) (calls_grow_trans P)
      ltac:(first [calls_leaf ltac:(apply HP) | apply IH]).
Qed.

Lemma deleteVectors_calls_grow (P : Call -> Prop) (env : Env)
  (ids : list jsstring) :
  (forall x, P (DeleteMany x ids)) ->
  preserves (calls_grow P) (deleteVectors env ids).
Proof.
  intros HP. unfold deleteVectors.
  destruct (Z.of_nat (List.length ids) =? 0)%Z;
    [apply (preserves_ret (calls_grow_refl P))|now apply delete_all_calls].
Qed.

Lemma bind_assoc {A B C : Type} (m : M A) (k : A -> M B) (h : B -> M C)
  (w : World) :
  bind (bind m k) h w = bind m (fun a => bind (k a) h) w.
Proof. unfold bind. destruct (m w) as [w1 [a|e]]; reflexivity. Qed.

Lemma bind_congr {A B : Type} (m : M A) (k k' : A -> M B) (w : World) :
  (forall a w0, k a w0 = k' a w0) -> bind m k w = bind m k' w.
Proof.
  intros H. unfold bind. destruct (m w) as [w1 [a|e]]; [apply H|reflexivity].
Qed.

Lemma deleteDocument_split (env : Env) (i u : jsstring) (w : World) :
  deleteDocument env i u w
  = bind (getDocument i u)
         (fun d => bind (delete_remote env i d) (fun _ => delete_local i d))
         w.
Proof.
  unfold deleteDocument, delete_remote, delete_assistant_file,
    delete_vectors_of, delete_local.
  apply bind_congr. intros d w0. rewrite bind_assoc.
  apply bind_congr. intros _ w1. rewrite bind_assoc.
  apply bind_congr. intros w2 w3. reflexivity.
Qed.

Lemma delete_assistant_local (env : Env) (d : Document) :
  preserves same_local (delete_assistant_file env d).
Proof.
  unfold delete_assistant_file.
  frame same_local_refl same_local_trans ltac:(local_leaf).
Qed.

Lemma delete_assistant_calls (P : Call -> Prop) (env : Env) (d : Document) :
  (forall f, or_null (assistantFileId d) = Some f ->
     P (AssistantDelete f)) ->
  preserves (calls_grow P) (delete_assistant_file env d).
Proof.
  intros HP. unfold delete_assistant_file.
  destruct (or_null (assistantFileId d)) as [f|] eqn:E.
  - frame (calls_grow_refl P) (calls_grow_trans P)
      ltac:(calls_leaf ltac:(now apply HP)).
  - apply (preserves_ret (calls_grow_refl P)).
Qed.

Lemma delete_assistant_returns (env : Env) (d : Document) (w : World) :
  exists w', delete_assistant_file env d w = (w', Ok tt).
Proof.
  unfold delete_assistant_file.
  destruct (or_null (assistantFileId d)) as [f|]; [|now exists w].
  unfold try_catch, bind, log_call, modify, lift, ret.
  destruct (assistant_deleteFile env f) as [[]|e]; eexists; reflexivity.
Qed.

Lemma delete_vectors_local (env : Env) (i : jsstring) :
  preserves same_local (delete_vectors_of env i).
Proof.
  unfold delete_vectors_of.
  frame same_local_refl same_local_trans
    ltac:(first [local_leaf | apply deleteVectors_local]).
Qed.

Lemma delete_remote_local (env : Env) (i : jsstring) (d : Document) :
  preserves same_local (delete_remote env i d).
Proof.
  unfold delete_remote.
  apply (preserves_bind same_local_trans);
    [apply delete_assistant_local|intros _; apply delete_vectors_local].
Qed.

Lemma getDocument_inv (i u : jsstring) (w w' : World) (d : Document) :
  getDocument i u w = (w', Ok d) ->
  w' = w /\ findOne_by_id_user i u w = Some d.
Proof.
  unfold getDocument, bind, get_world.
  destruct (findOne_by_id_user i u w); [|discriminate].
  unfold ret. intros H. injection H as <- <-. auto.
Qed.

Lemma getDocument_throw_inv (i u : jsstring) (w w' : World) (e : exn) :
  getDocument i u w = (w', Throw e) -> w' = w.
Proof.
  unfold getDocument, bind, get_world.
  destruct (findOne_by_id_user i u w); [discriminate|].
  unfold throw. intros H. now injection H as <- _.
Qed.

Lemma bind_throw_inv {A B : Type} (m : M A) (k : A -> M B) (w w' : World)
  (e : exn) :
  bind m k w = (w', Throw e) ->
  m w = (w', Throw e)
  \/ exists a w0, m w = (w0, Ok a) /\ k a w0 = (w', Throw e).
Proof.
  unfold bind. destruct (m w) as [w0 [a|e0]]; intros H.
  - right. now exists a, w0.
  - left. injection H as -> ->. reflexivity.
Qed.

Lemma filter_absent (p : jsstring) (fs : list (jsstring * list N)) :
  existsb (fun f => eqb (fst f) p) fs = false ->
  filter (fun f => negb (eqb (fst f) p)) fs = fs.
Proof.
  induction fs as [|f fs IH]; [reflexivity|]. cbn [existsb filter].
  intros H. apply orb_false_elim in H as [H1 H2]. rewrite H1. cbn [negb].
  now rewrite IH.
Qed.

Lemma set_files_same (w : World) : set_files (files w) w = w.
Proof. now destruct w. Qed.

(** [if (fs.existsSync(p)) fs.unlinkSync(p)]: there is no file [p]
    afterwards. *)
Lemma unlink_if_exists (p : jsstring) (w : World) :
  (if existsSync p w then unlinkSync p else ret tt) w
  = (set_files (filter (fun f => negb (eqb (fst f) p)) (files w)) w, Ok tt).
Proof.
  destruct (existsSync p w) eqn:E; [reflexivity|].
  unfold existsSync in E. rewrite (filter_absent p _ E).
  now rewrite set_files_same.
Qed.

Lemma filter_true {A : Type} (l : list A) : filter (fun _ => true) l = l.
Proof. induction l as [|a l IH]; [reflexivity|]. cbn. now rewrite IH. Qed.

Lemma delete_local_run (i : jsstring) (d : Document) (w : World) :
  delete_local i d w
  = (mkWorld (filter (fun x => negb (eqb (id x) i)) (documents w))
             (filter (fun c => negb (eqb (chunk_documentId c) i)) (chunks w))
             (users w) (dirs w) (files_left d (files w)) (calls w) (tasks w)
             (fresh w),
     Ok tt).
Proof.
  unfold delete_local, files_left. unfold bind at 1, get_world at 1.
  unfold bind at 1. rewrite unlink_if_exists.
  unfold bind at 1, get_world at 1. unfold bind at 1.
  destruct (or_null (textFilePath d)) as [p|].
  - rewrite unlink_if_exists. reflexivity.
  - unfold ret. rewrite filter_true. reflexivity.
Qed.

Lemma deleteDocument_ok_inv (env : Env) (i u : jsstring) (w w' : World) :
  deleteDocument env i u w = (w', Ok tt) ->
  exists d w1,
    findOne_by_id_user i u w = Some d
    /\ delete_remote env i d w = (w1, Ok tt)
    /\ delete_local i d w1 = (w', Ok tt).
Proof.
  rewrite deleteDocument_split. intros H.
  apply bind_ok_inv in H as (d & w0 & G & H).
  apply getDocument_inv in G as [-> F].
  apply bind_ok_inv in H as ([] & w1 & R & H).
  now exists d, w1.
Qed.

Lemma deleteDocument_throw_local (env : Env) (i u : jsstring) (w w' : World)
  (e : exn) :
  deleteDocument env i u w = (w', Throw e) -> same_local w w'.
Proof.
  rewrite deleteDocument_split. intros H.
  apply bind_throw_inv in H as [H|(d & w0 & G & H)].
  - apply getDocument_throw_inv in H. subst w'. apply same_local_refl.
  - apply getDocument_inv in G as [-> _].
    apply bind_throw_inv in H as [H|([] & w1 & R & H)].
    + apply (delete_remote_local env i d w w' _ H).
    + rewrite delete_local_run in H. discriminate.
Qed.

Lemma calls_grow_mono (P Q : Call -> Prop) (w w' : World) :
  (forall c, P c -> Q c) -> calls_grow P w w' -> calls_grow Q w w'.
Proof.
  intros H (new & E & F). exists new. split; [exact E|].
  eapply Forall_impl; [|exact F]. exact H.
Qed.

Lemma files_left_In (d : Document) (fs : list (jsstring * list N))
  (p : jsstring) (data : list N) :
  In (p, data) (files_left d fs)
  <-> In (p, data) fs /\ p <> path d /\ or_null (textFilePath d) <> Some p.
Proof.
  unfold files_left. rewrite !filter_In. cbn [fst].
  rewrite negb_true_iff, eqb_neq.
  destruct (or_null (textFilePath d)) as [q|].
  - rewrite negb_true_iff, eqb_neq. split.
    + intros [[A B] C]. repeat split; auto. congruence.
    + intros (A & B & C). repeat split; auto. congruence.
  - split; [intros [[A B] _]|intros (A & B & _)]; repeat split; auto.
    discriminate.
Qed.

(** The calls of the remote part: the file of the assistant, when the
    document has one, and the vectors of the chunks of the document. *)
Lemma delete_remote_calls (env : Env) (i : jsstring) (d : Document)
  (w w' : World) (r : result unit) :
  delete_remote env i d w = (w', r) ->
  calls_grow
    (fun c =>
       (exists f, c = AssistantDelete f
                  /\ or_null (assistantFileId d) = Some f)
       \/ exists x,
            c = DeleteMany x
                  (filter truthy (List.map pineconeId (find_chunks i w))))
    w w'.
Proof.
  set (P := fun c => _ \/ _). unfold delete_remote. intros H.
  unfold bind at 1 in H.
  destruct (delete_assistant_file env d w) as [wa [[]|e]] eqn:E.
  - pose proof (delete_assistant_local env d w wa _ E) as L.
    eapply calls_grow_trans.
    + apply (delete_assistant_calls P env d) in E; [exact E|].
      intros f Hf. left. now exists f.
    + unfold delete_vectors_of, bind at 1, get_world at 1 in H.
      assert (Ech : find_chunks i wa = find_chunks i w).
      { unfold find_chunks. destruct L as (_ & -> & _). reflexivity. }
      rewrite Ech in H.
      destruct (Z.of_nat (List.length (find_chunks i w)) >? 0)%Z;
        [|injection H as <- _; apply calls_grow_refl].
      destruct (Z.of_nat (List.length _) >? 0)%Z;
        [|injection H as <- _; apply calls_grow_refl].
      eapply (deleteVectors_calls_grow P); [|exact H].
      intros x. right. now exists x.
  - injection H as <- _.
    apply (delete_assistant_calls P env d) in E; [exact E|].
    intros f Hf. left. now exists f.
Qed.


Lemma delete_all_throw_inv (env : Env) (ids : list jsstring)
  (idxs : list (jsstring * Index)) :
  forall w w' e, delete_all env idxs ids w = (w', Throw e) ->
    exists x, In x idxs /\ deleteMany env (snd x) ids = Throw e.
Proof.
  induction idxs as [|[k x] rest IH]; intros w w' e H; [discriminate|].
  cbn [delete_all] in H. unfold bind at 1, log_call, modify in H.
  unfold bind at 1, lift in H.
  destruct (deleteMany env x ids) as [[]|e0] eqn:E.
  - destruct (IH _ _ _ H) as (y & Hy & Ey). exists y. split; [now right|].
    exact Ey.
  - injection H as _ <-. exists (k, x). split; [now left|exact E].
Qed.

Lemma delete_remote_throw_inv (env : Env) (i : jsstring) (d : Document)
  (w w' : World) (e : exn) :
  delete_remote env i d w = (w', Throw e) ->
  exists x,
    In x (indexes env)
    /\ deleteMany env (snd x)
         (filter truthy (List.map pineconeId (find_chunks i w)))
       = Throw e.
Proof.
  unfold delete_remote. intros H.
  destruct (delete_assistant_returns env d w) as [wa A].
  pose proof (delete_assistant_local env d w wa _ A) as L.
  unfold bind at 1 in H. rewrite A in H.
  unfold delete_vectors_of, bind at 1, get_world at 1 in H.
  assert (Ech : find_chunks i wa = find_chunks i w).
  { unfold find_chunks. destruct L as (_ & -> & _). reflexivity. }
  rewrite Ech in H.
  destruct (Z.of_nat (List.length (find_chunks i w)) >? 0)%Z;
    [|discriminate].
  destruct (Z.of_nat (List.length _) >? 0)%Z; [|discriminate].
  unfold deleteVectors in H.
  destruct (Z.of_nat (List.length _) =? 0)%Z; [discriminate|].
  now apply delete_all_throw_inv in H.
Qed.


(** *** The fingerprints *)

Lemma fingerprints_identity (l l' : list Document) :
  List.map identity l' = List.map identity l ->
  flat_map (fun d => match fileHash d with Some h => [h] | None => [] end) l'
  = flat_map (fun d => match fileHash d with Some h => [h] | None => [] end)
             l.
Proof.
  revert l'. induction l as [|d l IH]; intros [|d' l'] E; try discriminate;
    [reflexivity|].
  cbn [List.map] in E. unfold identity at 1 3 in E.
  injection E as _ Eh _ Et. cbn [flat_map].
  now rewrite (IH l' Et), Eh.
Qed.

Lemma same_registry_fingerprints (w w' : World) :
  same_registry w w' -> fingerprints w' = fingerprints w.
Proof. intros [H _]. now apply fingerprints_identity. Qed.

Lemma fingerprints_filter (keep : Document -> bool) (l : list Document) :
  NoDup (flat_map (fun d => match fileHash d with
                            | Some h => [h]
                            | None => []
                            end) l) ->
  NoDup (flat_map (fun d => match fileHash d with
                            | Some h => [h]
                            | None => []
                            end) (filter keep l)).
Proof.
  induction l as [|d l IH]; intros H; [constructor|].
  cbn [flat_map filter] in *.
  assert (Hl : NoDup (flat_map (fun d => match fileHash d with
                                         | Some h => [h]
                                         | None => []
                                         end) l))
    by (destruct (fileHash d); [now inversion H|exact H]).
  destruct (keep d); [|now apply IH]. cbn [flat_map].
  destruct (fileHash d) as [h|]; [|now apply IH].
  cbn [app] in *. inversion H as [|? ? Hn _]; subst. constructor; [|now apply IH].
  intros Hin. apply Hn. apply in_flat_map in Hin as (x & Hx & Hh).
  apply filter_In in Hx as [Hx _]. apply in_flat_map. now exists x.
Qed.

Lemma find_hash_none (h : jsstring) (w : World) :
  findOne_by_hash h w = None -> ~ In h (fingerprints w).
Proof.
  unfold findOne_by_hash, fingerprints. intros F Hin.
  apply in_flat_map in Hin as (d & Hd & Hh).
  apply (find_none _ _ F) in Hd.
  destruct (fileHash d) as [h'|]; [|contradiction].
  destruct Hh as [->|[]]. cbn in Hd. now rewrite eqb_refl in Hd.
Qed.

Lemma NoDup_snoc {A : Type} (l : list A) (a : A) :
  NoDup l -> ~ In a l -> NoDup (l ++ [a]).
Proof.
  intros H Ha. induction H as [|x l Hx Hl IH]; cbn [app].
  - constructor; [intros []|constructor].
  - constructor.
    + intros Hin. apply in_app_or in Hin as [Hin|[->|[]]]; [now apply Hx|].
      apply Ha. now left.
    + apply IH. intros Hin. apply Ha. now right.
Qed.

(** The documents after an upload. *)
Lemma upload_documents (env : Env) (file : MulterFile) (u : jsstring)
  (w : World) :
  documents (fst (uploadDocument env file u w))
  = match findOne_by_hash (sha256_hex env (buffer file)) w with
    | Some _ => documents w
    | None =>
        documents w
        ++ [mkDocument (uuid env (fresh w))
              (decodeFilename env (originalname file)) (mimetype file)
              (file_size file)
              (path_join env (uploadPath env)
                 (decimal (Date_now env) ++ str "-"
                  ++ decodeFilename env (originalname file)))
              None None (Some (sha256_hex env (buffer file))) processing
              None u None]
    end.
Proof.
  unfold uploadDocument.
  unfold bind at 1, get_world at 1. unfold bind at 1.
  assert (D : exists w0,
             (if dir_exists (uploadPath env) w then ret tt
              else mkdirSync (uploadPath env)) w = (w0, Ok tt)
             /\ documents w0 = documents w /\ fresh w0 = fresh w
             /\ findOne_by_hash (sha256_hex env (buffer file)) w0
                = findOne_by_hash (sha256_hex env (buffer file)) w).
  { destruct (dir_exists (uploadPath env) w); eexists;
      (split; [reflexivity|]); repeat split. }
  destruct D as (w0 & -> & D1 & D2 & D3).
  unfold bind at 1, get_world at 1. rewrite D3.
  destruct (findOne_by_hash (sha256_hex env (buffer file)) w) as [d|];
    [exact D1|].
  unfold bind at 1, writeFileSync, modify.
  unfold bind at 1, fresh_id.
  unfold bind at 1, modify.
  unfold bind at 1, set_off, modify.
  unfold bind at 1, get_world.
  cbn [documents chunks users dirs files calls tasks fresh set_files
       set_documents].
  rewrite D1, D2.
  match goal with
  | |- context [match ?x with Some _ => _ | None => _ end] => destruct x
  end; reflexivity.
Qed.


(** *** An upload that is accepted *)

Lemma find_app_none {A : Type} (p : A -> bool) (l l' : list A) :
  find p l = None -> find p (l ++ l') = find p l'.
Proof.
  induction l as [|a l IH]; [reflexivity|]. cbn [find app].
  destruct (p a); [discriminate|exact IH].
Qed.

Lemma find_none_and {A : Type} (p q : A -> bool) (l : list A) :
  find p l = None -> find (fun x => p x && q x) l = None.
Proof.
  induction l as [|a l IH]; [reflexivity|]. cbn [find].
  destruct (p a); [discriminate|]. cbn [andb]. exact IH.
Qed.

Lemma upload_accepted (env : Env) (file : MulterFile) (u : jsstring)
  (w : World) :
  findOne_by_hash (sha256_hex env (buffer file)) w = None ->
  findOne_by_id (uuid env (fresh w)) w = None ->
  let p := path_join env (uploadPath env)
             (decimal (Date_now env) ++ str "-"
              ++ decodeFilename env (originalname file)) in
  let d := mkDocument (uuid env (fresh w))
             (decodeFilename env (originalname file)) (mimetype file)
             (file_size file) p None None
             (Some (sha256_hex env (buffer file))) processing None u None in
  let w1 := mkWorld (documents w ++ [d]) (chunks w) (users w)
              (if dir_exists (uploadPath env) w then dirs w
               else dirs w ++ [uploadPath env])
              (filter (fun f => negb (eqb (fst f) p)) (files w)
               ++ [(p, buffer file)])
              (calls w) (tasks w ++ [ProcessTask (uuid env (fresh w))])
              (S (fresh w)) in
  uploadDocument env file u w = (w1, Ok (with_uploader d w1)).
Proof.
  intros Fh Fi p d w1. unfold uploadDocument.
  unfold bind at 1, get_world at 1. unfold bind at 1.
  assert (D : (if dir_exists (uploadPath env) w then ret tt
               else mkdirSync (uploadPath env)) w
              = (mkWorld (documents w) (chunks w) (users w)
                   (if dir_exists (uploadPath env) w then dirs w
                    else dirs w ++ [uploadPath env])
                   (files w) (calls w) (tasks w) (fresh w), Ok tt)).
  { destruct (dir_exists (uploadPath env) w); [now destruct w|reflexivity]. }
  rewrite D. unfold bind at 1, get_world at 1.
  unfold findOne_by_hash at 1. cbn [documents].
  unfold findOne_by_hash in Fh. rewrite Fh.
  unfold bind at 1, writeFileSync, modify.
  unfold bind at 1, fresh_id.
  unfold bind at 1, modify.
  unfold bind at 1, set_off, modify.
  unfold bind at 1, get_world.
  cbn [documents chunks users dirs files calls tasks fresh set_files
       set_documents].
  fold p. fold d. fold w1.
  unfold findOne_by_id. subst w1. cbn [documents].
  unfold findOne_by_id in Fi. rewrite (find_app_none _ _ _ Fi).
  cbn [find id]. subst d. cbn [id]. now rewrite eqb_refl.
Qed.

Lemma existsb_last (p : jsstring) (data : list N)
  (fs : list (jsstring * list N)) :
  existsb (fun f => eqb (fst f) p) (fs ++ [(p, data)]) = true.
Proof.
  rewrite existsb_app. cbn [existsb fst]. rewrite eqb_refl.
  now rewrite orb_true_r.
Qed.


(** *** The category of a document *)

Lemma find_map_keep (p : Document -> bool) (g : Document -> Document)
  (ds : list Document) :
  (forall x, p (g x) = p x) ->
  find p (List.map g ds) = option_map g (find p ds).
Proof.
  intros Hg. induction ds as [|d ds IH]; [reflexivity|].
  cbn [List.map find]. rewrite Hg. destruct (p d); [reflexivity|exact IH].
Qed.

End ServiceMoreFacts.

(** ** The services: further properties *)

Module ServiceMore.
Import Js JsFacts Json JsonFacts Model PineconeService DocumentsService
  DocumentsServiceMore Frames MoreFrames Examples MoreExamples FrameFacts
  PipelineFacts ServiceFacts TextCleaner TextCleanerFacts ServiceMoreFacts
  ChunkerMore CleanerMore.
Local Open Scope world_scope.

(** X9: a task that runs after its document was deleted does nothing: the
    pipeline throws [NotFoundException] before any call is made or any file
    is written, the handler of the task updates no row, and the world is as
    the deletion left it. *)
Theorem task_after_delete (env env' : Env) (i u : jsstring) (w w' : World) :
  deleteDocument env i u w = (w', Ok tt) ->
  processDocument env' i w'
  = (w', Throw (NotFoundException (str "Document not found")))
  /\ run_task env' (ProcessTask i) w' = (w', Ok tt).
Proof.
  intros H. apply deleteDocument_no_row in H.
  split; [now apply processDocument_missing|now apply run_task_missing].
Qed.

Lemma task_after_delete_witness :
  run_task example_env (ProcessTask (str "d1"))
    (fst (deleteDocument example_env (str "d1") (str "u1") ready_world))
  = (fst (deleteDocument example_env (str "d1") (str "u1") ready_world),
     Ok tt).
Proof.
  assert (H : deleteDocument example_env (str "d1") (str "u1") ready_world
              = (fst (deleteDocument example_env (str "d1") (str "u1")
                        ready_world), Ok tt))
    by (vm_compute; reflexivity).
  apply (task_after_delete example_env example_env (str "d1") (str "u1")
           ready_world _ H).
Defined.

(** X13: a document is found for its owner only: when every document of
    the identifier asked for belongs to other users, [getDocument],
    [deleteDocument], [reprocessDocument] and [streamDocumentFile] throw
    [NotFoundException] and change nothing; no call is made, no file is
    taken away and no task is set off. *)
Theorem other_owner_not_found (env : Env) (i u : jsstring) (w : World) :
  (forall d, In d (documents w) -> id d = i -> doc_userId d <> u) ->
  getDocument i u w
  = (w, Throw (NotFoundException (str "Document not found")))
  /\ deleteDocument env i u w
     = (w, Throw (NotFoundException (str "Document not found")))
  /\ reprocessDocument env i u w
     = (w, Throw (NotFoundException (str "Document not found")))
  /\ streamDocumentFile i u w
     = (w, Throw (NotFoundException (str "Document not found")))
  /\ forall categories c,
       updateDocumentCategory categories i u c w
       = (w, Throw (NotFoundException (str "Document not found"))).
Proof.
  intros H. apply find_other_owner in H.
  pose proof (getDocument_not_found i u w H) as G.
  split; [exact G|].
  unfold deleteDocument, reprocessDocument, streamDocumentFile,
    updateDocumentCategory, bind at 1.
  rewrite G. repeat split; try reflexivity.
  - unfold bind at 1. now rewrite G.
  - unfold bind at 1. now rewrite G.
  - intros categories c. unfold bind at 1. now rewrite G.
Qed.

Lemma other_owner_not_found_witness :
  (forall d, In d (documents ready_world) -> id d = str "d1" ->
     doc_userId d <> str "u2")
  /\ deleteDocument example_env (str "d1") (str "u2") ready_world
     = (ready_world, Throw (NotFoundException (str "Document not found"))).
Proof.
  assert (H : forall d, In d (documents ready_world) -> id d = str "d1" ->
                doc_userId d <> str "u2").
  { intros d [<-|[]] _. vm_compute. discriminate. }
  split; [exact H|].
  apply (other_owner_not_found example_env (str "d1") (str "u2")
           ready_world H).
Defined.

(** X14: [deleteVectors] makes no call for an empty list of identifiers;
    otherwise it asks every index of the table, in the order of the table,
    to delete the same identifiers, and it stops at the first index that
    fails: the indexes before it have deleted, those after it get no call,
    and the error of that index is thrown. With no index configured it
    returns without an error. *)
Theorem deleteVectors_calls (env : Env) (ids : list jsstring) (w : World) :
  (ids = [] \/ indexes env = [] -> deleteVectors env ids w = (w, Ok tt))
  /\ (ids <> [] ->
      Forall (fun e => deleteMany env (snd e) ids = Ok tt) (indexes env) ->
      deleteVectors env ids w
      = (add_calls (List.map (fun e => DeleteMany (snd e) ids) (indexes env))
                   w,
         Ok tt))
  /\ (ids <> [] ->
      forall pre x post err,
        indexes env = pre ++ x :: post ->
        Forall (fun e => deleteMany env (snd e) ids = Ok tt) pre ->
        deleteMany env (snd x) ids = Throw err ->
        deleteVectors env ids w
        = (add_calls (List.map (fun e => DeleteMany (snd e) ids)
                               (pre ++ [x])) w,
           Throw err)).
Proof.
  unfold deleteVectors. rewrite length_zero_nil. split; [|split].
  - intros [->|E]; [reflexivity|]. rewrite E. now destruct ids.
  - intros Hne H. destruct ids; [congruence|]. now apply delete_all_done.
  - intros Hne pre x post err E Hpre Hx. destruct ids; [congruence|].
    rewrite E. now apply delete_all_first_failure.
Qed.

(** X15: [upsertVector] stops at the first index that refuses the records:
    the indexes before it in the table have taken them, those after it get
    no call, nothing is taken back, and the error of that index is
    thrown. *)
Theorem upsertVector_first_failure (env : Env) (vector : list VectorRecord)
  (w : World) (pre : list (jsstring * Index)) (x : jsstring * Index)
  (post : list (jsstring * Index)) (err : exn) :
  indexes env = pre ++ x :: post ->
  Forall (fun e => upsertRecords env (snd e) vector = Ok tt) pre ->
  upsertRecords env (snd x) vector = Throw err ->
  upsertVector env vector w
  = (add_calls (List.map (fun e => UpsertRecords (snd e) vector)
                         (pre ++ [x])) w,
     Throw err).
Proof.
  intros E Hpre Hx. unfold upsertVector. rewrite length_zero_nil, E.
  destruct (pre ++ x :: post) eqn:P; [now destruct pre|]. rewrite <- P.
  unfold bind. now rewrite (upsert_all_first_failure env vector pre x post err).
Qed.

Lemma upsertVector_first_failure_witness :
  indexes air_down_env
  = [(str "air-multy",
      mkIndex (str "air-multy") (str "https://default.example"))]
    ++ (str "air", mkIndex (str "air") (str "https://air.example")) :: []
  /\ upsertVector air_down_env one_record empty_world
     = (add_calls
          [UpsertRecords
             (mkIndex (str "air-multy") (str "https://default.example"))
             one_record;
           UpsertRecords (mkIndex (str "air") (str "https://air.example"))
             one_record]
          empty_world,
        Throw (Error (str "air is down"))).
Proof.
  assert (H : indexes air_down_env
              = [(str "air-multy",
                  mkIndex (str "air-multy") (str "https://default.example"))]
                ++ (str "air",
                    mkIndex (str "air") (str "https://air.example")) :: [])
    by reflexivity.
  split; [exact H|].
  apply (upsertVector_first_failure air_down_env one_record empty_world
           _ _ _ (Error (str "air is down")) H).
  - constructor; [reflexivity|constructor].
  - reflexivity.
Defined.

(** X16: with the address of the default index configured, as it is in a
    service that has started, [queryVectors] searches once, and where
    depends on the name asked for, the default name when none is given: the
    index of that name when the table has it; the entry under the default
    name when the table has not and the name is no member of
    [Object.prototype]; and, when the table has not and the name is such a
    member ([constructor], [toString], ...), the index that the client
    makes of the name of that member and no address, with no fall back to
    the default index. An error of the search is thrown as it is. *)
Theorem queryVectors_falls_back (env : Env) (q : jsstring)
  (name : option jsstring) (w : World) (u : jsstring) :
  configured (PINECONE_INDEX_URL env) = Some u ->
  let requested := validIndexName env name in
  (forall y, In (requested, y) (indexes env) ->
     queryVectors env q name w
     = (add_calls [SearchRecords y q] w,
        match searchRecords env y q with
        | Ok hits => Ok (List.map parse_hit hits)
        | Throw e => Throw e
        end))
  /\ (~ In requested (List.map fst (indexes env)) ->
      ~ In requested prototype_members ->
      exists x,
        In (defaultIndexName env, x) (indexes env)
        /\ queryVectors env q name w
           = (add_calls [SearchRecords x q] w,
              match searchRecords env x q with
              | Ok hits => Ok (List.map parse_hit hits)
              | Throw e => Throw e
              end))
  /\ (~ In requested (List.map fst (indexes env)) ->
      In requested prototype_members ->
      queryVectors env q name w
      = (add_calls [SearchRecordsByName (member_name requested) q] w,
         match searchRecords_by_name env (member_name requested) q with
         | Ok hits => Ok (List.map parse_hit hits)
         | Throw e => Throw e
         end)).
Proof.
  intros H requested. destruct (record_get_default env u H) as (xd & Id & Hd).
  split; [|split].
  - intros y Hy. rewrite queryVectors_run. unfold selectedIndex.
    fold requested.
    now rewrite (record_get_in _ _ _ (indexes_names env) Hy).
  - intros N M. exists xd. split; [exact Id|].
    rewrite queryVectors_run. unfold selectedIndex. fold requested.
    now rewrite (record_get_undefined _ _ N M), Hd.
  - intros N M. rewrite queryVectors_run. unfold selectedIndex.
    fold requested. now rewrite (record_get_inherited _ _ N M).
Qed.

Lemma queryVectors_falls_back_witness :
  configured (PINECONE_INDEX_URL example_env)
  = Some (str "https://default.example")
  /\ queryVectors example_env (str "what") (Some (str "no-such-index"))
       empty_world
     = (add_calls
          [SearchRecords
             (mkIndex (str "air-multy") (str "https://default.example"))
             (str "what")]
          empty_world, Ok [])
  /\ queryVectors example_env (str "what") (Some (str "constructor"))
       empty_world
     = (add_calls [SearchRecordsByName (Some (str "Object")) (str "what")]
          empty_world, Throw (Error (str "index not found"))).
Proof.
  assert (H : configured (PINECONE_INDEX_URL example_env)
              = Some (str "https://default.example")) by reflexivity.
  split; [exact H|].
  destruct (queryVectors_falls_back example_env (str "what")
              (Some (str "constructor")) empty_world _ H)
    as (_ & _ & C).
  split; [reflexivity|].
  apply C; [vm_compute; intuition discriminate|vm_compute; auto].
Defined.

(** X17: with no address of an index configured the service does not
    start: [onModuleInit] throws. Were its methods called all the same,
    the table of indexes would be empty: [upsertVector] throws before any
    call; [queryVectors] throws, for a name that is no member of
    [Object.prototype], and for a name that is one it searches the index
    that the client makes of the name of that member; [deleteVectors] and
    [deleteVector] return without a call and without an error. *)
Theorem no_index_configured (env : Env) (w : World) :
  configured (PINECONE_INDEX_URL env) = None ->
  configured (PINECONE_INDEX_URL_AIR env) = None ->
  (exists m, onModuleInit env w = (w, Throw (Error m)))
  /\ (forall vector,
        upsertVector env vector w
        = (w, Throw (Error
                 (str "At least one Pinecone index URL must be configured"))))
  /\ (forall q name,
        ~ In (validIndexName env name) prototype_members ->
        ~ In (defaultIndexName env) prototype_members ->
        queryVectors env q name w
        = (w, Throw (Error (str "Index configuration not found for: "
                            ++ validIndexName env name))))
  /\ (forall q name,
        In (validIndexName env name) prototype_members ->
        queryVectors env q name w
        = (add_calls
             [SearchRecordsByName (member_name (validIndexName env name)) q]
             w,
           match searchRecords_by_name env
                   (member_name (validIndexName env name)) q with
           | Ok hits => Ok (List.map parse_hit hits)
           | Throw e => Throw e
           end))
  /\ (forall ids, deleteVectors env ids w = (w, Ok tt))
  /\ (forall i, deleteVector env i w = (w, Ok tt)).
Proof.
  intros H1 H2. pose proof (indexes_nil env H1 H2) as E.
  split; [|split; [|split; [|split; [|split]]]].
  - unfold onModuleInit. rewrite H1.
    destruct (configured (PINECONE_API_KEY env)); eexists; reflexivity.
  - intros vector. unfold upsertVector. now rewrite E.
  - intros q name N D. rewrite queryVectors_run. unfold selectedIndex.
    rewrite E.
    now rewrite (record_get_undefined [] _ (fun F => F) N),
      (record_get_undefined [] _ (fun F => F) D).
  - intros q name M. rewrite queryVectors_run. unfold selectedIndex.
    rewrite E. now rewrite (record_get_inherited [] _ (fun F => F) M).
  - intros ids. unfold deleteVectors. rewrite E.
    now destruct (Z.of_nat (List.length ids) =? 0)%Z.
  - intros i. unfold deleteVector. now rewrite E.
Qed.

Lemma no_index_configured_witness :
  configured (PINECONE_INDEX_URL no_index_env) = None
  /\ configured (PINECONE_INDEX_URL_AIR no_index_env) = None
  /\ upsertVector no_index_env one_record empty_world
     = (empty_world,
        Throw (Error
                 (str "At least one Pinecone index URL must be configured"))).
Proof.
  assert (H1 : configured (PINECONE_INDEX_URL no_index_env) = None)
    by reflexivity.
  assert (H2 : configured (PINECONE_INDEX_URL_AIR no_index_env) = None)
    by reflexivity.
  split; [exact H1|]. split; [exact H2|].
  apply (no_index_configured no_index_env empty_world H1 H2).
Defined.

(** X18: the hit that [queryVectors] makes of a hit keeps its identifier
    and its score and always has a category, a text and metadata; the text
    is empty only when the hit had neither a category nor a text. Making
    the hit again of the hit made changes nothing. *)
Theorem parse_hit_idempotent (h : Hit) :
  hit_id (parse_hit h) = hit_id h
  /\ hit_score (parse_hit h) = hit_score h
  /\ category (fields (parse_hit h)) = Some (categoryValue h)
  /\ (exists t, text (fields (parse_hit h)) = Some t
                /\ (t = [] -> categoryValue h = []
                              /\ config_get (text (fields h)) [] = []))
  /\ metadata (fields (parse_hit h)) <> None
  /\ parse_hit (parse_hit h) = parse_hit h.
Proof.
  assert (C : categoryValue (parse_hit h) = categoryValue h).
  { unfold parse_hit, categoryValue.
    destruct (JSON_parse _); cbn [fields category text config_get];
      destruct (category (fields h)) as [[|c cs]|];
      destruct (text (fields h)) as [[|t ts]|]; reflexivity. }
  assert (T : or_else (config_get (text (fields (parse_hit h))) [])
                      (categoryValue h)
              = or_else (config_get (text (fields h)) []) (categoryValue h)).
  { unfold parse_hit, categoryValue.
    destruct (JSON_parse _); cbn [fields category text config_get];
      destruct (category (fields h)) as [[|c cs]|];
      destruct (text (fields h)) as [[|t ts]|]; reflexivity. }
  split; [unfold parse_hit; now destruct (JSON_parse _)|].
  split; [unfold parse_hit; now destruct (JSON_parse _)|].
  split; [unfold parse_hit; now destruct (JSON_parse _)|].
  split.
  { eexists. split; [unfold parse_hit; now destruct (JSON_parse _)|].
    unfold categoryValue, or_else.
    destruct (category (fields h)) as [[|c cs]|];
      destruct (text (fields h)) as [[|t ts]|]; cbn; intros E;
      try discriminate; auto. }
  split; [unfold parse_hit; now destruct (JSON_parse _)|].
  unfold parse_hit at 1. rewrite C, T.
  unfold parse_hit.
  destruct (JSON_parse (categoryValue h)); reflexivity.
Qed.

(** X19: the records of one document have the identifiers
    [<documentId>_chunk_<i>] for [i] from 0 on, one for each chunk; these
    are not empty and two by two distinct, so [upsertVector] returns every
    one of them. *)
Theorem record_ids_distinct (env : Env) (d : Document) (i : jsstring)
  (cs : list jsstring) :
  List.map record_id (records_of env d i cs)
  = List.map (pinecone_id i) (indices 0 (List.length cs))
  /\ NoDup (List.map record_id (records_of env d i cs))
  /\ filter truthy (List.map record_id (records_of env d i cs))
     = List.map record_id (records_of env d i cs)
  /\ List.map record_text (records_of env d i cs) = cs.
Proof.
  unfold records_of. rewrite build_data_ids.
  split; [reflexivity|]. split; [|split].
  - apply NoDup_map_inj; [|apply indices_NoDup].
    intros a b. apply pinecone_id_inj.
  - apply forallb_filter_id. apply forallb_forall. intros x Hx.
    apply in_map_iff in Hx as [k [<- _]]. apply pinecone_id_truthy.
  - apply build_data_text.
Qed.

(** X8: when the text is extracted and every index of the table takes the
    records, the task succeeds, whatever the assistant and Gemini answer:
    one row is added for each chunk, in the order of the chunks, numbered
    from 0 on, with the identifier [<documentId>_chunk_<i>] of its record;
    the document ends [ready] with the path of its text file (its error
    message is left as it was); the cleaned text is in that file; and the
    calls made are the extraction, the upload to the assistant, the call
    of Gemini and one upsert of all the records in each index. *)
Theorem pipeline_success (env : Env) (i : jsstring) (w : World)
  (d : Document) (text : jsstring) :
  findOne_by_id i w = Some d ->
  parseFile env (path d) (type d) = Ok text ->
  indexes env <> [] ->
  (forall x data, In x (indexes env) ->
     upsertRecords env (snd x) data = Ok tt) ->
  let cleaned := cleanTextLineBreaks text in
  let tfp := path_join env (uploadPath env) (i ++ str "-text.txt") in
  let cs := pipeline_chunks env cleaned in
  exists w' new d',
    run_task env (ProcessTask i) w = (w', Ok tt)
    /\ chunks w' = chunks w ++ new
    /\ List.map content new = cs
    /\ List.map chunk_chunkIndex new = indices 0 (List.length cs)
    /\ Forall (fun c => chunk_documentId c = id d
                        /\ pineconeId c = pinecone_id i (chunk_chunkIndex c))
              new
    /\ findOne_by_id i w' = Some d'
    /\ status d' = ready /\ textFilePath d' = Some tfp
    /\ errorMessage d' = errorMessage d
    /\ calls w' = calls w ++ pipeline_calls env d i cleaned
    /\ In (tfp, cleaned) (files w').
Proof.
  intros F P Hne Hok cleaned tfp cs.
  destruct (processDocument_ok env i w d text F P Hne Hok)
    as (w' & new & E & A & B & C & D & G & H & Fi & _).
  exists w', new. eexists.
  split; [now apply run_task_ok|].
  repeat (split; [eassumption|]).
  split; [reflexivity|]. split; [reflexivity|]. split; [reflexivity|].
  split; [exact H|]. rewrite Fi. apply in_or_app. right. now left.
Qed.

Lemma pipeline_success_witness :
  findOne_by_id (str "d1") ready_world = Some ready_document
  /\ exists w' new d',
       run_task example_env (ProcessTask (str "d1")) ready_world = (w', Ok tt)
       /\ chunks w' = chunks ready_world ++ new
       /\ List.map content new
          = pipeline_chunks example_env
              (cleanTextLineBreaks (str "Hello world."))
       /\ findOne_by_id (str "d1") w' = Some d' /\ status d' = ready.
Proof.
  assert (F : findOne_by_id (str "d1") ready_world = Some ready_document)
    by reflexivity.
  split; [exact F|].
  destruct (pipeline_success example_env (str "d1") ready_world
              ready_document (str "Hello world.") F eq_refl)
    as (w' & new & d' & A & B & C & _ & _ & D & E & _).
  - vm_compute. discriminate.
  - intros x data _. reflexivity.
  - exists w', new, d'. auto.
Defined.

(** X22: a text of white space only (or an empty text), with Gemini
    failing, still makes the document [ready]: no row is added, and every
    index is sent an upsert of no record. *)
Theorem blank_text_no_chunks (env : Env) (i : jsstring) (w : World)
  (d : Document) (text : jsstring) (e : exn) :
  findOne_by_id i w = Some d ->
  parseFile env (path d) (type d) = Ok text ->
  all_space text = true ->
  gemini_semanticChunking env (cleanTextLineBreaks text) 1000 = Throw e ->
  indexes env <> [] ->
  (forall x data, In x (indexes env) ->
     upsertRecords env (snd x) data = Ok tt) ->
  exists w' d',
    run_task env (ProcessTask i) w = (w', Ok tt)
    /\ chunks w' = chunks w
    /\ findOne_by_id i w' = Some d' /\ status d' = ready
    /\ calls w'
       = calls w
         ++ [ParseFile (path d) (type d);
             AssistantUpload
               (path_join env (uploadPath env) (i ++ str "-text.txt"));
             GeminiChunking (cleanTextLineBreaks text) 1000]
         ++ List.map (fun x => UpsertRecords (snd x) []) (indexes env).
Proof.
  intros F P Hs G Hne Hok.
  destruct (processDocument_ok env i w d text F P Hne Hok)
    as (w' & new & E & A & B & C & D & Fd & H & _).
  assert (Hcs : pipeline_chunks env (cleanTextLineBreaks text) = []).
  { unfold pipeline_chunks. rewrite G, semanticChunking_clean.
    now apply semanticChunking_all_space. }
  rewrite Hcs in *. apply map_eq_nil in B. subst new.
  rewrite app_nil_r in A.
  exists w'. eexists. split; [now apply run_task_ok|].
  split; [exact A|]. split; [exact Fd|]. split; [reflexivity|].
  rewrite H. unfold pipeline_calls. now rewrite Hcs.
Qed.

Lemma blank_text_no_chunks_witness :
  findOne_by_id (str "d1") ready_world = Some ready_document
  /\ exists w' d',
       run_task blank_env (ProcessTask (str "d1")) ready_world = (w', Ok tt)
       /\ chunks w' = chunks ready_world
       /\ findOne_by_id (str "d1") w' = Some d' /\ status d' = ready.
Proof.
  assert (F : findOne_by_id (str "d1") ready_world = Some ready_document)
    by reflexivity.
  split; [exact F|].
  destruct (blank_text_no_chunks blank_env (str "d1") ready_world
              ready_document [SP; NL; NL; SP] (Error (str "gemini is down"))
              F eq_refl eq_refl eq_refl)
    as (w' & d' & A & B & C & D & _).
  - vm_compute. discriminate.
  - intros x data _. reflexivity.
  - exists w', d'. auto.
Defined.

(** X20: a task on a document that is there always returns, and leaves
    the document settled: [ready] when the pipeline returned, [error] with
    the message of the error when it threw; the document keeps its
    identifier, fingerprint and owner, no document is added or taken away,
    and the documents of other identifiers are as they were. *)
Theorem task_settles_status (env : Env) (i : jsstring) (w : World)
  (d : Document) :
  findOne_by_id i w = Some d ->
  snd (run_task env (ProcessTask i) w) = Ok tt
  /\ (exists d',
        findOne_by_id i (fst (run_task env (ProcessTask i) w)) = Some d'
        /\ identity d' = identity d
        /\ ((status d' = ready
             /\ exists w', processDocument env i w = (w', Ok tt))
            \/ (status d' = error
                /\ exists w' e,
                     processDocument env i w = (w', Throw e)
                     /\ errorMessage d' = Some (message_of e))))
  /\ others_same i w (fst (run_task env (ProcessTask i) w))
  /\ List.length (documents (fst (run_task env (ProcessTask i) w)))
     = List.length (documents w).
Proof.
  intros F.
  pose proof (run_task_registry env (ProcessTask i) w _ _
                (surjective_pairing _)) as R.
  destruct (findOne_by_id_registry i w _ d R F) as (d' & F' & I).
  split; [|split; [|split]].
  - unfold run_task, try_catch.
    destruct (processDocument env i w) as [w1 [[]|e]]; reflexivity.
  - exists d'. split; [exact F'|]. split; [exact I|].
    destruct (processDocument env i w) as [w1 [[]|e]] eqn:E.
    + left. split; [|now exists w1].
      apply (processDocument_ready env i w w1 d' E).
      rewrite <- F'. unfold run_task, try_catch. now rewrite E.
    + right.
      destruct (run_task_marks_error env i w w1 d e F E)
        as (_ & d'' & F'' & S & M).
      rewrite F' in F''. injection F'' as <-.
      split; [exact S|]. now exists w1, e.
  - apply (run_task_others env i w _ _ (surjective_pairing _)).
  - destruct R as [R _]. apply (f_equal (@List.length _)) in R.
    now rewrite !length_map in R.
Qed.

Lemma task_settles_status_witness :
  findOne_by_id (str "row-0") processing_world
  = Some (mkDocument (str "row-0") (str "notes.txt") (str "text/plain") 3
            (str "./uploads/1700000000000-notes.txt") None None
            (Some [104; 105; 33]%N) processing None (str "u1") None)
  /\ snd (run_task air_down_env (ProcessTask (str "row-0")) processing_world)
     = Ok tt.
Proof.
  assert (F : findOne_by_id (str "row-0") processing_world
              = Some (mkDocument (str "row-0") (str "notes.txt")
                        (str "text/plain") 3
                        (str "./uploads/1700000000000-notes.txt") None None
                        (Some [104; 105; 33]%N) processing None (str "u1")
                        None))
    by (vm_compute; reflexivity).
  split; [exact F|].
  apply (task_settles_status air_down_env (str "row-0") processing_world
           _ F).
Defined.

(** X11: a deletion that returns has taken away the rows of the
    identifier and, by the cascade, the chunks of the document, the file of
    the document and its text file; the other rows, chunks and files are as
    they were. The only calls made are the deletion of the file of the
    assistant, when the document has one, and the deletion, in the indexes,
    of the vectors named by the chunks of the document. *)
Theorem deleteDocument_effect (env : Env) (i u : jsstring) (w w' : World) :
  deleteDocument env i u w = (w', Ok tt) ->
  exists d,
    findOne_by_id_user i u w = Some d
    /\ documents w' = filter (fun x => negb (eqb (id x) i)) (documents w)
    /\ chunks w'
       = filter (fun c => negb (eqb (chunk_documentId c) i)) (chunks w)
    /\ (forall p data,
          In (p, data) (files w')
          <-> In (p, data) (files w) /\ p <> path d
              /\ or_null (textFilePath d) <> Some p)
    /\ users w' = users w /\ dirs w' = dirs w /\ tasks w' = tasks w
    /\ calls_grow
         (fun c =>
            (exists f, c = AssistantDelete f
                       /\ or_null (assistantFileId d) = Some f)
            \/ exists x,
                 c = DeleteMany x
                       (filter truthy
                          (List.map pineconeId (find_chunks i w))))
         w w'.
Proof.
  intros H. apply deleteDocument_ok_inv in H as (d & w1 & F & R & L).
  pose proof (delete_remote_local env i d w w1 _ R)
    as (A1 & A2 & A3 & A4 & A5 & A6 & A7).
  pose proof (delete_remote_calls env i d w w1 _ R) as C.
  rewrite delete_local_run in L. injection L as <-.
  cbn [documents chunks users dirs files calls tasks fresh].
  exists d. rewrite A1, A2, A3, A4, A5, A6.
  split; [exact F|]. split; [reflexivity|]. split; [reflexivity|].
  split; [intros p data; apply files_left_In|].
  repeat (split; [reflexivity|]).
  destruct C as (new & E & Hnew). exists new. split; [exact E|exact Hnew].
Qed.

Lemma deleteDocument_effect_witness :
  exists d,
    findOne_by_id_user (str "d1") (str "u1") ready_world = Some d
    /\ documents
         (fst (deleteDocument example_env (str "d1") (str "u1") ready_world))
       = filter (fun x => negb (eqb (id x) (str "d1")))
                (documents ready_world).
Proof.
  assert (H : deleteDocument example_env (str "d1") (str "u1") ready_world
              = (fst (deleteDocument example_env (str "d1") (str "u1")
                        ready_world), Ok tt))
    by (vm_compute; reflexivity).
  destruct (deleteDocument_effect example_env (str "d1") (str "u1")
              ready_world _ H) as (d & A & B & _).
  exists d. split; [exact A|exact B].
Defined.

(** X12: a deletion that throws has changed no table and no file: either
    the document is not found for that user and nothing at all was done, or
    an index refused to delete the vectors of the document; the files are
    unlinked and the rows deleted only after every index has answered. *)
Theorem deleteDocument_failure_keeps (env : Env) (i u : jsstring)
  (w w' : World) (e : exn) :
  deleteDocument env i u w = (w', Throw e) ->
  documents w' = documents w /\ chunks w' = chunks w /\ files w' = files w
  /\ tasks w' = tasks w
  /\ ((e = NotFoundException (str "Document not found") /\ w' = w
       /\ findOne_by_id_user i u w = None)
      \/ exists d x,
           findOne_by_id_user i u w = Some d
           /\ In x (indexes env)
           /\ deleteMany env (snd x)
                (filter truthy (List.map pineconeId (find_chunks i w)))
              = Throw e).
Proof.
  intros H.
  pose proof (deleteDocument_throw_local env i u w w' e H)
    as (A1 & A2 & A3 & A4 & A5 & A6 & A7).
  repeat (split; [assumption|]).
  rewrite deleteDocument_split in H.
  apply bind_throw_inv in H as [H|(d & w0 & G & H)].
  - left. unfold getDocument, bind, get_world in H.
    destruct (findOne_by_id_user i u w); [discriminate|].
    unfold throw in H. injection H as <- <-. auto.
  - right. apply getDocument_inv in G as [-> F].
    apply bind_throw_inv in H as [H|([] & w1 & R & H)].
    + apply delete_remote_throw_inv in H as (x & Hx & Ex).
      now exists d, x.
    + rewrite delete_local_run in H. discriminate.
Qed.

Lemma deleteDocument_failure_keeps_witness :
  documents
    (fst (deleteDocument air_keeps_env (str "d1") (str "u1") ready_world))
  = documents ready_world
  /\ chunks
       (fst (deleteDocument air_keeps_env (str "d1") (str "u1") ready_world))
     = chunks ready_world
  /\ files
       (fst (deleteDocument air_keeps_env (str "d1") (str "u1") ready_world))
     = files ready_world.
Proof.
  assert (H : deleteDocument air_keeps_env (str "d1") (str "u1") ready_world
              = (fst (deleteDocument air_keeps_env (str "d1") (str "u1")
                        ready_world),
                 Throw (Error (str "air is down"))))
    by (vm_compute; reflexivity).
  destruct (deleteDocument_failure_keeps air_keeps_env (str "d1") (str "u1")
              ready_world _ _ H) as (A & B & C & _).
  auto.
Defined.

(** X10: no two documents with the same fingerprint: when that holds, it
    still holds after an upload (accepted or rejected), after a task, after
    a deletion (that returns or throws) and after a change of category. *)
Theorem fingerprints_stay_unique (env : Env) (w : World) :
  unique_fingerprints w ->
  (forall file u, unique_fingerprints (fst (uploadDocument env file u w)))
  /\ (forall t, unique_fingerprints (fst (run_task env t w)))
  /\ (forall i u, unique_fingerprints (fst (deleteDocument env i u w)))
  /\ (forall categories i u c,
        unique_fingerprints
          (fst (updateDocumentCategory categories i u c w))).
Proof.
  unfold unique_fingerprints. intros H. split; [|split; [|split]].
  - intros file u. unfold fingerprints. rewrite upload_documents.
    destruct (findOne_by_hash (sha256_hex env (buffer file)) w) eqn:F;
      [exact H|].
    rewrite flat_map_app. cbn [flat_map fileHash app].
    apply NoDup_snoc; [exact H|]. now apply find_hash_none.
  - intros t.
    rewrite (same_registry_fingerprints w _
               (run_task_registry env t w _ _ (surjective_pairing _))).
    exact H.
  - intros i u.
    destruct (deleteDocument env i u w) as [w' [[]|e]] eqn:E; cbn [fst].
    + apply deleteDocument_ok_inv in E as (d & w1 & _ & R & L).
      pose proof (delete_remote_local env i d w w1 _ R) as (A1 & _).
      rewrite delete_local_run in L. injection L as <-.
      unfold fingerprints. cbn [documents]. rewrite A1.
      now apply fingerprints_filter.
    + apply deleteDocument_throw_local in E as (A1 & _).
      unfold fingerprints. now rewrite A1.
  - intros categories i u c.
    assert (R : preserves same_registry
                  (updateDocumentCategory categories i u c)).
    { unfold updateDocumentCategory, getDocument.
      frame same_registry_refl same_registry_trans ltac:(registry_leaf). }
    rewrite (same_registry_fingerprints w _
               (R w _ _ (surjective_pairing _))).
    exact H.
Qed.

Lemma fingerprints_stay_unique_witness :
  unique_fingerprints ready_world
  /\ unique_fingerprints
       (fst (uploadDocument example_env notes_file (str "u1") ready_world)).
Proof.
  assert (H : unique_fingerprints ready_world).
  { unfold unique_fingerprints. vm_compute.
    constructor; [intros []|constructor]. }
  split; [exact H|].
  apply (fingerprints_stay_unique example_env ready_world H).
Defined.

(** X23: an upload of new bytes, the data base giving a new identifier,
    adds one document, in processing, owned by the uploader and with no
    category, writes the bytes to the path of the document, sets off one
    task for it and calls no collaborator; right after, the owner can
    stream the file, and any other user gets [NotFoundException]. *)
Theorem upload_then_download (env : Env) (file : MulterFile)
  (u : jsstring) (w : World) :
  findOne_by_hash (sha256_hex env (buffer file)) w = None ->
  findOne_by_id (uuid env (fresh w)) w = None ->
  exists w1 d,
    uploadDocument env file u w = (w1, Ok (with_uploader d w1))
    /\ documents w1 = documents w ++ [d]
    /\ id d = uuid env (fresh w)
    /\ doc_name d = decodeFilename env (originalname file)
    /\ type d = mimetype file /\ size d = file_size file
    /\ doc_userId d = u /\ status d = processing /\ categoryId d = None
    /\ tasks w1 = tasks w ++ [ProcessTask (id d)]
    /\ In (path d, buffer file) (files w1)
    /\ calls w1 = calls w /\ chunks w1 = chunks w
    /\ (truthy (path d) = true ->
        streamDocumentFile (id d) u w1
        = (w1, Ok (path d, doc_name d, type d)))
    /\ (forall u', u' <> u ->
          streamDocumentFile (id d) u' w1
          = (w1, Throw (NotFoundException (str "Document not found")))).
Proof.
  intros Fh Fi. eexists _, _.
  split; [apply (upload_accepted env file u w Fh Fi)|].
  cbn [documents chunks users dirs files calls tasks fresh id doc_name type
       size doc_userId status categoryId path].
  repeat (split; [reflexivity|]).
  split; [apply in_or_app; right; now left|].
  repeat (split; [reflexivity|]).
  split.
  - intros T. unfold streamDocumentFile.
    unfold bind at 1.
    rewrite (getDocument_found _ _ _
               (mkDocument (uuid env (fresh w))
                  (decodeFilename env (originalname file)) (mimetype file)
                  (file_size file)
                  (path_join env (uploadPath env)
                     (decimal (Date_now env) ++ str "-"
                      ++ decodeFilename env (originalname file)))
                  None None (Some (sha256_hex env (buffer file))) processing
                  None u None)).
    + unfold bind, get_world. cbn [path] in *. rewrite T.
      unfold existsSync. cbn [files]. rewrite existsb_last. reflexivity.
    + unfold findOne_by_id_user. cbn [documents].
      rewrite find_app_none by (apply find_none_and; exact Fi).
      cbn [find id doc_userId]. now rewrite !eqb_refl.
  - intros u' Hu. unfold streamDocumentFile. unfold bind at 1.
    rewrite getDocument_not_found; [reflexivity|].
    unfold findOne_by_id_user. cbn [documents].
    rewrite find_app_none by (apply find_none_and; exact Fi).
    cbn [find id doc_userId]. rewrite eqb_refl. cbn [andb].
    replace (eqb u u') with false; [reflexivity|].
    symmetry. apply eqb_neq. congruence.
Qed.

Lemma upload_then_download_witness :
  findOne_by_hash (sha256_hex example_env (buffer notes_file)) empty_world
  = None
  /\ findOne_by_id (uuid example_env (fresh empty_world)) empty_world = None
  /\ exists w1 d,
       uploadDocument example_env notes_file (str "u1") empty_world
       = (w1, Ok (with_uploader d w1))
       /\ tasks w1 = tasks empty_world ++ [ProcessTask (id d)].
Proof.
  assert (H1 : findOne_by_hash (sha256_hex example_env (buffer notes_file))
                 empty_world = None) by reflexivity.
  assert (H2 : findOne_by_id (uuid example_env (fresh empty_world))
                 empty_world = None) by reflexivity.
  split; [exact H1|]. split; [exact H2|].
  destruct (upload_then_download example_env notes_file (str "u1")
              empty_world H1 H2)
    as (w1 & d & A & _ & _ & _ & _ & _ & _ & _ & _ & B & _).
  exists w1, d. split; [exact A|exact B].
Defined.

(** X21: [updateDocumentCategory] on a document of the user: with a
    category that is not in the table it throws [NotFoundException] and
    changes nothing; with a category of the table, or with none, it returns
    the document with that category and changes nothing else: the other
    columns, the other documents, the chunks, the files and the calls are
    as they were. *)
Theorem updateDocumentCategory_effect (categories : list jsstring)
  (i u : jsstring) (c : option jsstring) (w : World) (d : Document) :
  findOne_by_id_user i u w = Some d ->
  (forall k, c = Some k -> existsb (eqb k) categories = false ->
     updateDocumentCategory categories i u c w
     = (w, Throw (NotFoundException (str "Category not found"))))
  /\ ((c = None \/ exists k, c = Some k /\ existsb (eqb k) categories = true) ->
      exists w',
        updateDocumentCategory categories i u c w
        = (w', Ok (set_category c d))
        /\ findOne_by_id_user i u w' = Some (set_category c d)
        /\ documents w'
           = List.map (fun x => if eqb (id x) i then set_category c x else x)
                      (documents w)
        /\ others_same i w w' /\ same_registry w w' /\ same_chunks w w'
        /\ files w' = files w /\ calls w' = calls w /\ tasks w' = tasks w).
Proof.
  intros F. pose proof (getDocument_found i u w d F) as G. split.
  - intros k -> E. unfold updateDocumentCategory.
    unfold bind at 1. rewrite G. unfold bind at 1. now rewrite E.
  - intros Hc.
    assert (C : (match c with
                 | Some k =>
                     if existsb (eqb k) categories then ret tt
                     else throw (NotFoundException (str "Category not found"))
                 | None => ret tt
                 end) w = (w, Ok tt)).
    { destruct Hc as [->|(k & -> & E)]; [reflexivity|now rewrite E]. }
    assert (F' : findOne_by_id_user i u
                   (set_documents
                      (List.map (fun x => if eqb (id x) i
                                          then set_category c x else x)
                                (documents w)) w)
                 = Some (set_category c d)).
    { unfold findOne_by_id_user. cbn [documents set_documents].
      rewrite find_map_keep.
      - unfold findOne_by_id_user in F. rewrite F. cbn [option_map].
        apply find_some in F as [_ F]. apply andb_prop in F as [F _].
        now rewrite F.
      - intros x. cbv beta.
        destruct (eqb (id x) i) eqn:E;
          [cbn [set_category id doc_userId]|]; now rewrite E. }
    eexists. split.
    + unfold updateDocumentCategory. unfold bind at 1. rewrite G.
      unfold bind at 1. rewrite C.
      unfold bind at 1, update_document, modify.
      now rewrite (getDocument_found _ _ _ _ F').
    + split; [exact F'|]. cbn [documents set_documents].
      split; [reflexivity|].
      split; [apply filter_update; intros []; reflexivity|].
      split; [|repeat split].
      split; [apply identity_update; intros []; reflexivity|].
      split; reflexivity.
Qed.

Lemma updateDocumentCategory_effect_witness :
  findOne_by_id_user (str "d1") (str "u1") ready_world = Some ready_document
  /\ updateDocumentCategory [str "c1"] (str "d1") (str "u1")
       (Some (str "c2")) ready_world
     = (ready_world, Throw (NotFoundException (str "Category not found"))).
Proof.
  assert (H : findOne_by_id_user (str "d1") (str "u1") ready_world
              = Some ready_document) by reflexivity.
  split; [exact H|].
  apply (proj1 (updateDocumentCategory_effect [str "c1"] (str "d1")
                  (str "u1") (Some (str "c2")) ready_world ready_document H)
           (str "c2") eq_refl eq_refl).
Defined.

End ServiceMore.

(** ** The categories: facts *)

Module CategoryFacts.
Import Js JsFacts Json JsonFacts Model PineconeService DocumentsService
  DocumentsServiceMore CategoryService Frames MoreFrames Examples MoreExamples
  FrameFacts PipelineFacts ServiceFacts TextCleaner TextCleanerFacts
  ServiceMoreFacts.
Local Open Scope world_scope.

(** *** The keys of the categories *)

Lemma find_name_none (n : jsstring) (cats : list Category) :
  findOne_by_name n cats = None -> ~ In n (List.map category_name cats).
Proof.
  unfold findOne_by_name. intros F H. apply in_map_iff in H as (c & E & Hc).
  apply (find_none _ _ F) in Hc. cbn in Hc. rewrite E, eqb_refl in Hc.
  discriminate.
Qed.

Lemma find_category_some (i : jsstring) (cats : list Category)
  (c : Category) :
  findOne_category i cats = Some c -> In c cats /\ category_id c = i.
Proof.
  unfold findOne_category. intros F. apply find_some in F as [H E].
  split; [exact H|]. now apply eqb_eq.
Qed.

Lemma save_category_ids (c : Category) (cats : list Category) :
  List.map category_id (save_category c cats) = List.map category_id cats.
Proof.
  unfold save_category. induction cats as [|a l IH]; [reflexivity|].
  cbn [List.map]. rewrite IH.
  destruct (eqb (category_id a) (category_id c)) eqn:E; [|reflexivity].
  apply eqb_eq in E. now rewrite E.
Qed.

Lemma save_category_absent (c : Category) (l : list Category) :
  ~ In (category_id c) (List.map category_id l) -> save_category c l = l.
Proof.
  unfold save_category. induction l as [|a l IH]; intros H; [reflexivity|].
  cbn [List.map] in *.
  destruct (eqb (category_id a) (category_id c)) eqn:E.
  - apply eqb_eq in E. exfalso. apply H. now left.
  - rewrite IH; [reflexivity|]. intros Hin. apply H. now right.
Qed.

Lemma save_category_names (c c2 : Category) (cats : list Category) :
  NoDup (List.map category_id cats) ->
  NoDup (List.map category_name cats) ->
  In c cats -> category_id c2 = category_id c ->
  (category_name c2 = category_name c
   \/ ~ In (category_name c2) (List.map category_name cats)) ->
  NoDup (List.map category_name (save_category c2 cats)).
Proof.
  induction cats as [|a l IH]; intros Hi Hn Hc E Hname; [constructor|].
  cbn [List.map] in Hi, Hn. inversion Hi as [|? ? Hi1 Hi2]; subst.
  inversion Hn as [|? ? Hn1 Hn2]; subst.
  unfold save_category. cbn [List.map]. fold (save_category c2 l).
  destruct (eqb (category_id a) (category_id c2)) eqn:Ea.
  - apply eqb_eq in Ea.
    assert (a = c).
    { destruct Hc as [Hc|Hc]; [exact Hc|]. exfalso. apply Hi1.
      rewrite Ea, E. now apply in_map. }
    subst a. rewrite save_category_absent by now rewrite E.
    constructor; [|exact Hn2].
    destruct Hname as [->|Hname]; [exact Hn1|].
    intros H. apply Hname. now right.
  - apply eqb_neq in Ea.
    assert (Hc' : In c l).
    { destruct Hc as [->|Hc]; [congruence|exact Hc]. }
    constructor.
    + intros H. apply in_map_iff in H as (x & Ex & Hx).
      unfold save_category in Hx. apply in_map_iff in Hx as (y & Ey & Hy).
      destruct (eqb (category_id y) (category_id c2)).
      * subst x. destruct Hname as [Hname|Hname].
        -- apply Hn1. rewrite <- Ex, Hname. now apply in_map.
        -- apply Hname. left. now rewrite Ex.
      * subst x. apply Hn1. rewrite <- Ex. now apply in_map.
    + apply IH; auto. destruct Hname as [H|H]; [now left|right].
      intros Hin. apply H. now right.
Qed.

Lemma NoDup_map_filter {A B : Type} (f : A -> B) (p : A -> bool)
  (l : list A) : NoDup (List.map f l) -> NoDup (List.map f (filter p l)).
Proof.
  induction l as [|a l IH]; intros H; [constructor|].
  cbn [List.map filter] in *. inversion H as [|? ? H1 H2]; subst.
  destruct (p a); [|now apply IH]. cbn [List.map].
  constructor; [|now apply IH].
  intros Hin. apply H1. apply in_map_iff in Hin as (x & E & Hx).
  apply filter_In in Hx as [Hx _]. rewrite <- E. now apply in_map.
Qed.


(** *** The categories that the documents name *)

Lemma categories_kept_refl (w : World) : categories_kept w w.
Proof. apply incl_refl. Qed.

Lemma categories_kept_trans (a b c : World) :
  categories_kept a b -> categories_kept b c -> categories_kept a c.
Proof. unfold categories_kept. intros H1 H2. eapply incl_tran; eauto. Qed.

Lemma used_update (i : jsstring) (f : Document -> Document)
  (ds : list Document) :
  (forall x, categoryId (f x) = categoryId x) ->
  used_categories (List.map (fun d => if eqb (id d) i then f d else d) ds)
  = used_categories ds.
Proof.
  intros Hf. unfold used_categories.
  induction ds as [|d ds IH]; [reflexivity|]. cbn [List.map flat_map].
  rewrite IH. destruct (eqb (id d) i); [now rewrite Hf|reflexivity].
Qed.

Lemma used_filter (p : Document -> bool) (ds : list Document) :
  incl (used_categories (filter p ds)) (used_categories ds).
Proof.
  unfold used_categories. intros c H. apply in_flat_map in H as (d & Hd & Hc).
  apply filter_In in Hd as [Hd _]. apply in_flat_map. now exists d.
Qed.

Lemma used_snoc (ds : list Document) (d : Document) :
  categoryId d = None -> used_categories (ds ++ [d]) = used_categories ds.
Proof.
  intros H. unfold used_categories. rewrite flat_map_app. cbn [flat_map].
  rewrite H. now rewrite !app_nil_r.
Qed.

Ltac kept_leaf :=
  first [ apply preserves_modify; intros ?; apply incl_refl
        | apply preserves_fresh_id; intros ?; apply incl_refl
        | apply preserves_modify; intros ?; unfold categories_kept;
          cbn [documents set_documents set_chunks];
          first [ rewrite used_update by (intros []; reflexivity);
                  apply incl_refl
                | rewrite used_snoc by reflexivity; apply incl_refl
                | apply used_filter ] ].

Lemma upsertVector_kept (env : Env) (v : list VectorRecord) :
  preserves categories_kept (upsertVector env v).
Proof.
  apply (upsertVector_preserves categories_kept_refl categories_kept_trans).
  intros. apply incl_refl.
Qed.

Lemma save_chunks_kept (env : Env) (d : Document) (i : jsstring)
  (ids : list jsstring) (cs : list jsstring) :
  forall n, preserves categories_kept (save_chunks env d i ids n cs).
Proof.
  induction cs as [|c cs IH]; intros n; cbn [save_chunks].
  - apply (preserves_ret categories_kept_refl).
  - frame categories_kept_refl categories_kept_trans
      ltac:(first [kept_leaf | apply IH]).
Qed.

Lemma run_task_kept (env : Env) (t : Task) :
  preserves categories_kept (run_task env t).
Proof.
  destruct t as [i].
  unfold run_task, processDocument, extract_and_upsert, splitIntoChunks.
  frame categories_kept_refl categories_kept_trans
    ltac:(first [ kept_leaf | apply upsertVector_kept
                | apply save_chunks_kept ]).
Qed.

Lemma uploadDocument_kept (env : Env) (file : MulterFile) (u : jsstring) :
  preserves categories_kept (uploadDocument env file u).
Proof.
  unfold uploadDocument.
  frame categories_kept_refl categories_kept_trans ltac:(kept_leaf).
Qed.

Lemma deleteDocument_kept (env : Env) (i u : jsstring) :
  preserves categories_kept (deleteDocument env i u).
Proof.
  intros w w' r H. unfold categories_kept.
  destruct r as [[]|e].
  - apply deleteDocument_ok_inv in H as (d & w1 & _ & R & L).
    pose proof (delete_remote_local env i d w w1 _ R) as (A1 & _).
    rewrite delete_local_run in L. injection L as <-.
    cbn [documents]. rewrite A1. apply used_filter.
  - apply deleteDocument_throw_local in H as (A1 & _). rewrite A1.
    apply incl_refl.
Qed.

Lemma reprocessDocument_kept (env : Env) (i u : jsstring) :
  preserves categories_kept (reprocessDocument env i u).
Proof.
  intros w w' r H. unfold categories_kept, reprocessDocument in *.
  unfold bind at 1 in H.
  destruct (getDocument i u w) as [w0 [d|e]] eqn:G.
  - apply getDocument_inv in G as [-> F].
    unfold findOne_by_id_user in F. apply find_some in F as [Hd _].
    unfold bind, get_world, save_document, update_document, modify, set_off,
      ret in H.
    injection H as <- _. cbn [documents set_documents].
    intros c Hc. unfold used_categories in *.
    apply in_flat_map in Hc as (x & Hx & Hc).
    apply in_map_iff in Hx as (y & Ey & Hy). apply in_flat_map.
    destruct (eqb (id y) _).
    + exists d. split; [exact Hd|]. now subst x.
    + exists y. split; [exact Hy|]. now subst x.
  - injection H as <- _.
    apply getDocument_throw_inv in G. subst w0. apply incl_refl.
Qed.

Lemma documents_of_nil (i : jsstring) (docs : list Document) :
  documents_of i docs = [] -> ~ In i (used_categories docs).
Proof.
  unfold documents_of, used_categories. intros H Hin.
  apply in_flat_map in Hin as (d & Hd & Hc).
  assert (Hf : In d (filter (fun d => opt_eqb (categoryId d) i) docs)).
  { apply filter_In. split; [exact Hd|].
    destruct (categoryId d) as [c|]; [|contradiction].
    destruct Hc as [->|[]]. cbn. apply eqb_refl. }
  rewrite H in Hf. contradiction.
Qed.

Lemma getDocument_world (i u : jsstring) (w : World) :
  fst (getDocument i u w) = w.
Proof.
  unfold getDocument, bind, get_world.
  now destruct (findOne_by_id_user i u w).
Qed.

(** [updateDocumentCategory], case by case. *)
Lemma updateDocumentCategory_run (categories : list jsstring)
  (i u : jsstring) (c : option jsstring) (w : World) :
  updateDocumentCategory categories i u c w
  = match findOne_by_id_user i u w with
    | None => (w, Throw (NotFoundException (str "Document not found")))
    | Some _ =>
        if match c with
           | Some k => existsb (eqb k) categories
           | None => true
           end
        then
          getDocument i u
            (set_documents
               (List.map (fun d => if eqb (id d) i then set_category c d
                                   else d) (documents w)) w)
        else (w, Throw (NotFoundException (str "Category not found")))
    end.
Proof.
  unfold updateDocumentCategory. unfold bind at 1.
  destruct (findOne_by_id_user i u w) as [d|] eqn:F.
  - rewrite (getDocument_found i u w d F). unfold bind at 1.
    destruct c as [k|]; [destruct (existsb (eqb k) categories)|];
      reflexivity.
  - now rewrite (getDocument_not_found i u w F).
Qed.

(** The documents after [updateDocumentCategory]. *)
Lemma updateDocumentCategory_documents (categories : list jsstring)
  (i u : jsstring) (c : option jsstring) (w : World) :
  documents (fst (updateDocumentCategory categories i u c w)) = documents w
  \/ (documents (fst (updateDocumentCategory categories i u c w))
      = List.map (fun d => if eqb (id d) i then set_category c d else d)
                 (documents w)
      /\ match c with
         | Some k => In k categories
         | None => True
         end).
Proof.
  rewrite updateDocumentCategory_run.
  destruct (findOne_by_id_user i u w) as [d|]; [|now left].
  destruct c as [k|].
  - destruct (existsb (eqb k) categories) eqn:E; [right|now left].
    rewrite getDocument_world. split; [reflexivity|].
    apply existsb_exists in E as (k' & Hk & Ek). apply eqb_eq in Ek.
    now subst k'.
  - right. rewrite getDocument_world. now split.
Qed.

End CategoryFacts.

(** ** The categories: properties *)

Module CategoryMore.
Import Js JsFacts Json JsonFacts Model PineconeService DocumentsService
  DocumentsServiceMore CategoryService Frames MoreFrames Examples MoreExamples
  FrameFacts PipelineFacts ServiceFacts TextCleaner TextCleanerFacts
  ServiceMoreFacts CategoryFacts.
Local Open Scope world_scope.

(** X24: the identifiers and the names of the categories stay two by two
    distinct: when they are, they still are after [createCategory] (the
    data base giving an identifier that is new), after [updateCategory]
    and after [deleteCategory], whether these return or throw. *)
Theorem category_keys_stay_unique (cats : list Category) :
  well_keyed cats ->
  (forall newId name description,
     ~ In newId (List.map category_id cats) ->
     well_keyed (fst (createCategory newId name description cats)))
  /\ (forall i name description,
        well_keyed (fst (updateCategory i name description cats)))
  /\ (forall i docs, well_keyed (fst (deleteCategory i cats docs))).
Proof.
  intros [Hi Hn]. split; [|split].
  - intros newId name description Hnew. unfold createCategory.
    destruct (findOne_by_name name cats) eqn:F; [now split|].
    cbn [fst]. split; rewrite List.map_app; cbn [List.map];
      apply NoDup_snoc; auto.
    now apply find_name_none.
  - intros i name description. unfold updateCategory, getCategoryById.
    destruct (findOne_category i cats) as [c|] eqn:F; [|now split].
    apply find_category_some in F as [Hc Ec].
    assert (S : forall c2,
               category_id c2 = category_id c ->
               (category_name c2 = category_name c
                \/ ~ In (category_name c2) (List.map category_name cats)) ->
               well_keyed (save_category c2 cats)).
    { intros c2 E H. split; [now rewrite save_category_ids|].
      now apply (save_category_names c). }
    destruct name as [n|].
    + destruct (truthy n && negb (eqb n (category_name c))).
      * destruct (findOne_by_name n cats) eqn:Fn; [now split|].
        apply find_name_none in Fn.
        destruct description; cbn [fst]; apply S; auto.
      * destruct description; cbn [fst]; apply S; auto.
    + destruct description; cbn [fst]; apply S; auto.
  - intros i docs. unfold deleteCategory, getCategoryById.
    destruct (findOne_category i cats) as [c|]; [|now split].
    destruct (0 <? _)%N; [now split|]. cbn [fst].
    split; now apply NoDup_map_filter.
Qed.

Lemma category_keys_stay_unique_witness :
  well_keyed two_categories
  /\ well_keyed
       (fst (updateCategory (str "c1") (Some (str "Agreements")) None
               two_categories)).
Proof.
  assert (H : well_keyed two_categories).
  { split; vm_compute; repeat constructor; cbn; intuition discriminate. }
  split; [exact H|].
  apply (category_keys_stay_unique two_categories H).
Defined.

(** X25: every category that a document names is in the table of
    categories: when that holds, it still holds after
    [updateDocumentCategory], which looks the category up, after
    [deleteCategory], which refuses a category that documents name, after
    [createCategory] and [updateCategory], and after an upload, a task, a
    deletion and a reprocessing of a document. *)
Theorem category_references_kept (cats : list Category) (w : World) :
  references_ok cats (documents w) ->
  (forall i u c,
     references_ok cats
       (documents (fst (updateDocumentCategory (List.map category_id cats)
                          i u c w))))
  /\ (forall i,
        references_ok (fst (deleteCategory i cats (documents w)))
                      (documents w))
  /\ (forall newId name description,
        references_ok (fst (createCategory newId name description cats))
                      (documents w))
  /\ (forall i name description,
        references_ok (fst (updateCategory i name description cats))
                      (documents w))
  /\ (forall env file u,
        references_ok cats (documents (fst (uploadDocument env file u w))))
  /\ (forall env t,
        references_ok cats (documents (fst (run_task env t w))))
  /\ (forall env i u,
        references_ok cats (documents (fst (deleteDocument env i u w))))
  /\ (forall env i u,
        references_ok cats (documents (fst (reprocessDocument env i u w)))).
Proof.
  unfold references_ok. intros H.
  assert (K : forall (A : Type) (m : M A),
             preserves categories_kept m ->
             incl (used_categories (documents (fst (m w))))
                  (List.map category_id cats)).
  { intros A m P. eapply incl_tran; [|exact H].
    apply (P w _ _ (surjective_pairing _)). }
  split; [|split; [|split; [|split; [|split; [|split; [|split]]]]]].
  - intros i u c.
    destruct (updateDocumentCategory_documents (List.map category_id cats)
                i u c w) as [->|[-> Hc]]; [exact H|].
    intros x Hx. unfold used_categories in Hx.
    apply in_flat_map in Hx as (y & Hy & Hx).
    apply in_map_iff in Hy as (z & Ez & Hz).
    destruct (eqb (id z) i).
    + subst y. cbn [set_category categoryId] in Hx.
      destruct c as [k|]; [|contradiction]. destruct Hx as [<-|[]]. exact Hc.
    + subst y. apply H. apply in_flat_map. now exists z.
  - intros i. unfold deleteCategory, getCategoryById.
    destruct (findOne_category i cats) as [c|] eqn:F; [|exact H].
    apply find_category_some in F as [_ Ec].
    destruct (0 <? _)%N eqn:E; [exact H|]. cbn [fst].
    apply N.ltb_ge in E.
    assert (E0 : documents_of i (documents w) = []).
    { destruct (documents_of i (documents w)); [reflexivity|].
      cbn [List.length] in E. lia. }
    apply documents_of_nil in E0.
    intros x Hx. pose proof (H x Hx) as Hin.
    apply in_map_iff in Hin as (k & Ek & Hk). apply in_map_iff.
    exists k. split; [exact Ek|]. apply filter_In. split; [exact Hk|].
    apply negb_true_iff, eqb_neq. congruence.
  - intros newId name description. unfold createCategory.
    destruct (findOne_by_name name cats); [exact H|]. cbn [fst].
    rewrite List.map_app. intros x Hx. apply in_or_app. left. now apply H.
  - intros i name description.
    assert (S : forall c2 r,
               incl (used_categories (documents w))
                    (List.map category_id
                       (fst (save_category c2 cats, r : outcome Category)))).
    { intros c2 r. cbn [fst]. now rewrite save_category_ids. }
    unfold updateCategory, getCategoryById.
    destruct (findOne_category i cats) as [c|]; [|exact H].
    destruct name as [n|].
    + destruct (truthy n && negb (eqb n (category_name c))).
      * destruct (findOne_by_name n cats); [exact H|]. apply S.
      * apply S.
    + apply S.
  - intros env file u. apply K. apply uploadDocument_kept.
  - intros env t. apply K. apply run_task_kept.
  - intros env i u. apply K. apply deleteDocument_kept.
  - intros env i u. apply K. apply reprocessDocument_kept.
Qed.

Lemma category_references_kept_witness :
  references_ok two_categories (documents manual_world)
  /\ references_ok
       (fst (deleteCategory (str "c1") two_categories
               (documents manual_world)))
       (documents manual_world).
Proof.
  assert (H : references_ok two_categories (documents manual_world)).
  { intros c [<-|[]]. vm_compute. auto. }
  split; [exact H|].
  apply (category_references_kept two_categories manual_world H).
Defined.

(** X26: [deleteCategory] throws [NotFoundException] for an identifier
    that is not in the table, and [BadRequestException], with the number of
    documents in its message, for a category that documents name; in both
    cases the table is as it was. Otherwise it takes the category away.
    [getCategoryWithDeletableInfo] counts the same documents and says
    [deletable] exactly when [deleteCategory] returns. *)
Theorem deleteCategory_guard (i : jsstring) (cats : list Category)
  (docs : list Document) :
  (findOne_category i cats = None ->
   deleteCategory i cats docs
   = (cats, Fails (NotFound (str "Category not found"))))
  /\ (forall c, findOne_category i cats = Some c ->
        let n := N.of_nat (List.length (documents_of i docs)) in
        getCategoryWithDeletableInfo i cats docs
        = Done (mkInfo c n (N.eqb n 0))
        /\ (documents_of i docs <> [] ->
            deleteCategory i cats docs
            = (cats,
               Fails (BadRequest
                        (str "Cannot delete category. It is used by "
                         ++ decimal n ++ str " document(s)."))))
        /\ (documents_of i docs = [] ->
            deleteCategory i cats docs
            = (filter (fun x => negb (eqb (category_id x) i)) cats, Done tt)
            /\ findOne_category i
                 (filter (fun x => negb (eqb (category_id x) i)) cats)
               = None))
  /\ (forall info,
        getCategoryWithDeletableInfo i cats docs = Done info ->
        (deletable info = true
         <-> snd (deleteCategory i cats docs) = Done tt)).
Proof.
  unfold deleteCategory, getCategoryWithDeletableInfo, getCategoryById.
  split; [|split].
  - now intros ->.
  - intros c F. cbv zeta. rewrite F.
    apply find_category_some in F as [_ E]. rewrite E.
    split; [reflexivity|]. split.
    + intros Hne. destruct (documents_of i docs); [congruence|reflexivity].
    + intros ->. cbn [List.length N.of_nat N.ltb N.compare].
      split; [reflexivity|].
      unfold findOne_category. apply find_filter_none. auto.
  - intros info. destruct (findOne_category i cats) as [c|]; [|discriminate].
    intros H. injection H as <-. cbn [deletable].
    destruct (documents_of i docs); cbn; split; intros H;
      try reflexivity; discriminate.
Qed.

End CategoryMore.

(** ** The hashes of the embedding service: facts *)

Module EmbeddingFacts.
Import Js JsFacts Json JsonFacts EmbeddingService.

Lemma toInt32_range (z : Z) :
  (- 2147483648 <= toInt32 z < 2147483648)%Z.
Proof.
  unfold toInt32. cbv zeta.
  pose proof (Z.mod_pos_bound z 4294967296 ltac:(lia)) as B.
  destruct (Z.ltb_spec (z mod 4294967296) 2147483648); lia.
Qed.

Lemma toInt32_mod (z : Z) :
  (toInt32 z mod 4294967296 = z mod 4294967296)%Z.
Proof.
  unfold toInt32. cbv zeta.
  destruct (Z.ltb_spec (z mod 4294967296) 2147483648).
  - apply Z.mod_mod. lia.
  - rewrite <- (Z.mod_add _ 1) by lia.
    replace (z mod 4294967296 - 4294967296 + 1 * 4294967296)%Z
      with (z mod 4294967296)%Z by lia.
    apply Z.mod_mod. lia.
Qed.

Lemma toInt32_congr (a b : Z) :
  (a mod 4294967296 = b mod 4294967296)%Z -> toInt32 a = toInt32 b.
Proof. intros H. unfold toInt32. now rewrite H. Qed.

Lemma toInt32_id (z : Z) :
  (- 2147483648 <= z < 2147483648)%Z -> toInt32 z = z.
Proof.
  intros H. unfold toInt32. cbv zeta.
  destruct (Z.le_gt_cases 0 z) as [Hz|Hz].
  - rewrite Z.mod_small by lia.
    destruct (Z.ltb_spec z 2147483648); lia.
  - replace (z mod 4294967296)%Z with (z + 4294967296)%Z.
    + destruct (Z.ltb_spec (z + 4294967296) 2147483648); lia.
    + rewrite <- (Z.mod_add z 1) by lia. rewrite Z.mod_small; lia.
Qed.

(** One turn of the loop multiplies by 31 and adds the code unit, modulo
    [2^32]. *)
Lemma hash_step_poly (h : Z) (c : N) :
  hash_step (toInt32 h) c = toInt32 (31 * h + Z.of_N c).
Proof.
  unfold hash_step. cbv zeta. rewrite Z.land_diag.
  rewrite (toInt32_id (toInt32 h)) by apply toInt32_range.
  rewrite Z.shiftl_mul_pow2 by lia. change (2 ^ 5)%Z with 32%Z.
  apply toInt32_congr.
  rewrite Zplus_mod, Zminus_mod, !toInt32_mod.
  rewrite <- Zminus_mod.
  rewrite (Zminus_mod (toInt32 h * 32)), (Zmult_mod (toInt32 h)), toInt32_mod.
  rewrite <- Zmult_mod, <- Zminus_mod, <- Zplus_mod.
  f_equal. lia.
Qed.

Lemma hash_loop_from (s : jsstring) :
  forall h, fold_left hash_step s (toInt32 h)
            = toInt32 (fold_left (fun h c => (31 * h + Z.of_N c)%Z) s h).
Proof.
  induction s as [|c s IH]; intros h; [reflexivity|].
  cbn [fold_left]. rewrite hash_step_poly. apply IH.
Qed.

Lemma hash_loop_poly (s : jsstring) : hash_loop s = toInt32 (poly31 s).
Proof.
  unfold hash_loop, poly31. change 0%Z with (toInt32 0) at 1.
  apply hash_loop_from.
Qed.

(** *** The length of a decimal numeral *)

Lemma digits_value_from (D : jsstring) :
  forall a, forallb is_digit D = true ->
    (a * 10 ^ N.of_nat (List.length D)
     <= fold_left (fun a c => (10 * a + (c - 48))%N) D a)%N.
Proof.
  induction D as [|c D IH]; intros a H.
  - cbn. lia.
  - cbn [forallb] in H. apply andb_prop in H as [_ H].
    cbn [fold_left List.length]. rewrite Nat2N.inj_succ, N.pow_succ_r'.
    etransitivity; [|apply (IH _ H)].
    remember (10 ^ N.of_nat (List.length D))%N as X.
    replace (a * (10 * X))%N with ((10 * a) * X)%N by lia.
    apply N.mul_le_mono_r. lia.
Qed.

Lemma decimal_length (n : N) (k : nat) :
  (n < 10 ^ N.of_nat k)%N -> 1 <= k -> List.length (decimal n) <= k.
Proof.
  intros Hn Hk. destruct (decimal_spec n) as (V & A & Ne & Z).
  destruct (decimal n) as [|c D] eqn:E; [congruence|].
  destruct (N.eq_dec c 48) as [->|Hc].
  - rewrite (Z eq_refl). cbn. lia.
  - cbn [forallb] in A. apply andb_prop in A as [Ac A].
    unfold is_digit in Ac. apply andb_prop in Ac as [A1 A2].
    apply N.leb_le in A1, A2.
    unfold digits_value in V. cbn [fold_left] in V.
    pose proof (digits_value_from D (10 * 0 + (c - 48))%N A) as L.
    rewrite V in L. cbn [List.length].
    destruct (Nat.le_gt_cases (S (List.length D)) k) as [|G]; [assumption|].
    exfalso.
    assert (P : (10 ^ N.of_nat k <= 10 ^ N.of_nat (List.length D))%N)
      by (apply N.pow_le_mono_r; lia).
    assert (Q1 : (1 * 10 ^ N.of_nat (List.length D)
                  <= (10 * 0 + (c - 48)) * 10 ^ N.of_nat (List.length D))%N)
      by (apply N.mul_le_mono_r; lia).
    lia.
Qed.


(** *** The array of [createSimpleEmbedding] *)

Lemma assign_length (i : nat) (v : Q) (l : list Q) :
  List.length (assign i v l) = List.length l.
Proof.
  revert i. induction l as [|x l IH]; intros [|i]; cbn; auto.
Qed.

Lemma assign_nth (i j : nat) (v d : Q) (l : list Q) :
  j < List.length l ->
  nth i (assign j v l) d = if i =? j then v else nth i l d.
Proof.
  revert i j. induction l as [|x l IH]; intros i j H; [cbn in H; lia|].
  destruct j as [|j]; destruct i as [|i]; cbn [assign nth Nat.eqb];
    try reflexivity.
  apply IH. cbn in H. lia.
Qed.

Lemma assign_loop (f : nat -> Q) (d : Q) (n : nat) :
  forall init, n <= List.length init ->
    List.length (fold_left (fun e j => assign j (f j) e) (seq 0 n) init)
    = List.length init
    /\ forall i,
         nth i (fold_left (fun e j => assign j (f j) e) (seq 0 n) init) d
         = if i <? n then f i else nth i init d.
Proof.
  induction n as [|n IH]; intros init H.
  - split; [reflexivity|]. intros i. reflexivity.
  - rewrite seq_S, fold_left_app. cbn [fold_left Nat.add].
    destruct (IH init ltac:(lia)) as [L N]. split.
    + now rewrite assign_length.
    + intros i. rewrite assign_nth by (rewrite L; lia). rewrite N.
      destruct (Nat.eqb_spec i n) as [->|Hne].
      * now rewrite (proj2 (Nat.ltb_lt n (S n))) by lia.
      * destruct (Nat.ltb_spec i n), (Nat.ltb_spec i (S n)); try lia;
          reflexivity.
Qed.

(** The hash is an integer of 32 bits, and its numeral has at most ten
    digits. *)
Lemma simpleHash_digits (s : jsstring) :
  (0 <= advancedHash s <= 2147483648)%Z
  /\ digits_value (simpleHash s) = Z.to_N (advancedHash s)
  /\ forallb is_digit (simpleHash s) = true
  /\ 1 <= List.length (simpleHash s) <= 10.
Proof.
  pose proof (hash_loop_poly s) as P.
  pose proof (toInt32_range (poly31 s)) as R.
  unfold advancedHash, simpleHash. rewrite P.
  destruct (decimal_spec (Z.to_N (Z.abs (toInt32 (poly31 s)))))
    as (V & A & Ne & _).
  split; [lia|]. split; [exact V|]. split; [exact A|]. split.
  - destruct (decimal _); [congruence|cbn; lia].
  - apply decimal_length; [|lia].
    change (10 ^ N.of_nat 10)%N with 10000000000%N. lia.
Qed.

End EmbeddingFacts.

(** ** The hashes of the embedding service: properties *)

Module EmbeddingMore.
Import Js JsFacts Json JsonFacts EmbeddingService EmbeddingFacts.

(** X27: [advancedHash] and [simpleHash] compute the polynomial hash of
    base 31 of the code units of the string, reduced to a signed integer of
    32 bits, and take its absolute value: the result lies between 0 and
    [2^31], and [simpleHash] returns its decimal numeral, of one to ten
    digits. *)
Theorem hash_is_polynomial (s : jsstring) :
  hash_loop s = toInt32 (poly31 s)
  /\ advancedHash s = Z.abs (toInt32 (poly31 s))
  /\ (0 <= advancedHash s <= 2147483648)%Z
  /\ simpleHash s = decimal (Z.to_N (advancedHash s))
  /\ digits_value (simpleHash s) = Z.to_N (advancedHash s)
  /\ forallb is_digit (simpleHash s) = true
  /\ 1 <= List.length (simpleHash s) <= 10.
Proof.
  destruct (simpleHash_digits s) as (R & V & A & L).
  split; [apply hash_loop_poly|].
  split; [unfold advancedHash; now rewrite hash_loop_poly|].
  split; [exact R|]. split; [reflexivity|]. auto.
Qed.

(** X28: the array of [createSimpleEmbedding] has 1536 components, of
    which only the first ones, as many as the numeral of the hash has
    digits (ten at most), are not zero: the component [i] of these is
    [(d - 128) / 128] for the code [d] of the digit [i], a number between
    [-80/128] and [-71/128]. *)
Theorem embedding_shape (text : jsstring) :
  List.length (createSimpleEmbedding text) = 1536
  /\ List.length (simpleHash text) <= 10
  /\ (forall i, i < List.length (simpleHash text) ->
        nth i (createSimpleEmbedding text) (0 # 1)
        = (charCodeAt (simpleHash text) i - 128) # 128
        /\ (- 80 # 128 <= nth i (createSimpleEmbedding text) (0 # 1))%Q
        /\ (nth i (createSimpleEmbedding text) (0 # 1) <= - 71 # 128)%Q)
  /\ (forall i, List.length (simpleHash text) <= i ->
        nth i (createSimpleEmbedding text) (0 # 1) = 0 # 1).
Proof.
  destruct (simpleHash_digits text) as (_ & _ & A & L1 & L2).
  unfold createSimpleEmbedding. cbv zeta.
  set (hash := simpleHash text) in *.
  assert (M : Nat.min (List.length hash) 1536 = List.length hash) by lia.
  rewrite M.
  destruct (assign_loop
              (fun i => (charCodeAt hash (i mod List.length hash) - 128)
                        # 128)
              (0 # 1) (List.length hash) (repeat (0 # 1) 1536)) as [L N].
  { rewrite repeat_length. lia. }
  split; [now rewrite L, repeat_length|]. split; [exact L2|]. split.
  - intros i Hi. rewrite N. rewrite (proj2 (Nat.ltb_lt _ _) Hi).
    rewrite Nat.mod_small by exact Hi. split; [reflexivity|].
    assert (D : is_digit (nth i hash 0%N) = true).
    { rewrite forallb_forall in A. apply A. now apply nth_In. }
    unfold is_digit in D. apply andb_prop in D as [D1 D2].
    apply N.leb_le in D1, D2. unfold charCodeAt, Qle. cbn [Qnum Qden].
    lia.
  - intros i Hi. rewrite N.
    destruct (Nat.ltb_spec i (List.length hash)); [lia|].
    destruct (Nat.lt_ge_cases i 1536) as [Hlt|Hge].
    + apply nth_repeat_lt. exact Hlt.
    + apply nth_overflow. rewrite repeat_length. exact Hge.
Qed.

End EmbeddingMore.

(** ** The decoding of file names *)

Module FilenameFacts.
Import Js Json FrameFacts FilenameDecoder.
Local Open Scope N_scope.

Ltac div_lia := zify; Z.to_euclidean_division_equations; lia.

Ltac tests :=
  repeat match goal with
    | |- context [N.leb ?a ?b] => destruct (N.leb_spec a b)
    | |- context [N.ltb ?a ?b] => destruct (N.ltb_spec a b)
    | |- context [N.eqb ?a ?b] => destruct (N.eqb_spec a b)
    end; cbn [andb orb negb fst snd].

Lemma lead_byte_ascii (b : byte) : b <= 127 -> lead_byte b = ([b], Start).
Proof. intros H. unfold lead_byte. tests; try reflexivity; lia. Qed.

Lemma lead_byte_2 (b : byte) :
  194 <= b <= 223 -> lead_byte b = ([], Continue (b mod 32) 1 128 191).
Proof. intros H. unfold lead_byte. tests; try reflexivity; lia. Qed.

Lemma lead_byte_3 (b : byte) :
  224 <= b <= 239 ->
  lead_byte b = ([], Continue (b mod 16) 2
                       (if b =? 224 then 160 else 128)
                       (if b =? 237 then 159 else 191)).
Proof. intros H. unfold lead_byte. tests; try reflexivity; lia. Qed.

Lemma lead_byte_4 (b : byte) :
  240 <= b <= 244 ->
  lead_byte b = ([], Continue (b mod 8) 3
                       (if b =? 240 then 144 else 128)
                       (if b =? 244 then 143 else 191)).
Proof. intros H. unfold lead_byte. tests; try reflexivity; lia. Qed.

Lemma lead_byte_bad (b : byte) :
  (128 <= b <= 193 \/ 245 <= b) -> lead_byte b = ([REPLACEMENT], Start).
Proof. intros H. unfold lead_byte. tests; try reflexivity; lia. Qed.

Lemma continue_more (cp : N) (n : nat) (lower upper b : byte)
  (rest : list byte) :
  lower <= b <= upper ->
  utf8_decode (Continue cp (S (S n)) lower upper) (b :: rest)
  = utf8_decode (Continue (cp * 64 + b mod 64) (S n) 128 191) rest.
Proof.
  intros [H1 H2]. cbn [utf8_decode].
  now rewrite (proj2 (N.leb_le _ _) H1), (proj2 (N.leb_le _ _) H2).
Qed.

Lemma continue_last (cp : N) (lower upper b : byte) (rest : list byte) :
  lower <= b <= upper ->
  utf8_decode (Continue cp 1 lower upper) (b :: rest)
  = (cp * 64 + b mod 64) :: utf8_decode Start rest.
Proof.
  intros [H1 H2]. cbn [utf8_decode].
  now rewrite (proj2 (N.leb_le _ _) H1), (proj2 (N.leb_le _ _) H2).
Qed.

Lemma decode_start (b : byte) (rest : list byte) :
  utf8_decode Start (b :: rest)
  = fst (lead_byte b) ++ utf8_decode (snd (lead_byte b)) rest.
Proof. reflexivity. Qed.

(** The decoder reads the bytes of a scalar value back. *)
Lemma decode_encode (cp : N) (rest : list byte) :
  scalar cp ->
  utf8_decode Start (encode_code_point cp ++ rest)
  = cp :: utf8_decode Start rest.
Proof.
  intros [H1 H2]. unfold encode_code_point.
  destruct (N.ltb_spec cp 128) as [A|A].
  { cbn [app]. rewrite decode_start, lead_byte_ascii by lia. reflexivity. }
  destruct (N.ltb_spec cp 2048) as [B|B].
  { cbn [app]. rewrite decode_start, lead_byte_2 by div_lia.
    cbn [fst snd app]. rewrite continue_last by div_lia.
    f_equal. div_lia. }
  destruct (N.ltb_spec cp 65536) as [C|C].
  { cbn [app]. rewrite decode_start, lead_byte_3 by div_lia.
    cbn [fst snd app].
    rewrite continue_more by (tests; div_lia).
    rewrite continue_last by div_lia. f_equal. div_lia. }
  cbn [app]. rewrite decode_start, lead_byte_4 by div_lia.
  cbn [fst snd app].
  rewrite continue_more by (tests; div_lia).
  rewrite continue_more by div_lia.
  rewrite continue_last by div_lia. f_equal. div_lia.
Qed.


Lemma scalar_replacement : scalar REPLACEMENT.
Proof. unfold scalar, REPLACEMENT. lia. Qed.

Lemma lead_byte_good (b : byte) :
  Forall scalar (fst (lead_byte b)) /\ good_state (snd (lead_byte b)).
Proof.
  destruct (N.le_gt_cases b 127) as [A|A].
  { rewrite lead_byte_ascii by exact A. split; [|exact I].
    repeat constructor; unfold scalar; lia. }
  destruct (N.le_gt_cases b 193) as [B|B].
  { rewrite lead_byte_bad by lia. split; [|exact I].
    repeat constructor; apply scalar_replacement. }
  destruct (N.le_gt_cases b 223) as [C|C].
  { rewrite lead_byte_2 by lia. split; [constructor|].
    cbn [snd good_state good]. intros b2 H2. unfold scalar. div_lia. }
  destruct (N.le_gt_cases b 239) as [D|D].
  { rewrite lead_byte_3 by lia. split; [constructor|].
    cbn [snd good_state good]. intros b2 H2 b3 H3. unfold scalar.
    revert H2. tests; intros H2; div_lia. }
  destruct (N.le_gt_cases b 244) as [E|E].
  { rewrite lead_byte_4 by lia. split; [constructor|].
    cbn [snd good_state good]. intros b2 H2 b3 H3 b4 H4. unfold scalar.
    revert H2. tests; intros H2; div_lia. }
  rewrite lead_byte_bad by lia. split; [|exact I].
  repeat constructor; apply scalar_replacement.
Qed.

(** What the decoder writes are scalar values. *)
Lemma decode_scalar (bytes : list byte) :
  forall st, good_state st -> Forall scalar (utf8_decode st bytes).
Proof.
  induction bytes as [|b rest IH]; intros st G.
  - destruct st; [constructor|].
    repeat constructor; apply scalar_replacement.
  - destruct (lead_byte_good b) as [L1 L2].
    destruct st as [|cp n lower upper].
    + rewrite decode_start. apply Forall_app. split; [exact L1|].
      now apply IH.
    + cbn [utf8_decode].
      destruct ((lower <=? b) && (b <=? upper)) eqn:T.
      * apply andb_prop in T as [T1 T2]. apply N.leb_le in T1, T2.
        cbn [good_state] in G.
        destruct n as [|[|n]]; [destruct G| |].
        -- constructor; [exact (G b (conj T1 T2))|]. now apply IH.
        -- apply IH. exact (G b (conj T1 T2)).
      * constructor; [apply scalar_replacement|].
        apply Forall_app. split; [exact L1|]. now apply IH.
Qed.

Lemma utf8_bytes_units (cps : list N) :
  Forall scalar cps ->
  utf8_bytes (List.concat (List.map utf16_units cps))
  = List.concat (List.map encode_code_point cps).
Proof.
  induction 1 as [|cp cps [H1 H2] _ IH]; [reflexivity|].
  cbn [List.map List.concat]. rewrite <- IH. unfold utf16_units.
  destruct (N.ltb_spec cp 65536) as [A|A].
  - cbn [app utf8_bytes]. unfold is_high, is_low.
    tests; try reflexivity; lia.
  - cbn [app utf8_bytes]. unfold is_high, is_low.
    tests; try div_lia. do 2 f_equal. div_lia.
Qed.

Lemma decode_encoded (cps : list N) :
  Forall scalar cps ->
  utf8_decode Start (List.concat (List.map encode_code_point cps)) = cps.
Proof.
  induction 1 as [|cp cps H _ IH]; [reflexivity|].
  cbn [List.map List.concat]. rewrite decode_encode by exact H.
  now rewrite IH.
Qed.

(** A string of scalar values is what its bytes decode to. *)
Lemma toString_units (cps : list N) :
  Forall scalar cps ->
  toString_utf8 (utf8_bytes (List.concat (List.map utf16_units cps)))
  = List.concat (List.map utf16_units cps).
Proof.
  intros H. unfold toString_utf8.
  now rewrite utf8_bytes_units, decode_encoded.
Qed.

(** What [toString] gives is always valid. *)
Lemma toString_valid (bytes : list byte) :
  isValidUTF8 (toString_utf8 bytes) = true.
Proof.
  unfold isValidUTF8. apply eqb_eq. unfold toString_utf8 at 2 3.
  apply toString_units. now apply decode_scalar.
Qed.

(** A well-formed string is a string of scalar values. *)
Lemma well_formed_units_le (n : nat) :
  forall s, (List.length s <= n)%nat -> well_formed s = true ->
    exists cps, Forall scalar cps
                /\ s = List.concat (List.map utf16_units cps).
Proof.
  induction n as [|n IH]; intros s L W.
  - destruct s; [|cbn in L; lia]. exists []. now split.
  - destruct s as [|c r]; [exists []; now split|].
    cbn [well_formed] in W. cbn [List.length] in L.
    destruct (is_high c) eqn:Hh.
    + destruct r as [|c2 r2]; [discriminate|].
      apply andb_prop in W as [Hl W]. cbn [List.length] in L.
      destruct (IH r2 ltac:(lia) W) as (cps & S1 & E).
      unfold is_high in Hh. unfold is_low in Hl.
      apply andb_prop in Hh as [A1 A2]. apply andb_prop in Hl as [B1 B2].
      apply N.leb_le in A1, A2, B1, B2.
      exists ((65536 + (c - 55296) * 1024 + (c2 - 56320)) :: cps).
      split; [constructor; [unfold scalar; lia|exact S1]|].
      cbn [List.map List.concat]. rewrite <- E. unfold utf16_units.
      tests; [lia|]. cbn [app]. f_equal; [div_lia|]. f_equal. div_lia.
    + apply andb_prop in W as [W1 W]. apply andb_prop in W1 as [Hl Hc].
      apply N.ltb_lt in Hc.
      destruct (IH r ltac:(lia) W) as (cps & S1 & E).
      unfold is_high in Hh. unfold is_low in Hl.
      exists (c :: cps). split.
      * constructor; [|exact S1]. unfold scalar. split; [lia|].
        revert Hh Hl. tests; intros; try discriminate; lia.
      * cbn [List.map List.concat]. rewrite <- E. unfold utf16_units.
        tests; [reflexivity|lia].
Qed.

Lemma well_formed_units (s : jsstring) :
  well_formed s = true ->
  exists cps, Forall scalar cps /\ s = List.concat (List.map utf16_units cps).
Proof. apply (well_formed_units_le (List.length s)). apply le_n. Qed.

Lemma encode_bytes (cp : N) :
  scalar cp -> Forall (fun b => b < 256) (encode_code_point cp).
Proof.
  intros [H1 H2]. unfold encode_code_point.
  tests; repeat constructor; div_lia.
Qed.

Lemma encoded_bytes (cps : list N) :
  Forall scalar cps ->
  Forall (fun b => b < 256) (List.concat (List.map encode_code_point cps)).
Proof.
  induction 1 as [|cp cps H _ IH]; [constructor|].
  cbn [List.map List.concat]. apply Forall_app. split; [|exact IH].
  now apply encode_bytes.
Qed.

Lemma latin1_bytes_id (l : list byte) :
  Forall (fun b => b < 256) l -> latin1_bytes l = l.
Proof.
  unfold latin1_bytes. induction 1 as [|b l H _ IH]; [reflexivity|].
  cbn [List.map]. rewrite IH. f_equal. now apply N.mod_small.
Qed.

Lemma containsCyrillic_bytes (l : list byte) :
  Forall (fun b => b < 256) l -> containsCyrillic l = false.
Proof.
  unfold containsCyrillic. induction 1 as [|b l H _ IH]; [reflexivity|].
  cbn [existsb]. rewrite IH. tests; try reflexivity; lia.
Qed.

Lemma count_skip (c : N) (r : jsstring) :
  c <> 208 -> countInvalidChars (c :: r) = countInvalidChars r.
Proof.
  intros H. destruct r as [|c2 r2]; [reflexivity|].
  cbn [countInvalidChars]. tests; try reflexivity; lia.
Qed.

Lemma count_skip_low (c c2 : N) (r : jsstring) :
  c2 < 208 ->
  countInvalidChars (c :: c2 :: r) = countInvalidChars (c2 :: r).
Proof.
  intros H. cbn [countInvalidChars]. tests; try reflexivity; lia.
Qed.

(** The pattern of [countInvalidChars] matches nowhere in the bytes of a
    scalar value, and not from its last byte on. *)
Lemma count_encode (cp : N) (rest : list byte) :
  scalar cp ->
  countInvalidChars (encode_code_point cp ++ rest) = countInvalidChars rest.
Proof.
  intros [H1 H2]. unfold encode_code_point. tests; cbn [app].
  - apply count_skip. lia.
  - rewrite count_skip_low by div_lia. apply count_skip. div_lia.
  - rewrite count_skip by div_lia. rewrite count_skip by div_lia.
    apply count_skip. div_lia.
  - rewrite count_skip by div_lia. rewrite count_skip by div_lia.
    rewrite count_skip by div_lia. apply count_skip. div_lia.
Qed.

Lemma count_encoded (cps : list N) :
  Forall scalar cps ->
  countInvalidChars (List.concat (List.map encode_code_point cps)) = O.
Proof.
  induction 1 as [|cp cps H _ IH]; [reflexivity|].
  cbn [List.map List.concat]. now rewrite count_encode.
Qed.

Lemma includes_percent_app (a b : jsstring) :
  includes_percent (a ++ b) = includes_percent a || includes_percent b.
Proof. apply existsb_app. Qed.

Lemma percent_encode (cp : N) :
  scalar cp ->
  includes_percent (encode_code_point cp) = includes_percent (utf16_units cp).
Proof.
  intros [H1 H2]. unfold encode_code_point, utf16_units, includes_percent.
  tests; cbn [existsb]; tests; try reflexivity; div_lia.
Qed.

Lemma percent_encoded (cps : list N) :
  Forall scalar cps ->
  includes_percent (List.concat (List.map encode_code_point cps))
  = includes_percent (List.concat (List.map utf16_units cps)).
Proof.
  induction 1 as [|cp cps H _ IH]; [reflexivity|].
  cbn [List.map List.concat]. rewrite !includes_percent_app, IH.
  now rewrite percent_encode.
Qed.

(** The facts on the bytes of a well-formed string. *)
Lemma mojibake_facts (t : jsstring) :
  well_formed t = true ->
  toString_utf8 (latin1_bytes (mojibake t)) = t
  /\ isValidUTF8 t = true
  /\ containsCyrillic (mojibake t) = false
  /\ countInvalidChars (mojibake t) = O
  /\ includes_percent (mojibake t) = includes_percent t.
Proof.
  intros W. destruct (well_formed_units t W) as (cps & S1 & ->).
  unfold mojibake. rewrite utf8_bytes_units by exact S1.
  pose proof (encoded_bytes cps S1) as B.
  rewrite latin1_bytes_id by exact B.
  assert (R : toString_utf8 (List.concat (List.map encode_code_point cps))
              = List.concat (List.map utf16_units cps)).
  { unfold toString_utf8. now rewrite decode_encoded. }
  split; [exact R|]. split.
  { unfold isValidUTF8. apply eqb_eq. now apply toString_units. }
  split; [now apply containsCyrillic_bytes|].
  split; [now apply count_encoded|]. now apply percent_encoded.
Qed.

Lemma url_decoded_none (f : jsstring -> option jsstring) (s : jsstring) :
  includes_percent s = false -> url_decoded f s = None.
Proof. intros H. unfold url_decoded. now rewrite H. Qed.

(** The steps after the first one, without the tests that always hold. *)
Lemma decodeFilename_steps (f : jsstring -> option jsstring)
  (filename : jsstring) :
  decodeFilename f filename
  = match url_decoded f filename with
    | Some decoded => decoded
    | None =>
        let decoded := toString_utf8 (latin1_bytes filename) in
        if containsCyrillic decoded
           || (countInvalidChars decoded <? countInvalidChars filename)%nat
        then decoded else filename
    end.
Proof.
  unfold decodeFilename. destruct filename as [|c r].
  { reflexivity. }
  change (truthy (c :: r)) with true. cbn [negb].
  destruct (url_decoded f (c :: r)); [reflexivity|].
  unfold latin1_decoded, binary_decoded. cbv zeta.
  rewrite toString_valid, andb_true_r.
  set (decoded := toString_utf8 (latin1_bytes (c :: r))).
  destruct (eqb decoded (c :: r)) eqn:E.
  { apply eqb_eq in E. rewrite E. cbn [negb andb].
    now destruct (_ || _). }
  cbn [negb andb].
  destruct (containsCyrillic decoded); cbn [andb orb].
  - destruct (containsCyrillic (c :: r)); cbn [negb]; [|reflexivity].
    now destruct (_ <? _)%nat.
  - now destruct (_ <? _)%nat.
Qed.

Lemma ascii_bytes (s : jsstring) :
  forallb (fun c => c <? 128) s = true ->
  toString_utf8 (latin1_bytes s) = s.
Proof.
  unfold toString_utf8, latin1_bytes.
  induction s as [|c r IH]; intros H; [reflexivity|].
  cbn [forallb] in H. apply andb_prop in H as [H1 H2].
  apply N.ltb_lt in H1. cbn [List.map]. rewrite N.mod_small by lia.
  rewrite decode_start, lead_byte_ascii by lia.
  cbn [fst snd app List.map List.concat]. rewrite (IH H2).
  unfold utf16_units. tests; [reflexivity|lia].
Qed.

End FilenameFacts.

Module FilenameMore.
Import Js Json FrameFacts FilenameDecoder FilenameFacts.
Local Open Scope N_scope.

(** X29: what [decodeFilename] decodes from the code units taken as bytes
    is always valid for [isValidUTF8], so that test of the steps 2 and 3
    always holds. When the first step gives nothing, [decodeFilename]
    returns the decoded string exactly when it has a Cyrillic letter or
    fewer matches of the pattern than the name, and the name otherwise. A
    name of ASCII code units without a per cent sign is returned as it
    is. *)
Theorem decodeFilename_validity_holds (f : jsstring -> option jsstring)
  (filename : jsstring) :
  isValidUTF8 (toString_utf8 (latin1_bytes filename)) = true
  /\ decodeFilename f filename
     = match url_decoded f filename with
       | Some decoded => decoded
       | None =>
           let decoded := toString_utf8 (latin1_bytes filename) in
           if containsCyrillic decoded
              || (countInvalidChars decoded <? countInvalidChars filename)%nat
           then decoded else filename
       end
  /\ (forallb (fun c => c <? 128) filename = true ->
      includes_percent filename = false ->
      decodeFilename f filename = filename).
Proof.
  split; [apply toString_valid|]. split; [apply decodeFilename_steps|].
  intros A P. rewrite decodeFilename_steps, url_decoded_none by exact P.
  cbv zeta. rewrite ascii_bytes by exact A. now destruct (_ || _).
Qed.

(** X30: the bytes in UTF-8 of a well-formed name without a per cent sign,
    read as Latin-1, are decoded back to the name when it has a Cyrillic
    letter, and are returned as they are when it has none. The pattern of
    [countInvalidChars] matches nowhere in such bytes. *)
Theorem mojibake_repaired (f : jsstring -> option jsstring) (t : jsstring) :
  well_formed t = true -> includes_percent t = false ->
  decodeFilename f (mojibake t)
  = (if containsCyrillic t then t else mojibake t)
  /\ countInvalidChars (mojibake t) = O.
Proof.
  intros W P. destruct (mojibake_facts t W) as (R & V & C & N & E).
  split; [|exact N].
  rewrite decodeFilename_steps, url_decoded_none by now rewrite E.
  cbv zeta. rewrite R, N. cbn [Nat.ltb Nat.leb]. rewrite orb_false_r.
  reflexivity.
Qed.

Lemma mojibake_repaired_witness :
  well_formed plan = true /\ includes_percent plan = false
  /\ decodeFilename no_uri (mojibake plan) = plan.
Proof.
  assert (W : well_formed plan = true) by reflexivity.
  assert (P : includes_percent plan = false) by reflexivity.
  split; [exact W|]. split; [exact P|].
  exact (proj1 (mojibake_repaired no_uri plan W P)).
Defined.

End FilenameMore.
